(** * docs/messages.py: extraction, synchronisation and regeneration of the
      documentation catalogs

    A shallow embedding of [docs/messages.py].  The script is a thin layer on
    top of Babel ([Catalog], [Message], [extract_from_file]) and of Python's
    [difflib]; the parts of those libraries that the script runs through are
    embedded next to the script's own functions, each under the name it has
    there.  Reading and writing catalog files ([read_po], [write_po]) stay
    outside: a run is given the catalogs its files hold.

    Conventions of the embedding.
    - A Python [bytes] is a [string], a byte for a character.  A Python
      [str] is kept as its UTF-8 encoding, a [string] too: equality, order,
      concatenation and the search for an ASCII character are the same on
      a [str] and on its encoding.  [decode("utf-8")] checks that its
      argument is well-formed UTF-8 and raises otherwise.  What looks at
      the characters of a [str] works on them: [strip] removes the blank
      characters of Unicode, [lower] follows the case tables of Unicode,
      [difflib] compares sequences of characters.  [bytes.strip] removes
      the six ASCII blanks only.  The character data are those of Unicode
      14.0, which Python 3.11 has.
    - A file opened in text mode is written in UTF-8, the encoding of the
      locale the script is run under: what is written there is the [str]
      as it is kept.
    - A [dict] (and Babel's [OrderedDict]) is an association list in insertion
      order, with at most one binding per key.
    - The flag set of a message is observed by the script through [fuzzy]
      only; it is kept as that one boolean (union of flag sets is [orb]).
    - A Python [float] is a primitive binary64 [float]; [round] is computed
      on the exact value of its argument, as Python does.
    - An uncaught exception is a value of [exn]; a loop that meets one stops
      there, keeping the effects made so far. *)

From Stdlib Require Import List String Ascii Bool Arith PeanoNat NArith ZArith Lia.
From Stdlib Require Import Sorted Permutation.
From Stdlib Require Import PrimFloat FloatOps FloatAxioms SpecFloat Uint63.
Import ListNotations.

Set Warnings "-inexact-float".

Local Open Scope string_scope.
Local Open Scope list_scope.
Local Open Scope nat_scope.

(** ** Text *)

Definition bytes := string.
Definition str := string.

Definition LF : ascii := "010"%char.
Definition nl : str := String LF EmptyString.

Definition is_empty (s : string) : bool :=
  match s with EmptyString => true | _ => false end.

(** ** Exceptions *)

(** The keys of [Catalog._messages]: the id text, paired with the context
    when there is one. *)
Definition key := (str * option str)%type.

Inductive exn :=
| AttributeError
| TypeError
| KeyError (k : key)
| ZeroDivisionError
| IsADirectoryError
| OSError
| UnicodeDecodeError
| AssertionError
| IndexError.

(** ** UTF-8 *)

Definition byte_in (lo hi : N) (c : ascii) : bool :=
  let n := N_of_ascii c in ((lo <=? n) && (n <=? hi))%N.

(** The continuation of a sequence: its low six bits. *)
Definition cont (c : ascii) : N := (N_of_ascii c - 0x80)%N.

(** The code points of a byte string that is well-formed UTF-8, as
    [bytes.decode("utf-8")] takes them: no overlong form, no surrogate,
    nothing above U+10FFFF. *)
Fixpoint utf8_decode (s : bytes) : option (list N) :=
  match s with
  | EmptyString => Some []
  | String c0 r =>
      let b0 := N_of_ascii c0 in
      if (b0 <? 0x80)%N then option_map (cons b0) (utf8_decode r)
      else if byte_in 0xC2 0xDF c0 then
        match r with
        | String c1 r1 =>
            if byte_in 0x80 0xBF c1
            then option_map (cons ((b0 - 0xC0) * 64 + cont c1)%N) (utf8_decode r1)
            else None
        | _ => None
        end
      else if byte_in 0xE0 0xEF c0 then
        match r with
        | String c1 (String c2 r2) =>
            if byte_in (if (b0 =? 0xE0)%N then 0xA0 else 0x80)
                 (if (b0 =? 0xED)%N then 0x9F else 0xBF) c1
               && byte_in 0x80 0xBF c2
            then option_map
                   (cons (((b0 - 0xE0) * 64 + cont c1) * 64 + cont c2)%N)
                   (utf8_decode r2)
            else None
        | _ => None
        end
      else if byte_in 0xF0 0xF4 c0 then
        match r with
        | String c1 (String c2 (String c3 r3)) =>
            if byte_in (if (b0 =? 0xF0)%N then 0x90 else 0x80)
                 (if (b0 =? 0xF4)%N then 0x8F else 0xBF) c1
               && byte_in 0x80 0xBF c2 && byte_in 0x80 0xBF c3
            then option_map
                   (cons ((((b0 - 0xF0) * 64 + cont c1) * 64 + cont c2) * 64 + cont c3)%N)
                   (utf8_decode r3)
            else None
        | _ => None
        end
      else None
  end.

Definition valid_utf8 (s : bytes) : bool :=
  match utf8_decode s with Some _ => true | None => false end.

(** [b.decode("utf-8")]: the [str] of the bytes, which is kept as these
    bytes, or [UnicodeDecodeError]. *)
Definition decode_utf8 (b : bytes) : exn + str :=
  if valid_utf8 b then inr b else inl UnicodeDecodeError.

(** The characters of a [str]. *)
Definition codepoints (s : str) : list N :=
  match utf8_decode s with
  | Some l => l
  | None => map N_of_ascii (list_ascii_of_string s)
  end.

Definition byte (n : N) : string := String (ascii_of_N n) EmptyString.

(** The UTF-8 encoding of a character. *)
Definition utf8_of_codepoint (n : N) : string :=
  (if n <? 0x80 then byte n
   else if n <? 0x800 then byte (0xC0 + n / 64) ++ byte (0x80 + n mod 64)
   else if n <? 0x10000 then
     byte (0xE0 + n / 4096) ++ byte (0x80 + (n / 64) mod 64) ++ byte (0x80 + n mod 64)
   else
     byte (0xF0 + n / 262144) ++ byte (0x80 + (n / 4096) mod 64)
       ++ byte (0x80 + (n / 64) mod 64) ++ byte (0x80 + n mod 64))%N%string.

(** The [str] of a sequence of characters. *)
Definition utf8_encode (l : list N) : str :=
  String.concat EmptyString (map utf8_of_codepoint l).

(** ** Blanks *)

(** [bytes.strip()] blanks: space, \t, \n, \v, \f, \r. *)
Definition bytes_isspace (c : ascii) : bool :=
  let n := nat_of_ascii c in
  (n =? 32) || ((9 <=? n) && (n <=? 13)).

Fixpoint lstrip (sp : ascii -> bool) (s : string) : string :=
  match s with
  | EmptyString => EmptyString
  | String c r => if sp c then lstrip sp r else s
  end.

Fixpoint rstrip (sp : ascii -> bool) (s : string) : string :=
  match s with
  | EmptyString => EmptyString
  | String c r =>
      match rstrip sp r with
      | EmptyString => if sp c then EmptyString else String c EmptyString
      | r' => String c r'
      end
  end.

Definition strip (sp : ascii -> bool) (s : string) : string :=
  rstrip sp (lstrip sp s).

(** The characters [str.strip()] removes, those [str.isspace] holds of:
    the six above, U+001C-U+001F, U+0085, U+00A0, U+1680, U+2000-U+200A,
    U+2028, U+2029, U+202F, U+205F and U+3000. *)
Definition whitespace_codepoints : list N :=
  [0x9; 0xA; 0xB; 0xC; 0xD; 0x1C; 0x1D; 0x1E; 0x1F; 0x20; 0x85; 0xA0; 0x1680;
   0x2000; 0x2001; 0x2002; 0x2003; 0x2004; 0x2005; 0x2006; 0x2007; 0x2008;
   0x2009; 0x200A; 0x2028; 0x2029; 0x202F; 0x205F; 0x3000]%N.

(** A [str] that is one blank character. *)
Definition is_whitespace (s : str) : bool :=
  existsb (fun n => String.eqb s (utf8_of_codepoint n)) whitespace_codepoints.

(** [s.lstrip()]: a blank character takes one, two or three bytes. *)
Fixpoint str_lstrip (s : str) : str :=
  match s with
  | String c0 r0 =>
      if is_whitespace (String c0 EmptyString) then str_lstrip r0
      else
        match r0 with
        | String c1 r1 =>
            if is_whitespace (String c0 (String c1 EmptyString)) then str_lstrip r1
            else
              match r1 with
              | String c2 r2 =>
                  if is_whitespace (String c0 (String c1 (String c2 EmptyString)))
                  then str_lstrip r2
                  else s
              | EmptyString => s
              end
        | EmptyString => s
        end
  | EmptyString => EmptyString
  end.

(** [s.rstrip()]: once the rest is stripped, what is left ends with a
    blank character only if it is one. *)
Fixpoint str_rstrip (s : str) : str :=
  match s with
  | EmptyString => EmptyString
  | String c r =>
      let s' := String c (str_rstrip r) in
      if is_whitespace s' then EmptyString else s'
  end.

Definition str_strip (s : str) : str := str_rstrip (str_lstrip s).

(** ** Lower case *)

(** The characters [str.lower] changes into one character, by ranges
    [(first, last, step, target)]: the character [first + i * step], up to
    [last], becomes [target + i * step].  The data are those of Unicode
    14.0, which Python 3.11 has. *)
Definition lower_ranges : list (N * N * N * N) :=
  [
   (0x41, 0x5a, 1, 0x61); (0xc0, 0xd6, 1, 0xe0); (0xd8, 0xde, 1, 0xf8);
   (0x100, 0x12e, 2, 0x101); (0x132, 0x136, 2, 0x133); (0x139, 0x147, 2, 0x13a);
   (0x14a, 0x176, 2, 0x14b); (0x178, 0x178, 1, 0xff); (0x179, 0x17d, 2, 0x17a);
   (0x181, 0x181, 1, 0x253); (0x182, 0x184, 2, 0x183); (0x186, 0x186, 1, 0x254);
   (0x187, 0x187, 1, 0x188); (0x189, 0x18a, 1, 0x256); (0x18b, 0x18b, 1, 0x18c);
   (0x18e, 0x18e, 1, 0x1dd); (0x18f, 0x18f, 1, 0x259); (0x190, 0x190, 1, 0x25b);
   (0x191, 0x191, 1, 0x192); (0x193, 0x193, 1, 0x260); (0x194, 0x194, 1, 0x263);
   (0x196, 0x196, 1, 0x269); (0x197, 0x197, 1, 0x268); (0x198, 0x198, 1, 0x199);
   (0x19c, 0x19c, 1, 0x26f); (0x19d, 0x19d, 1, 0x272); (0x19f, 0x19f, 1, 0x275);
   (0x1a0, 0x1a4, 2, 0x1a1); (0x1a6, 0x1a6, 1, 0x280); (0x1a7, 0x1a7, 1, 0x1a8);
   (0x1a9, 0x1a9, 1, 0x283); (0x1ac, 0x1ac, 1, 0x1ad); (0x1ae, 0x1ae, 1, 0x288);
   (0x1af, 0x1af, 1, 0x1b0); (0x1b1, 0x1b2, 1, 0x28a); (0x1b3, 0x1b5, 2, 0x1b4);
   (0x1b7, 0x1b7, 1, 0x292); (0x1b8, 0x1b8, 1, 0x1b9); (0x1bc, 0x1bc, 1, 0x1bd);
   (0x1c4, 0x1c4, 1, 0x1c6); (0x1c5, 0x1c5, 1, 0x1c6); (0x1c7, 0x1c7, 1, 0x1c9);
   (0x1c8, 0x1c8, 1, 0x1c9); (0x1ca, 0x1ca, 1, 0x1cc); (0x1cb, 0x1db, 2, 0x1cc);
   (0x1de, 0x1ee, 2, 0x1df); (0x1f1, 0x1f1, 1, 0x1f3); (0x1f2, 0x1f4, 2, 0x1f3);
   (0x1f6, 0x1f6, 1, 0x195); (0x1f7, 0x1f7, 1, 0x1bf); (0x1f8, 0x21e, 2, 0x1f9);
   (0x220, 0x220, 1, 0x19e); (0x222, 0x232, 2, 0x223); (0x23a, 0x23a, 1, 0x2c65);
   (0x23b, 0x23b, 1, 0x23c); (0x23d, 0x23d, 1, 0x19a); (0x23e, 0x23e, 1, 0x2c66);
   (0x241, 0x241, 1, 0x242); (0x243, 0x243, 1, 0x180); (0x244, 0x244, 1, 0x289);
   (0x245, 0x245, 1, 0x28c); (0x246, 0x24e, 2, 0x247); (0x370, 0x372, 2, 0x371);
   (0x376, 0x376, 1, 0x377); (0x37f, 0x37f, 1, 0x3f3); (0x386, 0x386, 1, 0x3ac);
   (0x388, 0x38a, 1, 0x3ad); (0x38c, 0x38c, 1, 0x3cc); (0x38e, 0x38f, 1, 0x3cd);
   (0x391, 0x3a1, 1, 0x3b1); (0x3a3, 0x3ab, 1, 0x3c3); (0x3cf, 0x3cf, 1, 0x3d7);
   (0x3d8, 0x3ee, 2, 0x3d9); (0x3f4, 0x3f4, 1, 0x3b8); (0x3f7, 0x3f7, 1, 0x3f8);
   (0x3f9, 0x3f9, 1, 0x3f2); (0x3fa, 0x3fa, 1, 0x3fb); (0x3fd, 0x3ff, 1, 0x37b);
   (0x400, 0x40f, 1, 0x450); (0x410, 0x42f, 1, 0x430); (0x460, 0x480, 2, 0x461);
   (0x48a, 0x4be, 2, 0x48b); (0x4c0, 0x4c0, 1, 0x4cf); (0x4c1, 0x4cd, 2, 0x4c2);
   (0x4d0, 0x52e, 2, 0x4d1); (0x531, 0x556, 1, 0x561); (0x10a0, 0x10c5, 1, 0x2d00);
   (0x10c7, 0x10c7, 1, 0x2d27); (0x10cd, 0x10cd, 1, 0x2d2d); (0x13a0, 0x13ef, 1, 0xab70);
   (0x13f0, 0x13f5, 1, 0x13f8); (0x1c90, 0x1cba, 1, 0x10d0); (0x1cbd, 0x1cbf, 1, 0x10fd);
   (0x1e00, 0x1e94, 2, 0x1e01); (0x1e9e, 0x1e9e, 1, 0xdf); (0x1ea0, 0x1efe, 2, 0x1ea1);
   (0x1f08, 0x1f0f, 1, 0x1f00); (0x1f18, 0x1f1d, 1, 0x1f10); (0x1f28, 0x1f2f, 1, 0x1f20);
   (0x1f38, 0x1f3f, 1, 0x1f30); (0x1f48, 0x1f4d, 1, 0x1f40); (0x1f59, 0x1f5f, 2, 0x1f51);
   (0x1f68, 0x1f6f, 1, 0x1f60); (0x1f88, 0x1f8f, 1, 0x1f80); (0x1f98, 0x1f9f, 1, 0x1f90);
   (0x1fa8, 0x1faf, 1, 0x1fa0); (0x1fb8, 0x1fb9, 1, 0x1fb0); (0x1fba, 0x1fbb, 1, 0x1f70);
   (0x1fbc, 0x1fbc, 1, 0x1fb3); (0x1fc8, 0x1fcb, 1, 0x1f72); (0x1fcc, 0x1fcc, 1, 0x1fc3);
   (0x1fd8, 0x1fd9, 1, 0x1fd0); (0x1fda, 0x1fdb, 1, 0x1f76); (0x1fe8, 0x1fe9, 1, 0x1fe0);
   (0x1fea, 0x1feb, 1, 0x1f7a); (0x1fec, 0x1fec, 1, 0x1fe5); (0x1ff8, 0x1ff9, 1, 0x1f78);
   (0x1ffa, 0x1ffb, 1, 0x1f7c); (0x1ffc, 0x1ffc, 1, 0x1ff3); (0x2126, 0x2126, 1, 0x3c9);
   (0x212a, 0x212a, 1, 0x6b); (0x212b, 0x212b, 1, 0xe5); (0x2132, 0x2132, 1, 0x214e);
   (0x2160, 0x216f, 1, 0x2170); (0x2183, 0x2183, 1, 0x2184); (0x24b6, 0x24cf, 1, 0x24d0);
   (0x2c00, 0x2c2f, 1, 0x2c30); (0x2c60, 0x2c60, 1, 0x2c61); (0x2c62, 0x2c62, 1, 0x26b);
   (0x2c63, 0x2c63, 1, 0x1d7d); (0x2c64, 0x2c64, 1, 0x27d); (0x2c67, 0x2c6b, 2, 0x2c68);
   (0x2c6d, 0x2c6d, 1, 0x251); (0x2c6e, 0x2c6e, 1, 0x271); (0x2c6f, 0x2c6f, 1, 0x250);
   (0x2c70, 0x2c70, 1, 0x252); (0x2c72, 0x2c72, 1, 0x2c73); (0x2c75, 0x2c75, 1, 0x2c76);
   (0x2c7e, 0x2c7f, 1, 0x23f); (0x2c80, 0x2ce2, 2, 0x2c81); (0x2ceb, 0x2ced, 2, 0x2cec);
   (0x2cf2, 0x2cf2, 1, 0x2cf3); (0xa640, 0xa66c, 2, 0xa641); (0xa680, 0xa69a, 2, 0xa681);
   (0xa722, 0xa72e, 2, 0xa723); (0xa732, 0xa76e, 2, 0xa733); (0xa779, 0xa77b, 2, 0xa77a);
   (0xa77d, 0xa77d, 1, 0x1d79); (0xa77e, 0xa786, 2, 0xa77f); (0xa78b, 0xa78b, 1, 0xa78c);
   (0xa78d, 0xa78d, 1, 0x265); (0xa790, 0xa792, 2, 0xa791); (0xa796, 0xa7a8, 2, 0xa797);
   (0xa7aa, 0xa7aa, 1, 0x266); (0xa7ab, 0xa7ab, 1, 0x25c); (0xa7ac, 0xa7ac, 1, 0x261);
   (0xa7ad, 0xa7ad, 1, 0x26c); (0xa7ae, 0xa7ae, 1, 0x26a); (0xa7b0, 0xa7b0, 1, 0x29e);
   (0xa7b1, 0xa7b1, 1, 0x287); (0xa7b2, 0xa7b2, 1, 0x29d); (0xa7b3, 0xa7b3, 1, 0xab53);
   (0xa7b4, 0xa7c2, 2, 0xa7b5); (0xa7c4, 0xa7c4, 1, 0xa794); (0xa7c5, 0xa7c5, 1, 0x282);
   (0xa7c6, 0xa7c6, 1, 0x1d8e); (0xa7c7, 0xa7c9, 2, 0xa7c8); (0xa7d0, 0xa7d0, 1, 0xa7d1);
   (0xa7d6, 0xa7d8, 2, 0xa7d7); (0xa7f5, 0xa7f5, 1, 0xa7f6); (0xff21, 0xff3a, 1, 0xff41);
   (0x10400, 0x10427, 1, 0x10428); (0x104b0, 0x104d3, 1, 0x104d8); (0x10570, 0x1057a, 1, 0x10597);
   (0x1057c, 0x1058a, 1, 0x105a3); (0x1058c, 0x10592, 1, 0x105b3); (0x10594, 0x10595, 1, 0x105bb);
   (0x10c80, 0x10cb2, 1, 0x10cc0); (0x118a0, 0x118bf, 1, 0x118c0); (0x16e40, 0x16e5f, 1, 0x16e60);
   (0x1e900, 0x1e921, 1, 0x1e922)
  ]%N.

(** The characters with the property Cased, by ranges. *)
Definition cased_ranges : list (N * N) :=
  [
   (0x41, 0x5a); (0x61, 0x7a); (0xaa, 0xaa); (0xb5, 0xb5); (0xba, 0xba);
   (0xc0, 0xd6); (0xd8, 0xf6); (0xf8, 0x1ba); (0x1bc, 0x1bf); (0x1c4, 0x293);
   (0x295, 0x2b8); (0x2c0, 0x2c1); (0x2e0, 0x2e4); (0x345, 0x345); (0x370, 0x373);
   (0x376, 0x377); (0x37a, 0x37d); (0x37f, 0x37f); (0x386, 0x386); (0x388, 0x38a);
   (0x38c, 0x38c); (0x38e, 0x3a1); (0x3a3, 0x3f5); (0x3f7, 0x481); (0x48a, 0x52f);
   (0x531, 0x556); (0x560, 0x588); (0x10a0, 0x10c5); (0x10c7, 0x10c7); (0x10cd, 0x10cd);
   (0x10d0, 0x10fa); (0x10fd, 0x10ff); (0x13a0, 0x13f5); (0x13f8, 0x13fd); (0x1c80, 0x1c88);
   (0x1c90, 0x1cba); (0x1cbd, 0x1cbf); (0x1d00, 0x1dbf); (0x1e00, 0x1f15); (0x1f18, 0x1f1d);
   (0x1f20, 0x1f45); (0x1f48, 0x1f4d); (0x1f50, 0x1f57); (0x1f59, 0x1f59); (0x1f5b, 0x1f5b);
   (0x1f5d, 0x1f5d); (0x1f5f, 0x1f7d); (0x1f80, 0x1fb4); (0x1fb6, 0x1fbc); (0x1fbe, 0x1fbe);
   (0x1fc2, 0x1fc4); (0x1fc6, 0x1fcc); (0x1fd0, 0x1fd3); (0x1fd6, 0x1fdb); (0x1fe0, 0x1fec);
   (0x1ff2, 0x1ff4); (0x1ff6, 0x1ffc); (0x2071, 0x2071); (0x207f, 0x207f); (0x2090, 0x209c);
   (0x2102, 0x2102); (0x2107, 0x2107); (0x210a, 0x2113); (0x2115, 0x2115); (0x2119, 0x211d);
   (0x2124, 0x2124); (0x2126, 0x2126); (0x2128, 0x2128); (0x212a, 0x212d); (0x212f, 0x2134);
   (0x2139, 0x2139); (0x213c, 0x213f); (0x2145, 0x2149); (0x214e, 0x214e); (0x2160, 0x217f);
   (0x2183, 0x2184); (0x24b6, 0x24e9); (0x2c00, 0x2ce4); (0x2ceb, 0x2cee); (0x2cf2, 0x2cf3);
   (0x2d00, 0x2d25); (0x2d27, 0x2d27); (0x2d2d, 0x2d2d); (0xa640, 0xa66d); (0xa680, 0xa69d);
   (0xa722, 0xa787); (0xa78b, 0xa78e); (0xa790, 0xa7ca); (0xa7d0, 0xa7d1); (0xa7d3, 0xa7d3);
   (0xa7d5, 0xa7d9); (0xa7f5, 0xa7f6); (0xa7f8, 0xa7fa); (0xab30, 0xab5a); (0xab5c, 0xab68);
   (0xab70, 0xabbf); (0xfb00, 0xfb06); (0xfb13, 0xfb17); (0xff21, 0xff3a); (0xff41, 0xff5a);
   (0x10400, 0x1044f); (0x104b0, 0x104d3); (0x104d8, 0x104fb); (0x10570, 0x1057a); (0x1057c, 0x1058a);
   (0x1058c, 0x10592); (0x10594, 0x10595); (0x10597, 0x105a1); (0x105a3, 0x105b1); (0x105b3, 0x105b9);
   (0x105bb, 0x105bc); (0x10780, 0x10780); (0x10783, 0x10785); (0x10787, 0x107b0); (0x107b2, 0x107ba);
   (0x10c80, 0x10cb2); (0x10cc0, 0x10cf2); (0x118a0, 0x118df); (0x16e40, 0x16e7f); (0x1d400, 0x1d454);
   (0x1d456, 0x1d49c); (0x1d49e, 0x1d49f); (0x1d4a2, 0x1d4a2); (0x1d4a5, 0x1d4a6); (0x1d4a9, 0x1d4ac);
   (0x1d4ae, 0x1d4b9); (0x1d4bb, 0x1d4bb); (0x1d4bd, 0x1d4c3); (0x1d4c5, 0x1d505); (0x1d507, 0x1d50a);
   (0x1d50d, 0x1d514); (0x1d516, 0x1d51c); (0x1d51e, 0x1d539); (0x1d53b, 0x1d53e); (0x1d540, 0x1d544);
   (0x1d546, 0x1d546); (0x1d54a, 0x1d550); (0x1d552, 0x1d6a5); (0x1d6a8, 0x1d6c0); (0x1d6c2, 0x1d6da);
   (0x1d6dc, 0x1d6fa); (0x1d6fc, 0x1d714); (0x1d716, 0x1d734); (0x1d736, 0x1d74e); (0x1d750, 0x1d76e);
   (0x1d770, 0x1d788); (0x1d78a, 0x1d7a8); (0x1d7aa, 0x1d7c2); (0x1d7c4, 0x1d7cb); (0x1df00, 0x1df09);
   (0x1df0b, 0x1df1e); (0x1e900, 0x1e943); (0x1f130, 0x1f149); (0x1f150, 0x1f169); (0x1f170, 0x1f189)
  ]%N.

(** The characters with the property Case_Ignorable, by ranges. *)
Definition case_ignorable_ranges : list (N * N) :=
  [
   (0x27, 0x27); (0x2e, 0x2e); (0x3a, 0x3a); (0x5e, 0x5e); (0x60, 0x60);
   (0xa8, 0xa8); (0xad, 0xad); (0xaf, 0xaf); (0xb4, 0xb4); (0xb7, 0xb8);
   (0x2b0, 0x36f); (0x374, 0x375); (0x37a, 0x37a); (0x384, 0x385); (0x387, 0x387);
   (0x483, 0x489); (0x559, 0x559); (0x55f, 0x55f); (0x591, 0x5bd); (0x5bf, 0x5bf);
   (0x5c1, 0x5c2); (0x5c4, 0x5c5); (0x5c7, 0x5c7); (0x5f4, 0x5f4); (0x600, 0x605);
   (0x610, 0x61a); (0x61c, 0x61c); (0x640, 0x640); (0x64b, 0x65f); (0x670, 0x670);
   (0x6d6, 0x6dd); (0x6df, 0x6e8); (0x6ea, 0x6ed); (0x70f, 0x70f); (0x711, 0x711);
   (0x730, 0x74a); (0x7a6, 0x7b0); (0x7eb, 0x7f5); (0x7fa, 0x7fa); (0x7fd, 0x7fd);
   (0x816, 0x82d); (0x859, 0x85b); (0x888, 0x888); (0x890, 0x891); (0x898, 0x89f);
   (0x8c9, 0x902); (0x93a, 0x93a); (0x93c, 0x93c); (0x941, 0x948); (0x94d, 0x94d);
   (0x951, 0x957); (0x962, 0x963); (0x971, 0x971); (0x981, 0x981); (0x9bc, 0x9bc);
   (0x9c1, 0x9c4); (0x9cd, 0x9cd); (0x9e2, 0x9e3); (0x9fe, 0x9fe); (0xa01, 0xa02);
   (0xa3c, 0xa3c); (0xa41, 0xa42); (0xa47, 0xa48); (0xa4b, 0xa4d); (0xa51, 0xa51);
   (0xa70, 0xa71); (0xa75, 0xa75); (0xa81, 0xa82); (0xabc, 0xabc); (0xac1, 0xac5);
   (0xac7, 0xac8); (0xacd, 0xacd); (0xae2, 0xae3); (0xafa, 0xaff); (0xb01, 0xb01);
   (0xb3c, 0xb3c); (0xb3f, 0xb3f); (0xb41, 0xb44); (0xb4d, 0xb4d); (0xb55, 0xb56);
   (0xb62, 0xb63); (0xb82, 0xb82); (0xbc0, 0xbc0); (0xbcd, 0xbcd); (0xc00, 0xc00);
   (0xc04, 0xc04); (0xc3c, 0xc3c); (0xc3e, 0xc40); (0xc46, 0xc48); (0xc4a, 0xc4d);
   (0xc55, 0xc56); (0xc62, 0xc63); (0xc81, 0xc81); (0xcbc, 0xcbc); (0xcbf, 0xcbf);
   (0xcc6, 0xcc6); (0xccc, 0xccd); (0xce2, 0xce3); (0xd00, 0xd01); (0xd3b, 0xd3c);
   (0xd41, 0xd44); (0xd4d, 0xd4d); (0xd62, 0xd63); (0xd81, 0xd81); (0xdca, 0xdca);
   (0xdd2, 0xdd4); (0xdd6, 0xdd6); (0xe31, 0xe31); (0xe34, 0xe3a); (0xe46, 0xe4e);
   (0xeb1, 0xeb1); (0xeb4, 0xebc); (0xec6, 0xec6); (0xec8, 0xecd); (0xf18, 0xf19);
   (0xf35, 0xf35); (0xf37, 0xf37); (0xf39, 0xf39); (0xf71, 0xf7e); (0xf80, 0xf84);
   (0xf86, 0xf87); (0xf8d, 0xf97); (0xf99, 0xfbc); (0xfc6, 0xfc6); (0x102d, 0x1030);
   (0x1032, 0x1037); (0x1039, 0x103a); (0x103d, 0x103e); (0x1058, 0x1059); (0x105e, 0x1060);
   (0x1071, 0x1074); (0x1082, 0x1082); (0x1085, 0x1086); (0x108d, 0x108d); (0x109d, 0x109d);
   (0x10fc, 0x10fc); (0x135d, 0x135f); (0x1712, 0x1714); (0x1732, 0x1733); (0x1752, 0x1753);
   (0x1772, 0x1773); (0x17b4, 0x17b5); (0x17b7, 0x17bd); (0x17c6, 0x17c6); (0x17c9, 0x17d3);
   (0x17d7, 0x17d7); (0x17dd, 0x17dd); (0x180b, 0x180f); (0x1843, 0x1843); (0x1885, 0x1886);
   (0x18a9, 0x18a9); (0x1920, 0x1922); (0x1927, 0x1928); (0x1932, 0x1932); (0x1939, 0x193b);
   (0x1a17, 0x1a18); (0x1a1b, 0x1a1b); (0x1a56, 0x1a56); (0x1a58, 0x1a5e); (0x1a60, 0x1a60);
   (0x1a62, 0x1a62); (0x1a65, 0x1a6c); (0x1a73, 0x1a7c); (0x1a7f, 0x1a7f); (0x1aa7, 0x1aa7);
   (0x1ab0, 0x1ace); (0x1b00, 0x1b03); (0x1b34, 0x1b34); (0x1b36, 0x1b3a); (0x1b3c, 0x1b3c);
   (0x1b42, 0x1b42); (0x1b6b, 0x1b73); (0x1b80, 0x1b81); (0x1ba2, 0x1ba5); (0x1ba8, 0x1ba9);
   (0x1bab, 0x1bad); (0x1be6, 0x1be6); (0x1be8, 0x1be9); (0x1bed, 0x1bed); (0x1bef, 0x1bf1);
   (0x1c2c, 0x1c33); (0x1c36, 0x1c37); (0x1c78, 0x1c7d); (0x1cd0, 0x1cd2); (0x1cd4, 0x1ce0);
   (0x1ce2, 0x1ce8); (0x1ced, 0x1ced); (0x1cf4, 0x1cf4); (0x1cf8, 0x1cf9); (0x1d2c, 0x1d6a);
   (0x1d78, 0x1d78); (0x1d9b, 0x1dff); (0x1fbd, 0x1fbd); (0x1fbf, 0x1fc1); (0x1fcd, 0x1fcf);
   (0x1fdd, 0x1fdf); (0x1fed, 0x1fef); (0x1ffd, 0x1ffe); (0x200b, 0x200f); (0x2018, 0x2019);
   (0x2024, 0x2024); (0x2027, 0x2027); (0x202a, 0x202e); (0x2060, 0x2064); (0x2066, 0x206f);
   (0x2071, 0x2071); (0x207f, 0x207f); (0x2090, 0x209c); (0x20d0, 0x20f0); (0x2c7c, 0x2c7d);
   (0x2cef, 0x2cf1); (0x2d6f, 0x2d6f); (0x2d7f, 0x2d7f); (0x2de0, 0x2dff); (0x2e2f, 0x2e2f);
   (0x3005, 0x3005); (0x302a, 0x302d); (0x3031, 0x3035); (0x303b, 0x303b); (0x3099, 0x309e);
   (0x30fc, 0x30fe); (0xa015, 0xa015); (0xa4f8, 0xa4fd); (0xa60c, 0xa60c); (0xa66f, 0xa672);
   (0xa674, 0xa67d); (0xa67f, 0xa67f); (0xa69c, 0xa69f); (0xa6f0, 0xa6f1); (0xa700, 0xa721);
   (0xa770, 0xa770); (0xa788, 0xa78a); (0xa7f2, 0xa7f4); (0xa7f8, 0xa7f9); (0xa802, 0xa802);
   (0xa806, 0xa806); (0xa80b, 0xa80b); (0xa825, 0xa826); (0xa82c, 0xa82c); (0xa8c4, 0xa8c5);
   (0xa8e0, 0xa8f1); (0xa8ff, 0xa8ff); (0xa926, 0xa92d); (0xa947, 0xa951); (0xa980, 0xa982);
   (0xa9b3, 0xa9b3); (0xa9b6, 0xa9b9); (0xa9bc, 0xa9bd); (0xa9cf, 0xa9cf); (0xa9e5, 0xa9e6);
   (0xaa29, 0xaa2e); (0xaa31, 0xaa32); (0xaa35, 0xaa36); (0xaa43, 0xaa43); (0xaa4c, 0xaa4c);
   (0xaa70, 0xaa70); (0xaa7c, 0xaa7c); (0xaab0, 0xaab0); (0xaab2, 0xaab4); (0xaab7, 0xaab8);
   (0xaabe, 0xaabf); (0xaac1, 0xaac1); (0xaadd, 0xaadd); (0xaaec, 0xaaed); (0xaaf3, 0xaaf4);
   (0xaaf6, 0xaaf6); (0xab5b, 0xab5f); (0xab69, 0xab6b); (0xabe5, 0xabe5); (0xabe8, 0xabe8);
   (0xabed, 0xabed); (0xfb1e, 0xfb1e); (0xfbb2, 0xfbc2); (0xfe00, 0xfe0f); (0xfe13, 0xfe13);
   (0xfe20, 0xfe2f); (0xfe52, 0xfe52); (0xfe55, 0xfe55); (0xfeff, 0xfeff); (0xff07, 0xff07);
   (0xff0e, 0xff0e); (0xff1a, 0xff1a); (0xff3e, 0xff3e); (0xff40, 0xff40); (0xff70, 0xff70);
   (0xff9e, 0xff9f); (0xffe3, 0xffe3); (0xfff9, 0xfffb); (0x101fd, 0x101fd); (0x102e0, 0x102e0);
   (0x10376, 0x1037a); (0x10780, 0x10785); (0x10787, 0x107b0); (0x107b2, 0x107ba); (0x10a01, 0x10a03);
   (0x10a05, 0x10a06); (0x10a0c, 0x10a0f); (0x10a38, 0x10a3a); (0x10a3f, 0x10a3f); (0x10ae5, 0x10ae6);
   (0x10d24, 0x10d27); (0x10eab, 0x10eac); (0x10f46, 0x10f50); (0x10f82, 0x10f85); (0x11001, 0x11001);
   (0x11038, 0x11046); (0x11070, 0x11070); (0x11073, 0x11074); (0x1107f, 0x11081); (0x110b3, 0x110b6);
   (0x110b9, 0x110ba); (0x110bd, 0x110bd); (0x110c2, 0x110c2); (0x110cd, 0x110cd); (0x11100, 0x11102);
   (0x11127, 0x1112b); (0x1112d, 0x11134); (0x11173, 0x11173); (0x11180, 0x11181); (0x111b6, 0x111be);
   (0x111c9, 0x111cc); (0x111cf, 0x111cf); (0x1122f, 0x11231); (0x11234, 0x11234); (0x11236, 0x11237);
   (0x1123e, 0x1123e); (0x112df, 0x112df); (0x112e3, 0x112ea); (0x11300, 0x11301); (0x1133b, 0x1133c);
   (0x11340, 0x11340); (0x11366, 0x1136c); (0x11370, 0x11374); (0x11438, 0x1143f); (0x11442, 0x11444);
   (0x11446, 0x11446); (0x1145e, 0x1145e); (0x114b3, 0x114b8); (0x114ba, 0x114ba); (0x114bf, 0x114c0);
   (0x114c2, 0x114c3); (0x115b2, 0x115b5); (0x115bc, 0x115bd); (0x115bf, 0x115c0); (0x115dc, 0x115dd);
   (0x11633, 0x1163a); (0x1163d, 0x1163d); (0x1163f, 0x11640); (0x116ab, 0x116ab); (0x116ad, 0x116ad);
   (0x116b0, 0x116b5); (0x116b7, 0x116b7); (0x1171d, 0x1171f); (0x11722, 0x11725); (0x11727, 0x1172b);
   (0x1182f, 0x11837); (0x11839, 0x1183a); (0x1193b, 0x1193c); (0x1193e, 0x1193e); (0x11943, 0x11943);
   (0x119d4, 0x119d7); (0x119da, 0x119db); (0x119e0, 0x119e0); (0x11a01, 0x11a0a); (0x11a33, 0x11a38);
   (0x11a3b, 0x11a3e); (0x11a47, 0x11a47); (0x11a51, 0x11a56); (0x11a59, 0x11a5b); (0x11a8a, 0x11a96);
   (0x11a98, 0x11a99); (0x11c30, 0x11c36); (0x11c38, 0x11c3d); (0x11c3f, 0x11c3f); (0x11c92, 0x11ca7);
   (0x11caa, 0x11cb0); (0x11cb2, 0x11cb3); (0x11cb5, 0x11cb6); (0x11d31, 0x11d36); (0x11d3a, 0x11d3a);
   (0x11d3c, 0x11d3d); (0x11d3f, 0x11d45); (0x11d47, 0x11d47); (0x11d90, 0x11d91); (0x11d95, 0x11d95);
   (0x11d97, 0x11d97); (0x11ef3, 0x11ef4); (0x13430, 0x13438); (0x16af0, 0x16af4); (0x16b30, 0x16b36);
   (0x16b40, 0x16b43); (0x16f4f, 0x16f4f); (0x16f8f, 0x16f9f); (0x16fe0, 0x16fe1); (0x16fe3, 0x16fe4);
   (0x1aff0, 0x1aff3); (0x1aff5, 0x1affb); (0x1affd, 0x1affe); (0x1bc9d, 0x1bc9e); (0x1bca0, 0x1bca3);
   (0x1cf00, 0x1cf2d); (0x1cf30, 0x1cf46); (0x1d167, 0x1d169); (0x1d173, 0x1d182); (0x1d185, 0x1d18b);
   (0x1d1aa, 0x1d1ad); (0x1d242, 0x1d244); (0x1da00, 0x1da36); (0x1da3b, 0x1da6c); (0x1da75, 0x1da75);
   (0x1da84, 0x1da84); (0x1da9b, 0x1da9f); (0x1daa1, 0x1daaf); (0x1e000, 0x1e006); (0x1e008, 0x1e018);
   (0x1e01b, 0x1e021); (0x1e023, 0x1e024); (0x1e026, 0x1e02a); (0x1e130, 0x1e13d); (0x1e2ae, 0x1e2ae);
   (0x1e2ec, 0x1e2ef); (0x1e8d0, 0x1e8d6); (0x1e944, 0x1e94b); (0x1f3fb, 0x1f3ff); (0xe0001, 0xe0001);
   (0xe0020, 0xe007f); (0xe0100, 0xe01ef)
  ]%N.

Definition in_ranges (ranges : list (N * N)) (c : N) : bool :=
  existsb (fun r => (fst r <=? c) && (c <=? snd r))%N ranges.

Definition is_cased (c : N) : bool := in_ranges cased_ranges c.
Definition is_case_ignorable (c : N) : bool := in_ranges case_ignorable_ranges c.

(** The lower case of a character, out of context: one character, or two
    for U+0130. *)
Definition to_lower_full (c : N) : list N :=
  if (c =? 0x130)%N then [0x69; 0x307]%N
  else
    match
      find (fun r : N * N * N * N =>
              let '(first, last, step, _) := r in
              (first <=? c) && (c <=? last) && ((c - first) mod step =? 0))%N
        lower_ranges
    with
    | Some (first, _, _, target) => [(target + (c - first))%N]
    | None => [c]
    end.

Fixpoint skip_case_ignorable (l : list N) : list N :=
  match l with
  | c :: r => if is_case_ignorable c then skip_case_ignorable r else l
  | [] => []
  end.

(** The lower case of U+03A3: the final sigma U+03C2 after a cased
    character and not before one, characters that are case-ignorable left
    aside; U+03C3 otherwise.  [before] is what precedes, last first. *)
Definition capital_sigma (before after : list N) : N :=
  let preceded :=
    match skip_case_ignorable before with
    | c :: _ => is_cased c
    | [] => false
    end in
  let followed :=
    match skip_case_ignorable after with
    | c :: _ => is_cased c
    | [] => false
    end in
  if preceded && negb followed then 0x3C2%N else 0x3C3%N.

Fixpoint lower_from (before : list N) (l : list N) : list N :=
  match l with
  | [] => []
  | c :: rest =>
      (if (c =? 0x3A3)%N then [capital_sigma before rest] else to_lower_full c)
        ++ lower_from (c :: before) rest
  end.

(** [s.lower()] *)
Definition lower (s : str) : str := utf8_encode (lower_from [] (codepoints s)).

(** ** Lines *)

(** ["\n".join(l)] *)
Definition join_lines (l : list str) : str := String.concat nl l.

(** Iterating a file opened in binary mode: the lines, each with its
    terminating LF when it has one. *)
Fixpoint readlines_from (cur : string) (s : string) : list bytes :=
  match s with
  | EmptyString => if is_empty cur then [] else [cur]
  | String c r =>
      if Ascii.eqb c LF then (cur ++ nl)%string :: readlines_from EmptyString r
      else readlines_from (cur ++ String c EmptyString)%string r
  end.

Definition readlines (content : bytes) : list bytes :=
  readlines_from EmptyString content.

(** ** The block tokenizer: [extract_blocks] *)

(** The list [[lineno, "", text, []]] that [extract_blocks] yields, in the
    shape Babel expects of an extraction method:
    (lineno, funcname, message, comments). *)
Record Token := mkToken {
  tok_lineno : nat;
  tok_funcname : str;
  tok_message : str;
  tok_comments : list str
}.

Definition is_blank_line (text : bytes) : bool :=
  is_empty (strip bytes_isspace text).

(** The body of the [for] loop, from the line of index [idx] of [enumerate]
    on.  [token] is the start line held by the Python variable [token]
    ([None] when it is [None]); [messages] is the accumulator. *)
(** What a generator gives: the values it yields, and the exception that
    ends it, if one does. *)
Definition yield {A} (x : A) (next : list A * option exn)
  : list A * option exn :=
  (x :: fst next, snd next).

Fixpoint extract_blocks_loop (idx : nat) (token : option nat)
    (messages : list str) (fileobj : list bytes) : list Token * option exn :=
  match fileobj with
  | [] =>
      match token, messages with
      | Some start, _ :: _ => ([mkToken start "" (join_lines messages) []], None)
      | _, _ => ([], None)
      end
  | text :: rest =>
      let lineno := idx + 1 in
      let '(token, messages) :=
        match token with
        | None => (lineno, @nil str)
        | Some start => (start, messages)
        end in
      if negb (is_blank_line text) then
        match decode_utf8 text with
        | inl e => ([], Some e)
        | inr s =>
            extract_blocks_loop (S idx) (Some token)
              (messages ++ [str_rstrip s]) rest
        end
      else
        match messages with
        | _ :: _ =>
            yield (mkToken token "" (join_lines messages) [])
              (extract_blocks_loop (S idx) None [] rest)
        | [] => extract_blocks_loop (S idx) None [] rest
        end
  end.

Definition extract_blocks (fileobj : list bytes) : list Token * option exn :=
  extract_blocks_loop 0 None [] fileobj.

(** ** Python dictionaries and Babel's helpers *)

Section Dict.
Context {K V : Type} (eqb : K -> K -> bool).

Fixpoint dict_get (d : list (K * V)) (k : K) : option V :=
  match d with
  | [] => None
  | (k', v) :: r => if eqb k k' then Some v else dict_get r k
  end.

(** [d[k] = v]: an existing key keeps its place, a new one goes last. *)
Fixpoint dict_set (d : list (K * V)) (k : K) (v : V) : list (K * V) :=
  match d with
  | [] => [(k, v)]
  | (k', v') :: r =>
      if eqb k k' then (k', v) :: r else (k', v') :: dict_set r k v
  end.

Fixpoint dict_del (d : list (K * V)) (k : K) : list (K * V) :=
  match d with
  | [] => []
  | (k', v') :: r => if eqb k k' then r else (k', v') :: dict_del r k
  end.

Definition dict_mem (d : list (K * V)) (k : K) : bool :=
  match dict_get d k with Some _ => true | None => false end.
End Dict.

Section Distinct.
Context {A : Type} (eqb : A -> A -> bool).

Fixpoint distinct_from (seen : list A) (l : list A) : list A :=
  match l with
  | [] => []
  | x :: r =>
      if existsb (eqb x) seen then distinct_from seen r
      else x :: distinct_from (x :: seen) r
  end.

(** [babel.util.distinct]: the items in order, each at its first
    occurrence only. *)
Definition distinct (l : list A) : list A := distinct_from [] l.
End Distinct.

(** ** Babel's catalog model: [Message] and [Catalog] *)

(** A message id is a [str], or the pair (singular, plural) of a message
    with plural forms. *)
Inductive msgid :=
| Singular (s : str)
| Plural (singular plural : str).

(** A message string is [None] (a message added without translation), a
    [str], or the tuple of its plural forms. *)
Inductive msgstr :=
| SNone
| SStr (s : str)
| STuple (forms : list (option str)).

Definition location := (str * nat)%type.

Record Message := mkMessage {
  m_id : msgid;
  m_string : msgstr;
  m_locations : list location;
  m_fuzzy : bool;
  m_auto_comments : list str;
  m_user_comments : list str;
  m_previous_id : list str;
  m_context : option str
}.

Definition option_eqb {A} (eqb : A -> A -> bool) (x y : option A) : bool :=
  match x, y with
  | Some a, Some b => eqb a b
  | None, None => true
  | _, _ => false
  end.

Definition key_eqb (k1 k2 : key) : bool :=
  String.eqb (fst k1) (fst k2) && option_eqb String.eqb (snd k1) (snd k2).

Definition location_eqb (l1 l2 : location) : bool :=
  String.eqb (fst l1) (fst l2) && Nat.eqb (snd l1) (snd l2).

Fixpoint list_eqb {A} (eqb : A -> A -> bool) (l1 l2 : list A) : bool :=
  match l1, l2 with
  | [], [] => true
  | x :: r1, y :: r2 => eqb x y && list_eqb eqb r1 r2
  | _, _ => false
  end.

(** Python's [==] on message strings. *)
Definition msgstr_eqb (a b : msgstr) : bool :=
  match a, b with
  | SNone, SNone => true
  | SStr s, SStr t => String.eqb s t
  | STuple l, STuple l' => list_eqb (option_eqb String.eqb) l l'
  | _, _ => false
  end.

(** Python's truth value of a message string and of a message id. *)
Definition msgstr_truthy (s : msgstr) : bool :=
  match s with
  | SNone => false
  | SStr s => negb (is_empty s)
  | STuple l => match l with [] => false | _ => true end
  end.

Definition msgid_truthy (i : msgid) : bool :=
  match i with
  | Singular s => negb (is_empty s)
  | Plural _ _ => true
  end.

Definition id_text (i : msgid) : str :=
  match i with
  | Singular s => s
  | Plural s _ => s
  end.

(** [Message.pluralizable] *)
Definition pluralizable (m : Message) : bool :=
  match m_id m with Plural _ _ => true | Singular _ => false end.

(** [Message.__init__] *)
Definition Message_init (id : msgid) (string : msgstr)
    (locations : list location) (fuzzy : bool) (auto_comments : list str)
    (user_comments : list str) (previous_id : list str)
    (context : option str) : Message :=
  let string :=
    match id with
    | Plural _ _ =>
        if negb (msgstr_truthy string) then STuple [Some ""; Some ""] else string
    | Singular _ => string
    end in
  mkMessage id string (distinct location_eqb locations) fuzzy
    (distinct String.eqb auto_comments) (distinct String.eqb user_comments)
    previous_id context.

Record Catalog := mkCatalog {
  messages : list (key * Message);
  obsolete : list (key * Message);
  num_plurals : nat;
  locale_identifier : option str
}.

(** [Catalog._key_for] *)
Definition key_for (id : msgid) (context : option str) : key :=
  (id_text id, context).

Definition with_messages (c : Catalog) (ms : list (key * Message)) : Catalog :=
  mkCatalog ms (obsolete c) (num_plurals c) (locale_identifier c).

(** [Catalog.__setitem__].  A message whose key is already present is folded
    into the stored one; the message with the empty id is the header, which
    is kept outside [_messages].  Babel asserts, before it stores a new
    message, that a plural id comes with a tuple of strings: the messages
    this script stores have that shape ([Message_init] and [merge_shape]
    make it, [read_po] reads it), and the assertion is left out. *)
Definition setitem (c : Catalog) (id : msgid) (message : Message) : Catalog :=
  let k := key_for id (m_context message) in
  match dict_get key_eqb (messages c) k with
  | Some current =>
      let adds_plural := pluralizable message && negb (pluralizable current) in
      let current' :=
        mkMessage
          (if adds_plural then m_id message else m_id current)
          (if adds_plural then m_string message else m_string current)
          (distinct location_eqb (m_locations current ++ m_locations message))
          (m_fuzzy current || m_fuzzy message)
          (distinct String.eqb (m_auto_comments current ++ m_auto_comments message))
          (distinct String.eqb (m_user_comments current ++ m_user_comments message))
          (m_previous_id current)
          (m_context current) in
      with_messages c (dict_set key_eqb (messages c) k current')
  | None =>
      match id with
      | Singular EmptyString => c
      | _ => with_messages c (dict_set key_eqb (messages c) k message)
      end
  end.

(** [Catalog.add] *)
Definition add (c : Catalog) (id : msgid) (string : msgstr)
    (locations : list location) (auto_comments : list str)
    (context : option str) : Catalog :=
  setitem c id (Message_init id string locations false auto_comments [] [] context).

(** A [Catalog] made from [CATALOG_OPTIONS], with or without a locale: no
    message yet.
    Two plural forms is Babel's default when the locale does not say. *)
Definition new_catalog (locale : option str) (nplurals : nat) : Catalog :=
  mkCatalog [] [] nplurals locale.

(** ** The extraction engine: [extract_from_file] and [extract] *)

(** One result of [extract_from_file]: (lineno, message, comments, context). *)
Definition extracted := (nat * str * list str * option str)%type.

(** Babel's [extract_from_file], for a method that is a callable and the
    default keywords.  A token has the empty function name, so its spec is
    [(1,)]: the message is the token's text, there is no context, and a
    token whose text is empty is dropped with a warning (the empty msgid is
    reserved).  The results are put in a list before they are returned: an
    exception of the method leaves none. *)
Definition extract_from_file
    (method : list bytes -> list Token * option exn) (content : bytes)
  : exn + list extracted :=
  match method (readlines content) with
  | (_, Some e) => inl e
  | (tokens, None) =>
      inr (flat_map
             (fun t =>
                if is_empty (tok_message t) then []
                else [(tok_lineno t, tok_message t, tok_comments t, @None str)])
             tokens)
  end.

(** A document tree: the files [(ROOT / "en-US").rglob("*.md")] visits, in
    the order it visits them, each as its path relative to [ROOT] and its
    content. *)
Definition tree := list (str * bytes).

(** The body of the loop over the files, for the file [f]. *)
Definition extract_file (template : Catalog) (f : str * bytes)
  : exn + Catalog :=
  match extract_from_file extract_blocks (snd f) with
  | inl e => inl e
  | inr results =>
      inr (fold_left
             (fun template (r : extracted) =>
                let '(lineno, message, comments, context) := r in
                add template (Singular message) SNone [(fst f, lineno)]
                  comments context)
             results template)
  end.

Fixpoint extract_files (template : Catalog) (t : tree) : exn + Catalog :=
  match t with
  | [] => inr template
  | f :: rest =>
      match extract_file template f with
      | inl e => inl e
      | inr template' => extract_files template' rest
      end
  end.

(** [extract]: the template that is then written to [messages.pot], or
    the exception that ends the run before anything is written. *)
Definition extract (t : tree) : exn + Catalog :=
  extract_files (new_catalog None 2) t.

(** The [float] of an [int], for the counts of messages and of characters
    (exact below 2^53). *)
Definition float_of_nat (n : nat) : float :=
  PrimFloat.of_uint63 (Uint63.of_Z (Z.of_nat n)).

(** ** difflib: [SequenceMatcher] with no junk *)

Module difflib.

(** A [SequenceMatcher] as Babel makes it, [SequenceMatcher(autojunk=False)]:
    there is no junk function and the elements that occur often are not
    set aside, so every element of [b] has its entry in [b2j].  The
    sequences are [str]s: their elements are characters. *)
Definition elt (l : list N) (i : nat) : N := nth i l 0%N.

Definition Match := (nat * nat * nat)%type.

(** The row [newj2len] of index [i], from the row [j2len] before it: at
    [j], the length of the match that ends at [a[i]], [b[j]]; 0 where the
    dictionary has no entry. *)
Definition newj2len (a b : list N) (blo bhi : nat) (i : nat)
    (j2len : list nat) : list nat :=
  map
    (fun j =>
       if (blo <=? j) && (j <? bhi) && N.eqb (elt a i) (elt b j)
       then (match j with 0 => 0 | S j' => nth j' j2len 0 end) + 1
       else 0)
    (seq 0 (List.length b)).

Definition scan_row (i : nat) (row : list nat) (best : Match) : Match :=
  fold_left
    (fun (best : Match) j =>
       let k := nth j row 0 in
       if snd best <? k then (i + 1 - k, j + 1 - k, k) else best)
    (seq 0 (List.length row)) best.

Fixpoint extend_left (fuel : nat) (a b : list N) (alo blo : nat)
    (best : Match) : Match :=
  let '(besti, bestj, bestsize) := best in
  match fuel with
  | 0 => best
  | S fuel' =>
      if (alo <? besti) && (blo <? bestj)
         && N.eqb (elt a (besti - 1)) (elt b (bestj - 1))
      then extend_left fuel' a b alo blo (besti - 1, bestj - 1, bestsize + 1)
      else best
  end.

Fixpoint extend_right (fuel : nat) (a b : list N) (ahi bhi : nat)
    (best : Match) : Match :=
  let '(besti, bestj, bestsize) := best in
  match fuel with
  | 0 => best
  | S fuel' =>
      if (besti + bestsize <? ahi) && (bestj + bestsize <? bhi)
         && N.eqb (elt a (besti + bestsize)) (elt b (bestj + bestsize))
      then extend_right fuel' a b ahi bhi (besti, bestj, bestsize + 1)
      else best
  end.

(** [find_longest_match(alo, ahi, blo, bhi)].  The junk set is empty, so
    of the four extension loops only the two over non-junk elements can
    run; each runs at most [len(a)] times. *)
Definition find_longest_match (a b : list N) (alo ahi blo bhi : nat)
  : Match :=
  let '(_, best) :=
    fold_left
      (fun (st : list nat * Match) i =>
         let row := newj2len a b blo bhi i (fst st) in
         (row, scan_row i row (snd st)))
      (seq alo (ahi - alo))
      (repeat 0 (List.length b), (alo, blo, 0)) in
  extend_right (List.length a) a b ahi bhi
    (extend_left (List.length a) a b alo blo best).

(** The sum of the sizes of the blocks that [get_matching_blocks] finds.
    Its work queue is run here as the recursion it stands for; a range
    that is looked at is not empty and shrinks at every level, which
    bounds the depth by [len(a)]. *)
Fixpoint matches_in (depth : nat) (a b : list N) (alo ahi blo bhi : nat)
  : nat :=
  match depth with
  | 0 => 0
  | S depth' =>
      let '(i, j, k) := find_longest_match a b alo ahi blo bhi in
      if k =? 0 then 0
      else
        k
        + (if (alo <? i) && (blo <? j)
           then matches_in depth' a b alo i blo j else 0)
        + (if (i + k <? ahi) && (j + k <? bhi)
           then matches_in depth' a b (i + k) ahi (j + k) bhi else 0)
  end.

Definition matches (a b : list N) : nat :=
  matches_in (S (List.length a)) a b 0 (List.length a) 0 (List.length b).

(** [_calculate_ratio] *)
Definition calculate_ratio (matches length : nat) : float :=
  match length with
  | 0 => 1%float
  | _ => (2 * float_of_nat matches / float_of_nat length)%float
  end.

Definition ratio (a b : list N) : float :=
  calculate_ratio (matches a b) (List.length a + List.length b).

Fixpoint remove_first (c : N) (l : list N) : option (list N) :=
  match l with
  | [] => None
  | x :: r =>
      if N.eqb c x then Some r
      else match remove_first c r with
           | Some r' => Some (x :: r')
           | None => None
           end
  end.

(** The count of [quick_ratio]: the elements of [a], each matched with an
    occurrence of its own in [b]. *)
Fixpoint quick_matches (a avail : list N) : nat :=
  match a with
  | [] => 0
  | x :: r =>
      match remove_first x avail with
      | Some avail' => S (quick_matches r avail')
      | None => quick_matches r avail
      end
  end.

Definition quick_ratio (a b : list N) : float :=
  calculate_ratio (quick_matches a b) (List.length a + List.length b).

Definition real_quick_ratio (a b : list N) : float :=
  calculate_ratio (Nat.min (List.length a) (List.length b)) (List.length a + List.length b).

End difflib.

(** ** Babel's [get_close_matches] *)

(** Babel has its own copy of [get_close_matches], which differs
    from it by the matcher it makes, the one above.  [Catalog.update] calls
    it with [n = 1] and the default cutoff. *)
Definition cutoff : float := 0.6%float.

(** The three tests a possibility [x] goes through, in this order, for the
    word [word]: [x] is the first sequence of the matcher, [word] the
    second. *)
Definition close_enough (word x : str) : bool :=
  let a := codepoints x in
  let b := codepoints word in
  PrimFloat.leb cutoff (difflib.real_quick_ratio a b)
  && PrimFloat.leb cutoff (difflib.quick_ratio a b)
  && PrimFloat.leb cutoff (difflib.ratio a b).

(** [s.ratio()] for the possibility [x]. *)
Definition score (word x : str) : float :=
  difflib.ratio (codepoints x) (codepoints word).

(** The comparison of two [(score, x)] tuples by [>]. *)
Definition scored_gt (p q : float * str) : bool :=
  if PrimFloat.eqb (fst p) (fst q) then String.ltb (snd q) (snd p)
  else PrimFloat.ltb (fst q) (fst p).

(** [max(result)], as [nlargest(1, result)] takes it: an item takes the
    place of the best one so far when it is above it. *)
Definition largest (first : float * str) (others : list (float * str))
  : float * str :=
  fold_left (fun best item => if scored_gt item best then item else best)
    others first.

(** [get_close_matches(word, possibilities, 1)] *)
Definition get_close_matches (word : str) (possibilities : list str)
  : list str :=
  let result :=
    flat_map
      (fun x => if close_enough word x then [(score word x, x)] else [])
      possibilities in
  match result with
  | [] => []
  | first :: others => [snd (largest first others)]
  end.


(** ** The synchronizer: Babel's [Catalog.update] *)

(** [Catalog._to_fuzzy_match_key]: the id text alone, lowered and stripped. *)
Definition to_fuzzy_match_key (text : str) : str :=
  str_strip (lower text).

(** A key of [_messages] is false in Python only as the empty [str]. *)
Definition key_truthy (k : key) : bool :=
  match snd k with
  | Some _ => true
  | None => negb (is_empty (fst k))
  end.

(** The dictionary [fuzzy_candidates]: from the match key of each message
    that has a key and a string, to its id text and context. *)
Definition fuzzy_candidates (messages : list (key * Message))
  : list (str * key) :=
  fold_left
    (fun cands (km : key * Message) =>
       if key_truthy (fst km) && msgstr_truthy (m_string (snd km))
       then dict_set String.eqb cands (to_fuzzy_match_key (fst (fst km)))
              (fst (fst km), m_context (snd km))
       else cands)
    messages [].

(** The state of the loop of [Catalog.update]: the catalog being rebuilt,
    the old messages not met yet, and the old keys taken by a fuzzy match. *)
Record update_state := mkUpdate {
  u_self : Catalog;
  u_remaining : list (key * Message);
  u_fuzzy_matches : list key
}.

(** The shape of a merged string follows the template's id. *)
Definition merge_shape (num_plurals : nat) (id : msgid) (string : msgstr)
  : exn + (msgstr * bool) :=
  match id with
  | Plural _ _ =>
      match string with
      | STuple forms =>
          if negb (List.length forms =? num_plurals)
          then inr (STuple (firstn (List.length forms) forms), true)
          else inr (string, false)
      | SStr s => inr (STuple [Some s; Some ""], true)
      | SNone => inr (STuple [None; Some ""], true)
      end
  | Singular _ =>
      match string with
      | STuple [] => inl IndexError
      | STuple (Some s :: _) => inr (SStr s, true)
      | STuple (None :: _) => inr (SNone, true)
      | _ => inr (string, false)
      end
  end.

(** [_merge] gives the merged message the user comments of the old one.
    The releases of Babel differ where the old message has none: the
    merged message then has none either, or, in the later releases, keeps
    those of the template's message.  A run is given the release. *)
Inductive release :=
| OldUserComments
| OldUserCommentsIfAny.

(** The message [_merge] builds from the template's [message] and the old
    message [oldmsg]; [renamed] says that the old message had another key.
    It works on a clone of [message], which [Message.__init__] builds
    anew. *)
Definition merge_message (babel : release) (num_plurals : nat)
    (message oldmsg : Message) (renamed : bool) : exn + Message :=
  let previous_id :=
    if renamed then
      match m_id oldmsg with
      | Singular s => [s]
      | Plural s p => [s; p]
      end
    else m_previous_id message in
  match merge_shape num_plurals (m_id message) (m_string oldmsg) with
  | inl e => inl e
  | inr (string, reshaped) =>
      inr (mkMessage (m_id message) string
             (distinct location_eqb (m_locations message))
             (m_fuzzy message || m_fuzzy oldmsg || renamed || reshaped)
             (distinct String.eqb (m_auto_comments message))
             (match babel, m_user_comments oldmsg with
              | OldUserCommentsIfAny, [] =>
                  distinct String.eqb (m_user_comments message)
              | _, _ => distinct String.eqb (m_user_comments oldmsg)
              end)
             previous_id (m_context message))
  end.

(** The inner function [_merge(message, oldkey, newkey)]. *)
Definition merge (babel : release) (messages : list (key * Message))
    (st : update_state) (message : Message) (oldkey newkey : key)
  : exn + update_state :=
  let renamed := negb (key_eqb oldkey newkey) in
  let found :=
    if renamed then dict_get key_eqb messages oldkey
    else dict_get key_eqb (u_remaining st) oldkey in
  match found with
  | None => inl AssertionError
  | Some oldmsg =>
      match merge_message babel (num_plurals (u_self st)) message oldmsg renamed with
      | inl e => inl e
      | inr message' =>
          inr (mkUpdate
                 (setitem (u_self st) (m_id message') message')
                 (if renamed then u_remaining st
                  else dict_del key_eqb (u_remaining st) oldkey)
                 (if renamed then oldkey :: u_fuzzy_matches st
                  else u_fuzzy_matches st))
      end
  end.

(** One turn of [for message in template]. *)
Definition update_step (babel : release) (messages : list (key * Message))
    (candidates : list (str * key)) (st : update_state) (message : Message)
  : exn + update_state :=
  if msgid_truthy (m_id message) then
    let k := key_for (m_id message) (m_context message) in
    if dict_mem key_eqb messages k then merge babel messages st message k k
    else
      match get_close_matches (to_fuzzy_match_key (fst k))
              (map fst candidates) with
      | modified_key :: _ =>
          match dict_get String.eqb candidates modified_key with
          | Some newkey => merge babel messages st message newkey k
          | None => inl (KeyError (modified_key, None))
          end
      | [] =>
          inr (mkUpdate (setitem (u_self st) (m_id message) message)
                 (u_remaining st) (u_fuzzy_matches st))
      end
  else inr st.

Fixpoint update_loop (babel : release) (messages : list (key * Message))
    (candidates : list (str * key)) (st : update_state)
    (template : list Message) : exn + update_state :=
  match template with
  | [] => inr st
  | message :: rest =>
      match update_step babel messages candidates st message with
      | inl e => inl e
      | inr st' => update_loop babel messages candidates st' rest
      end
  end.

(** What is left of the old messages goes to [obsolete], but for those a
    fuzzy match has reused. *)
Definition mark_obsolete (st : update_state) : Catalog :=
  let c := u_self st in
  mkCatalog (messages c)
    (fold_left
       (fun obs (km : key * Message) =>
          if existsb (key_eqb (fst km)) (u_fuzzy_matches st) then obs
          else dict_set key_eqb obs (fst km) (snd km))
       (u_remaining st) (obsolete c))
    (num_plurals c) (locale_identifier c).

(** [Catalog.update(template)], with fuzzy matching on as it is by default. *)
Definition Catalog_update (babel : release) (self template : Catalog)
  : exn + Catalog :=
  let old := messages self in
  match update_loop babel old (fuzzy_candidates old)
          (mkUpdate (with_messages self []) old [])
          (map snd (messages template)) with
  | inl e => inl e
  | inr st => inr (mark_obsolete st)
  end.

(** ** The regenerator: [po2text] *)

Fixpoint split_on (sep : ascii) (cur : string) (s : string) : list string :=
  match s with
  | EmptyString => [cur]
  | String c r =>
      if Ascii.eqb c sep then cur :: split_on sep EmptyString r
      else split_on sep (cur ++ String c EmptyString)%string r
  end.

(** [Path(p).name] on a POSIX path: the last component, where empty
    components and [.] do not count; the empty string when there is none. *)
Definition path_name (p : str) : str :=
  last
    (filter (fun c => negb (is_empty c) && negb (String.eqb c "."))
       (split_on "/"%char EmptyString p))
    EmptyString.

(** The text chosen for a message: [m.string], or [m.id] when the message
    is fuzzy or its string is blank.  The value is a [str] ([Singular]) or,
    when the id of a plural message is taken, a tuple.  Only a [str] has
    [strip]. *)
Definition choose_msg (m : Message) : exn + msgid :=
  if m_fuzzy m then inr (m_id m)
  else
    match m_string m with
    | SStr msg =>
        if is_empty (str_strip msg) then inr (m_id m)
        else inr (Singular msg)
    | SNone | STuple _ => inl AttributeError
    end.

Definition lines_of_file := list (nat * msgid).

(** [files.setdefault(name, []); ...; files[name].append(v)] *)
Definition files_append (files : list (str * lines_of_file)) (name : str)
    (v : nat * msgid) : list (str * lines_of_file) :=
  match dict_get String.eqb files name with
  | Some l => dict_set String.eqb files name (l ++ [v])
  | None => dict_set String.eqb files name [v]
  end.

(** The loop over the locations of one message. *)
Fixpoint collect_locations (m : Message) (locs : list location)
    (files : list (str * lines_of_file)) : exn + list (str * lines_of_file) :=
  match locs with
  | [] => inr files
  | x :: r =>
      let name := path_name (fst x) in
      match choose_msg m with
      | inl e => inl e
      | inr msg => collect_locations m r (files_append files name (snd x, msg))
      end
  end.

(** The loop over [catalog._messages.values()]. *)
Fixpoint collect_messages (ms : list (key * Message))
    (files : list (str * lines_of_file)) : exn + list (str * lines_of_file) :=
  match ms with
  | [] => inr files
  | (_, m) :: r =>
      match collect_locations m (m_locations m) files with
      | inl e => inl e
      | inr files' => collect_messages r files'
      end
  end.

(** [sorted(l, key=itemgetter(0))]: stable, ascending on the line number. *)
Fixpoint insert_by_line (x : nat * msgid) (l : lines_of_file) : lines_of_file :=
  match l with
  | [] => [x]
  | y :: r => if fst x <=? fst y then x :: y :: r else y :: insert_by_line x r
  end.

Definition sorted_by_line (l : lines_of_file) : lines_of_file :=
  fold_right insert_by_line [] l.

(** The groups [files] once filled and sorted: what the writing loop runs
    over. *)
Definition po2text_files (catalog : Catalog)
  : exn + list (str * lines_of_file) :=
  match collect_messages (messages catalog) [] with
  | inl e => inl e
  | inr files => inr (map (fun kv => (fst kv, sorted_by_line (snd kv))) files)
  end.

(** Writing one file: each text, then two newlines, in UTF-8.  A tuple
    cannot be written; what was written before it stays. *)
Fixpoint write_messages (fp : str) (msgs : lines_of_file) : str * option exn :=
  match msgs with
  | [] => (fp, None)
  | (_, Singular text) :: r => write_messages (fp ++ text ++ nl ++ nl)%string r
  | (_, Plural _ _) :: _ => (fp, Some TypeError)
  end.

(** The writing loop.  A destination is [destdir / k]; it cannot be opened
    for writing when [k] names the directory itself or its parent. *)
Fixpoint write_files (files : list (str * lines_of_file))
  : list (str * str) * option exn :=
  match files with
  | [] => ([], None)
  | (k, msgs) :: r =>
      if is_empty k || String.eqb k ".." then ([], Some IsADirectoryError)
      else
        match write_messages EmptyString msgs with
        | (fp, Some e) => ([(k, fp)], Some e)
        | (fp, None) =>
            let '(written, e) := write_files r in ((k, fp) :: written, e)
        end
  end.

(** [po2text]: the files written under [destdir], by name and content, in
    the order they are written and yielded, and the exception that ended
    the run, if any. *)
Definition po2text (catalog : Catalog) : list (str * str) * option exn :=
  match po2text_files catalog with
  | inl e => ([], Some e)
  | inr files => write_files files
  end.

(** ** The environment of a run *)

(** What [po_file.exists()], [open] and [read_po] make of
    [p / "messages.po"]: no file, a catalog, or an exception (the file
    cannot be opened, its bytes cannot be decoded). *)
Inductive po_file :=
| Absent
| Readable (catalog : Catalog)
| Unreadable (e : exn).

(** A directory of [translations]: its name, its catalog file, the number
    of plural forms Babel knows for its name, and the exception, if any,
    that opening the catalog file for writing meets. *)
Record locale_dir := mkDir {
  ld_name : str;
  ld_po : po_file;
  ld_plurals : nat;
  ld_write : option exn
}.

Inductive report :=
| PoWritten (locale : str)
| Skipped (code : str) (nb_translated total_strings : nat) (percent : Z)
| Generated (code : str) (nb_translated total_strings : nat) (percent : Z)
    (destdir : str).

(** What a run leaves behind, in order. *)
Inductive event :=
| WritePo (locale : str) (catalog : Catalog)
| WriteFile (destdir name content : str)
| Print (line : report).

(** A [for] loop whose body can raise: the events of the turns made, and
    the exception that ended the loop, if any. *)
Fixpoint for_each {X : Type} (body : X -> list event * option exn)
    (xs : list X) : list event * option exn :=
  match xs with
  | [] => ([], None)
  | x :: rest =>
      match body x with
      | (evs, Some e) => (evs, Some e)
      | (evs, None) =>
          let '(evs', r) := for_each body rest in (evs ++ evs', r)
      end
  end.

(** The exit status of the interpreter: 1 after an uncaught exception. *)
Definition exit_status (run : list event * option exn) : nat :=
  match snd run with
  | None => 0
  | Some _ => 1
  end.

(** ** [update] *)

(** The body of the loop of [update], for the directory [p]. *)
Definition update_locale (babel : release) (template : Catalog)
    (p : locale_dir) : list event * option exn :=
  let catalog :=
    match ld_po p with
    | Readable catalog => inr catalog
    | Unreadable e => inl e
    | Absent => inr (new_catalog (Some (ld_name p)) (ld_plurals p))
    end in
  match catalog with
  | inl e => ([], Some e)
  | inr catalog =>
      match Catalog_update babel catalog template with
      | inl e => ([], Some e)
      | inr catalog' =>
          match ld_write p with
          | Some e => ([], Some e)
          | None =>
              ([WritePo (ld_name p) catalog'; Print (PoWritten (ld_name p))], None)
          end
      end
  end.

(** [update]: [template] is the catalog read from [messages.pot], [dirs]
    the directories of [translations] in the order [iterdir] gives them. *)
Definition update (babel : release) (template : Catalog)
    (dirs : list locale_dir) : list event * option exn :=
  for_each (update_locale babel template) dirs.

(** ** [generate] *)

Definition COMPLETION_CUTOFF : float := 0.90%float.

Definition round_half_even (num den : Z) : Z :=
  let q := (num / den)%Z in
  let r := (num mod den)%Z in
  if (2 * r <? den)%Z then q
  else if (den <? 2 * r)%Z then (q + 1)%Z
  else if Z.even q then q else (q + 1)%Z.

(** The integer nearest to [x * scale], ties to even, for a finite [x]. *)
Definition round_scaled (x : float) (scale : Z) : option Z :=
  match Prim2SF x with
  | S754_zero _ => Some 0%Z
  | S754_finite sign m e =>
      let n := (Zpos m * scale)%Z in
      let v :=
        if (0 <=? e)%Z then (n * 2 ^ e)%Z
        else round_half_even n (2 ^ (- e)) in
      Some (if sign then (- v)%Z else v)
  | _ => None
  end.

(** [round(x, 2)]: the float nearest to the decimal that has two digits
    after the point and is nearest to [x]. *)
Definition round2 (x : float) : float :=
  match round_scaled x 100 with
  | Some v =>
      let q := (PrimFloat.of_uint63 (Uint63.of_Z (Z.abs v)) / 100)%float in
      if (v <? 0)%Z then (- q)%float else q
  | None => x
  end.

(** [round(x)], for a finite [x]. *)
Definition round0 (x : float) : Z :=
  match round_scaled x 1 with
  | Some v => v
  | None => 0%Z
  end.

(** Whether [s.strip()] is the empty [str]. *)
Definition is_blank (s : str) : bool := is_empty (str_strip s).

(** The loop that counts the translated messages, from the count [nb]. *)
Fixpoint count_translated (template : Catalog) (items : list (key * Message))
    (nb_translated : nat) : exn + nat :=
  match items with
  | [] => inr nb_translated
  | (k, m) :: rest =>
      match dict_get key_eqb (messages template) k with
      | None => inl (KeyError k)
      | Some tm =>
          if m_fuzzy m then count_translated template rest nb_translated
          else if msgstr_eqb (m_string tm) (m_string m)
          then count_translated template rest nb_translated
          else
            match m_string m with
            | SStr s =>
                if is_blank s then count_translated template rest nb_translated
                else count_translated template rest (nb_translated + 1)
            | STuple forms =>
                if existsb (fun x => match x with None => true | Some _ => false end) forms
                then inl AttributeError
                else if existsb (fun x => match x with Some f => is_blank f | None => false end) forms
                then count_translated template rest nb_translated
                else count_translated template rest (nb_translated + 1)
            | SNone => count_translated template rest (nb_translated + 1)
            end
      end
  end.

Fixpoint replace_char (old new : ascii) (s : str) : str :=
  match s with
  | EmptyString => EmptyString
  | String c r => String (if Ascii.eqb c old then new else c) (replace_char old new r)
  end.

(** ["src/" + str(catalog.locale_identifier).replace("_", "-")], relative to
    [HERE]. *)
Definition destdir_of (catalog : Catalog) : str :=
  ("src/" ++ replace_char "_"%char "-"%char
     (match locale_identifier catalog with
      | Some l => l
      | None => "None"
      end))%string.

(** The body of the loop of [generate], for the file [code/messages.po]. *)
Definition generate_locale (template : Catalog) (total_strings : nat)
    (code : str) (po : po_file) : list event * option exn :=
  if String.eqb code "en_US" then ([], None)
  else
    match po with
    | Absent => ([], Some OSError)
    | Unreadable e => ([], Some e)
    | Readable catalog =>
        match count_translated template (messages catalog) 0 with
        | inl e => ([], Some e)
        | inr nb_translated =>
            match total_strings with
            | 0 => ([], Some ZeroDivisionError)
            | _ =>
                let pct := (float_of_nat nb_translated / float_of_nat total_strings)%float in
                let percent := round0 (pct * 100)%float in
                if PrimFloat.ltb (round2 pct) COMPLETION_CUTOFF then
                  ([Print (Skipped code nb_translated total_strings percent)], None)
                else
                  let destdir := destdir_of catalog in
                  let '(written, e) := po2text catalog in
                  let files := map (fun f => WriteFile destdir (fst f) (snd f)) written in
                  match e with
                  | Some e => (files, Some e)
                  | None =>
                      (files ++ [Print (Generated code nb_translated total_strings percent destdir)],
                       None)
                  end
            end
        end
    end.

Fixpoint insert_by_name (d : locale_dir) (l : list locale_dir) : list locale_dir :=
  match l with
  | [] => [d]
  | y :: r =>
      if String.leb (ld_name d) (ld_name y) then d :: y :: r
      else y :: insert_by_name d r
  end.

(** [sorted(translations.glob("*/messages.po"))]: the directories that hold
    a catalog file, by name. *)
Definition sorted_po_files (dirs : list locale_dir) : list locale_dir :=
  fold_right insert_by_name []
    (filter (fun d => match ld_po d with Absent => false | _ => true end) dirs).

(** [generate] *)
Definition generate (template : Catalog) (dirs : list locale_dir)
  : list event * option exn :=
  let total_strings := List.length (messages template) in
  for_each (fun d => generate_locale template total_strings (ld_name d) (ld_po d))
    (sorted_po_files dirs).

(** ** [check] *)

(** A checker of Babel: given the catalog and a message, the text of the
    [TranslationError] it raises, if it raises one.  Babel takes the
    checkers from the installed entry points: they are given to a run. *)
Definition checker := Catalog -> Message -> option str.

(** [Message.check]: the errors of the checkers, in their order. *)
Definition Message_check (checkers : list checker) (catalog : Catalog)
    (m : Message) : list str :=
  flat_map
    (fun ck => match ck catalog m with Some e => [e] | None => [] end)
    checkers.

(** [Catalog.check]: the messages that have errors, each with its errors. *)
Definition Catalog_check (checkers : list checker) (catalog : Catalog)
  : list (Message * list str) :=
  flat_map
    (fun km =>
       match Message_check checkers catalog (snd km) with
       | [] => []
       | errors => [(snd km, errors)]
       end)
    (messages catalog).

(** The lines [check] prints: [[OK] code], [[ERRORS] code], the line that
    names a message with errors, and the line of one error. *)
Inductive check_line :=
| CheckOK (code : str)
| CheckErrors (code : str)
| CheckMessage (m : Message)
| CheckError (x : str).

Definition check_report (code : str) (errors : list (Message * list str))
  : list check_line :=
  match errors with
  | [] => [CheckOK code]
  | _ =>
      CheckErrors code
        :: flat_map (fun me => CheckMessage (fst me) :: map CheckError (snd me))
             errors
  end.

(** The loop of [check] over the catalog files, from the value [has_errors]
    on: the lines printed, and the exception that ended the loop or the
    value of [has_errors] at its end. *)
Fixpoint check_loop (checkers : list checker) (po_files : list locale_dir)
    (has_errors : bool) : list check_line * (exn + bool) :=
  match po_files with
  | [] => ([], inr has_errors)
  | d :: rest =>
      if String.eqb (ld_name d) "en_US" then check_loop checkers rest has_errors
      else
        match ld_po d with
        | Absent => ([], inl OSError)
        | Unreadable e => ([], inl e)
        | Readable catalog =>
            let errors := Catalog_check checkers catalog in
            let has_errors :=
              match errors with [] => has_errors | _ => true end in
            let '(lines, r) := check_loop checkers rest has_errors in
            (check_report (ld_name d) errors ++ lines, r)
        end
  end.

(** [check]: [dirs] are the directories of [translations] in the order
    [glob] visits them; the result is the lines printed, and the exception
    that ended the run or the status given to [sys.exit]. *)
Definition check (checkers : list checker) (dirs : list locale_dir)
  : list check_line * (exn + nat) :=
  let '(lines, r) :=
    check_loop checkers
      (filter (fun d => match ld_po d with Absent => false | _ => true end) dirs)
      false in
  (lines,
   match r with
   | inl e => inl e
   | inr has_errors => inr (if has_errors then 1 else 0)
   end).

(** ** Vocabulary of the properties *)

(** A file that is text in UTF-8, as a whole. *)
Definition utf8_file (f : str * bytes) : Prop := valid_utf8 (snd f) = true.

(** The blocks extraction finds in a file; none when it raises. *)
Definition blocks_of (content : bytes) : list extracted :=
  match extract_from_file extract_blocks content with
  | inr results => results
  | inl _ => []
  end.

(** The blocks extraction meets in a tree, in visitation order, each with
    the path of its file. *)
Definition blocks (t : tree) : list (str * extracted) :=
  flat_map (fun f => map (pair (fst f)) (blocks_of (snd f))) t.

Definition block_text (b : str * extracted) : str :=
  let '(_, (_, message, _, _)) := b in message.

Definition block_location (b : str * extracted) : location :=
  let '(f, (lineno, _, _, _)) := b in (f, lineno).

(** The places where the text [text] is extracted from, in visitation
    order. *)
Definition occurrences (t : tree) (text : str) : list location :=
  map block_location (filter (fun b => String.eqb (block_text b) text) (blocks t)).

(** The number of entries of a catalog whose id text is [text]. *)
Definition entries_with_text (c : Catalog) (text : str) : nat :=
  List.length
    (filter (fun km => String.eqb (id_text (m_id (snd km))) text) (messages c)).

(** A tree where the text [y] is met in two files, and twice in the
    second. *)
Definition sample_tree : tree :=
  [("en-US/index.md", ("x" ++ nl ++ nl ++ "y" ++ nl)%string);
   ("en-US/guide/index.md", ("y" ++ nl ++ nl ++ "z" ++ nl ++ nl ++ "y" ++ nl)%string)].

(** The no-break space U+00A0 and the ideographic space U+3000. *)
Definition nbsp : str := utf8_of_codepoint 0xA0.
Definition ideographic_space : str := utf8_of_codepoint 0x3000.

(** A tree where [Hello] is met twice, once followed by a no-break
    space. *)
Definition nbsp_tree : tree :=
  [("en-US/index.md", ("Hello" ++ nbsp ++ nl ++ nl ++ "Hello" ++ nl)%string)].

(** A tree with a file that is not UTF-8: its second block has the byte
    0xFF. *)
Definition latin1_tree : tree :=
  [("en-US/index.md", ("x" ++ nl ++ nl ++ byte 0xFF ++ nl)%string);
   ("en-US/guide/index.md", ("y" ++ nl)%string)].

(** A message string as [read_po] builds it: a [str], or a tuple of [str]. *)
Definition po_string (s : msgstr) : bool :=
  match s with
  | SNone => false
  | SStr _ => true
  | STuple forms =>
      forallb (fun x => match x with Some _ => true | None => false end) forms
  end.

Definition po_strings (items : list (key * Message)) : Prop :=
  Forall (fun km => po_string (m_string (snd km)) = true) items.

(** The string, or every form of the tuple, is not empty once trimmed. *)
Definition nonblank (s : msgstr) : bool :=
  match s with
  | SNone => false
  | SStr s => negb (is_blank s)
  | STuple forms =>
      forallb (fun x => match x with Some f => negb (is_blank f) | None => false end)
        forms
  end.

(** An entry of a locale catalog counts as translated: it is not fuzzy, its
    string differs from the string of the template's entry, and is not
    blank. *)
Definition counts_as_translated (template : Catalog) (km : key * Message)
  : bool :=
  negb (m_fuzzy (snd km))
  && match dict_get key_eqb (messages template) (fst km) with
     | Some tm => negb (msgstr_eqb (m_string tm) (m_string (snd km)))
     | None => false
     end
  && nonblank (m_string (snd km)).

(** What [generate] does for a locale it lets through: the files of
    [po2text], then the summary line unless [po2text] raised. *)
Definition regenerated (code : str) (nb_translated total_strings : nat)
    (percent : Z) (catalog : Catalog) : list event * option exn :=
  let destdir := destdir_of catalog in
  (map (fun f => WriteFile destdir (fst f) (snd f)) (fst (po2text catalog))
     ++ match snd (po2text catalog) with
        | None => [Print (Generated code nb_translated total_strings percent destdir)]
        | Some _ => []
        end,
   snd (po2text catalog)).

(** A template of ten messages, and a locale catalog that translates nine
    of them and leaves the tenth empty. *)
Definition sample_texts : list str :=
  ["one"; "two"; "three"; "four"; "five"; "six"; "seven"; "eight"; "nine"; "ten"].

Definition entry_of (translate : str -> str) (text : str) : key * Message :=
  ((text, None),
   mkMessage (Singular text) (SStr (translate text)) [("en-US/index.md", 1)]
     false [] [] [] None).

Definition template_of_ten : Catalog :=
  mkCatalog (map (entry_of (fun _ => "")) sample_texts) [] 2 None.

Definition nine_of_ten : Catalog :=
  mkCatalog
    (map (entry_of (fun text => if String.eqb text "ten" then "" else ("<" ++ text ++ ">")%string))
       sample_texts)
    [] 2 (Some "fr").


(** A locale catalog with a message the template above does not have. *)
Definition stale_catalog : Catalog :=
  mkCatalog [entry_of (fun _ => "un") "one"; entry_of (fun _ => "onze") "eleven"]
    [] 2 (Some "fr").

(** A name [po2text] can open a file under: not the directory itself, not
    its parent. *)
Definition file_name_ok (k : str) : bool :=
  negb (is_empty k || String.eqb k "..").

(** A message without plural forms, as the tokenizer makes them and
    [read_po] reads them back: its id and its string are each a [str]. *)
Definition is_singular (m : Message) : bool :=
  match m_id m, m_string m with
  | Singular _, SStr _ => true
  | _, _ => false
  end.

(** A catalog [po2text] can write out: its messages are singular, and each
    of their locations names a file. *)
Definition regenerable (c : Catalog) : Prop :=
  forall k m,
    In (k, m) (messages c) ->
    is_singular m = true /\
    forall x, In x (m_locations m) -> file_name_ok (path_name (fst x)) = true.

(** The text to emit for a message: its translation when the message is
    not fuzzy and the translation is not blank, its id text otherwise. *)
Definition emitted_text (m : Message) : str :=
  match m_string m with
  | SStr s => if negb (m_fuzzy m) && negb (is_blank s) then s else id_text (m_id m)
  | _ => id_text (m_id m)
  end.

(** The content of a file: each text, followed by two newlines. *)
Fixpoint render (msgs : lines_of_file) : str :=
  match msgs with
  | [] => EmptyString
  | (_, v) :: r => (id_text v ++ nl ++ nl ++ render r)%string
  end.

Definition render_file (kv : str * lines_of_file) : str * str :=
  (fst kv, render (snd kv)).


(** One occurrence of a message: the name of its file, its line and its
    text. *)
Definition occurrence := (str * (nat * msgid))%type.

Definition occurrences_of (m : Message) : list occurrence :=
  map (fun x => (path_name (fst x), (snd x, Singular (emitted_text m))))
    (m_locations m).

Definition all_occurrences (ms : list (key * Message)) : list occurrence :=
  flat_map (fun km => occurrences_of (snd km)) ms.

(** The occurrences that go to the file [name], in order. *)
Definition group (name : str) (es : list occurrence) : lines_of_file :=
  map snd (filter (fun e => String.eqb (fst e) name) es).

Definition append_all (files : list (str * lines_of_file))
    (es : list occurrence) : list (str * lines_of_file) :=
  fold_left (fun fs e => files_append fs (fst e) (snd e)) es files.

Definition ascending (msgs : lines_of_file) : Prop :=
  Sorted (fun a b => fst a <= fst b) msgs.

(** An entry that translates an entry of the template: it has its id and
    its locations, is not fuzzy, and has a string that is not blank. *)
Definition translates (m tm : Message) : Prop :=
  m_id m = m_id tm /\
  m_locations m = m_locations tm /\
  m_fuzzy m = false /\
  exists s, m_string m = SStr s /\ is_blank s = false.

(** A catalog that goes with a template entry by entry: it has the keys of
    the template, each once, in whatever order, and each of its entries
    is to the entry the template has under its key as [R] says. *)
Definition entry_by_entry (R : Message -> Message -> Prop)
    (c template : Catalog) : Prop :=
  NoDup (map fst (messages c)) /\
  (forall k, In k (map fst (messages c)) <-> In k (map fst (messages template))) /\
  forall k m,
    In (k, m) (messages c) ->
    exists tm, dict_get key_eqb (messages template) k = Some tm /\ R m tm.

(** A catalog that translates a template in full. *)
Definition full_translation (c template : Catalog) : Prop :=
  entry_by_entry translates c template.

(** The string of the entry of a text, when it is a [str]. *)
Definition translation_of (c : Catalog) (text : str) : option str :=
  match dict_get key_eqb (messages c) (text, None) with
  | Some m => match m_string m with SStr s => Some s | _ => None end
  | None => None
  end.

(** A file with the block [a] at line 1 and the block [b] at line 3. *)
Definition two_blocks : bytes := ("a" ++ nl ++ nl ++ "b" ++ nl)%string.

Definition translated_entry (text translation : str) (locs : list location)
  : key * Message :=
  ((text, None),
   mkMessage (Singular text) (SStr translation) locs false [] [] [] None).

(** A translation of the template of [two_blocks], into [x] and [y]. *)
Definition xy_catalog : Catalog :=
  mkCatalog
    [translated_entry "a" "x" [("en-US/index.md", 1)];
     translated_entry "b" "y" [("en-US/index.md", 3)]]
    [] 2 (Some "fr").

(** The same translation, with the entries the other way round. *)
Definition yx_catalog : Catalog :=
  mkCatalog
    [translated_entry "b" "y" [("en-US/index.md", 3)];
     translated_entry "a" "x" [("en-US/index.md", 1)]]
    [] 2 (Some "fr").

(** A catalog for [two_blocks] with the entries the other way round, where
    the translation of [b] is an ideographic space. *)
Definition blank_yx_catalog : Catalog :=
  mkCatalog
    [translated_entry "b" ideographic_space [("en-US/index.md", 3)];
     translated_entry "a" "x" [("en-US/index.md", 1)]]
    [] 2 (Some "fr").

(** The template of [two_blocks], in the file [f]. *)
Definition two_blocks_template (f : str) : Catalog :=
  mkCatalog
    [(("a", None), mkMessage (Singular "a") SNone [(f, 1)] false [] [] [] None);
     (("b", None), mkMessage (Singular "b") SNone [(f, 3)] false [] [] [] None)]
    [] 2 None.

(** Two files of the same name in two directories, and a message of each. *)
Definition same_name_catalog : Catalog :=
  mkCatalog
    [translated_entry "x" "" [("en-US/install/index.md", 1)];
     translated_entry "y" "Y" [("en-US/usage/index.md", 1)]]
    [] 2 (Some "fr").

(** Two directories of [translations]: one whose catalog file is not text
    in its charset, so that [read_po] raises, one whose catalog file is
    sound. *)
Definition broken_dir : locale_dir :=
  mkDir "de" (Unreadable UnicodeDecodeError) 2 None.
Definition sound_dir : locale_dir := mkDir "fr" (Readable nine_of_ten) 2 None.

(** The key a message is stored under. *)
Definition msg_key (m : Message) : key := key_for (m_id m) (m_context m).

(** The id and the string of a message go together as Babel builds them:
    a [str] id with [None] or a [str], a plural id with a tuple of
    [num_plurals] strings. *)
Definition well_shaped (num_plurals : nat) (m : Message) : bool :=
  match m_id m, m_string m with
  | Singular _, SNone => true
  | Singular _, SStr _ => true
  | Plural _ _, STuple forms =>
      (List.length forms =? num_plurals)
      && negb (List.length forms =? 0)
      && forallb (fun x => match x with Some _ => true | None => false end) forms
  | _, _ => false
  end.

(** A catalog as [Catalog.__setitem__] and [read_po] build it: a message is
    stored under its own key, which no other message has; its id is not the
    empty one; it is well shaped; its locations and comments have no
    duplicates. *)
Definition catalog_wf (c : Catalog) : Prop :=
  NoDup (map fst (messages c)) /\
  forall k m,
    In (k, m) (messages c) ->
    k = msg_key m /\
    msgid_truthy (m_id m) = true /\
    well_shaped (num_plurals c) m = true /\
    NoDup (m_locations m) /\
    NoDup (m_auto_comments m).

(** An empty translation. *)
Definition msgstr_empty (s : msgstr) : bool :=
  match s with
  | SNone => true
  | SStr s => is_empty s
  | STuple forms =>
      forallb (fun x => match x with Some f => is_empty f | None => true end) forms
  end.

(** A template: a catalog whose messages are not fuzzy and not translated. *)
Definition template_catalog (t : Catalog) : Prop :=
  catalog_wf t /\
  forall k m,
    In (k, m) (messages t) ->
    m_fuzzy m = false /\ msgstr_empty (m_string m) = true.

(** A float that is a number, not a NaN. *)
Definition is_number (x : float) : Prop := Prim2SF x <> S754_nan.

(** The order of the [(score, x)] tuples: by score, then by [x]. *)
Definition compare_scored (p q : float * str) : comparison :=
  match SFcompare (Prim2SF (fst p)) (Prim2SF (fst q)) with
  | Some Eq => String.compare (snd p) (snd q)
  | Some c => c
  | None => Eq
  end.

(** The candidates of the fuzzy match for a key the catalog does not have. *)
Definition close_matches (self : Catalog) (k : key) : list str :=
  get_close_matches (to_fuzzy_match_key (fst k))
    (map fst (fuzzy_candidates (messages self))).

(** The entry [Catalog.update] makes for a message of the template: merged
    with the old message of the same key, or with the old message the fuzzy
    match picks, or the template's message as it is. *)
Definition synced_entry (babel : release) (self : Catalog) (message : Message)
  : exn + Message :=
  let k := msg_key message in
  match dict_get key_eqb (messages self) k with
  | Some oldmsg => merge_message babel (num_plurals self) message oldmsg false
  | None =>
      match close_matches self k with
      | modified_key :: _ =>
          match dict_get String.eqb (fuzzy_candidates (messages self)) modified_key with
          | Some oldkey =>
              match dict_get key_eqb (messages self) oldkey with
              | Some oldmsg => merge_message babel (num_plurals self) message oldmsg true
              | None => inl AssertionError
              end
          | None => inl (KeyError (modified_key, None))
          end
      | [] => inr message
      end
  end.

(** What the loop of [Catalog.update] has made of the messages [done] of
    the template: their entries, in order, each under its key; the old
    messages of the other keys are all still in [remaining]. *)
Definition sync_inv (babel : release) (self : Catalog) (done : list Message)
    (st : update_state) : Prop :=
  map fst (messages (u_self st)) = map msg_key done /\
  Forall2 (fun m km => synced_entry babel self m = inr (snd km))
    done (messages (u_self st)) /\
  (forall k, ~ In k (map msg_key done) ->
             dict_get key_eqb (u_remaining st) k = dict_get key_eqb (messages self) k) /\
  num_plurals (u_self st) = num_plurals self.


(** A locale catalog that translates [Hello world], and a template where
    the text has become [Hello world!]. *)
Definition hello_catalog : Catalog :=
  mkCatalog [translated_entry "Hello world" "Bonjour le monde" [("en-US/index.md", 1)]]
    [] 2 (Some "fr").

Definition hello_template : Catalog :=
  mkCatalog [translated_entry "Hello world!" "" [("en-US/index.md", 1)]] [] 2 None.


(** A template where the text is the same and has moved to line 7. *)
Definition moved_template : Catalog :=
  mkCatalog [translated_entry "Hello world" "" [("en-US/index.md", 7)]] [] 2 None.

(** A template with a text that is like nothing in [hello_catalog]. *)
Definition fresh_template : Catalog :=
  mkCatalog [translated_entry "Quit" "" [("en-US/index.md", 9)]] [] 2 None.

(** The input of the tokenizer example, and the two outputs. *)
Definition sample_input : bytes :=
  ("a" ++ nl ++ "b" ++ nl ++ nl ++ "c" ++ nl)%string.


(** The two lists of blocks at stake for it: the second block starts at
    line 4, the blank line being line 3. *)
Definition sample_blocks : list Token :=
  [mkToken 1 "" ("a" ++ nl ++ "b")%string []; mkToken 4 "" "c" []].

Definition sample_blocks_line_3 : list Token :=
  [mkToken 1 "" ("a" ++ nl ++ "b")%string []; mkToken 3 "" "c" []].

(** The state of the loop after the lines [pre]: either no block is open,
    and [pre] is empty or ends with a blank line, or a block is open since
    line [start], a line that is not blank, comes first or after a blank
    line, and whose text heads the accumulator. *)
Definition loop_state (pre : list bytes) (token : option nat)
    (messages : list str) : Prop :=
  match token with
  | None =>
      messages = [] /\
      (pre = [] \/ exists pre' b, pre = pre' ++ [b] /\ is_blank_line b = true)
  | Some start =>
      exists text more,
        1 <= start /\
        nth_error pre (start - 1) = Some text /\
        is_blank_line text = false /\
        (start = 1 \/
         exists prev, nth_error pre (start - 2) = Some prev /\
                      is_blank_line prev = true) /\
        decode_utf8 text = inr text /\
        messages = str_rstrip text :: more
  end.

(** What a yielded token says of the file: its line number is the number
    of a line that is not blank, that opens a run (the accumulator was
    empty), and whose text, decoded and without the blanks at its end, is
    the first of the block. *)
Definition starts_block (fileobj : list bytes) (tok : Token) : Prop :=
  exists text decoded more,
    1 <= tok_lineno tok /\
    nth_error fileobj (tok_lineno tok - 1) = Some text /\
    is_blank_line text = false /\
    (tok_lineno tok = 1 \/
     exists prev, nth_error fileobj (tok_lineno tok - 2) = Some prev /\
                  is_blank_line prev = true) /\
    decode_utf8 text = inr decoded /\
    tok_message tok = join_lines (str_rstrip decoded :: more).

Definition extracted_lineno (r : extracted) : nat :=
  let '(lineno, _, _, _) := r in lineno.

(** What extraction yields is a text that is not empty, without context. *)
Definition well_extracted (b : str * extracted) : Prop :=
  let '(_, (_, message, _, context)) := b in
  is_empty message = false /\ context = None.

(** [extract] adds the blocks of the tree one after the other. *)
Definition add_block (template : Catalog) (b : str * extracted) : Catalog :=
  let '(f, (lineno, message, comments, context)) := b in
  add template (Singular message) SNone [(f, lineno)] comments context.

Definition locations_of (text : str) (bs : list (str * extracted))
  : list location :=
  map block_location (filter (fun b => String.eqb (block_text b) text) bs).

(** An entry as extraction makes it: no translation, not fuzzy, no
    context, an id that is not empty, no place and no comment twice. *)
Definition plain_entry (m : Message) : Prop :=
  m_string m = SNone /\ m_fuzzy m = false /\ m_context m = None /\
  msgid_truthy (m_id m) = true /\
  NoDup (m_locations m) /\ NoDup (m_auto_comments m).

(** The catalog after the blocks [bs]: a text is a key exactly when it was
    met, and its entry then lists the places where it was, in order. *)
Definition extracted_so_far (c : Catalog) (bs : list (str * extracted)) : Prop :=
  (forall text,
     match dict_get key_eqb (messages c) (text, None) with
     | Some m =>
         m_id m = Singular text /\ m_locations m = locations_of text bs /\
         locations_of text bs <> []
     | None => locations_of text bs = []
     end) /\
  NoDup (map fst (messages c)) /\
  (forall k m, In (k, m) (messages c) ->
               k = (id_text (m_id m), None) /\ plain_entry m).

(** The files that [po2text] writes for a catalog. *)
Definition groups_of (c : Catalog) : list (str * lines_of_file) :=
  map (fun kv => (fst kv, sorted_by_line (snd kv)))
    (append_all [] (all_occurrences (messages c))).

(** A token of a later part of a file, that starts after line [n], seen
    from the whole file. *)
Definition shift_token (n : nat) (t : Token) : Token :=
  mkToken (n + tok_lineno t) (tok_funcname t) (tok_message t) (tok_comments t).

(** The blocks of a later part of a file, that starts after line [n]. *)
Definition shift_blocks (n : nat) (r : list Token * option exn)
  : list Token * option exn :=
  (map (shift_token n) (fst r), snd r).

(** One generator, then another, unless the first raises. *)
Definition then_blocks (r1 r2 : list Token * option exn)
  : list Token * option exn :=
  match snd r1 with
  | Some e => r1
  | None => (fst r1 ++ fst r2, snd r2)
  end.

(** The characters that are blank for [str.strip] and not for
    [bytes.strip]: the separators U+001C-U+001F, and the blank characters
    that are not ASCII. *)
Definition str_only_blanks : list N :=
  filter (fun n => negb ((n <? 0x80)%N && bytes_isspace (ascii_of_N n)))
    whitespace_codepoints.

(** Whether one of them is in the text [s], in UTF-8. *)
Fixpoint has_str_blank (s : string) : bool :=
  match s with
  | EmptyString => false
  | String c r =>
      existsb (fun n => String.prefix (utf8_of_codepoint n) s) str_only_blanks
      || has_str_blank r
  end.

(** Every character of [s] is blank. *)
Fixpoint all_space (sp : ascii -> bool) (s : string) : bool :=
  match s with
  | EmptyString => true
  | String c r => sp c && all_space sp r
  end.

(** A catalog with a message that has plural forms. *)
Definition plural_catalog : Catalog :=
  mkCatalog
    [translated_entry "a" "x" [("en-US/index.md", 1)];
     (("file", None),
      mkMessage (Plural "file" "files") (STuple [Some "fichier"; Some "fichiers"])
        [("en-US/index.md", 3)] false [] [] [] None)]
    [] 2 (Some "fr").

(** The test of the completion gate, on the two counts. *)
Definition gate_excludes (nb_translated total_strings : nat) : bool :=
  PrimFloat.ltb
    (round2 (float_of_nat nb_translated / float_of_nat total_strings)%float)
    COMPLETION_CUTOFF.

(** The gate leaves out the counts below 89.5%, and those only, for every
    total up to [bound]. *)
Definition gate_agrees (bound : nat) : bool :=
  forallb
    (fun total =>
       forallb
         (fun nb =>
            Bool.eqb (gate_excludes nb total)
              (200 * Z.of_nat nb <? 179 * Z.of_nat total)%Z)
         (seq 0 (S total)))
    (seq 1 bound).

(** A directory that is not [en_US]. *)
Definition not_en_US (d : locale_dir) : bool :=
  negb (String.eqb (ld_name d) "en_US").


(** A locale catalog that translates eight of the ten messages. *)
Definition eight_of_ten : Catalog :=
  mkCatalog
    (map (entry_of (fun text =>
                      if String.eqb text "nine" || String.eqb text "ten" then ""
                      else ("<" ++ text ++ ">")%string))
       sample_texts)
    [] 2 (Some "fr").

(** A catalog of messages without plural forms, as [extract] makes
    them. *)
Definition singular_ids (t : Catalog) : Prop :=
  forall k m, In (k, m) (messages t) -> exists s, m_id m = Singular s.

(** A message string that is not a tuple. *)
Definition plain_string (s : msgstr) : Prop :=
  s = SNone \/ exists t, s = SStr t.

(** The old key that the fuzzy match reuses for a message of the template
    that the catalog does not have, if it finds one. *)
Definition reused_by (self : Catalog) (message : Message) : list key :=
  match dict_get key_eqb (messages self) (msg_key message) with
  | Some _ => []
  | None =>
      match close_matches self (msg_key message) with
      | modified_key :: _ =>
          match dict_get String.eqb (fuzzy_candidates (messages self)) modified_key with
          | Some oldkey => [oldkey]
          | None => []
          end
      | [] => []
      end
  end.

(** The old keys that the fuzzy match reuses for a template. *)
Definition fuzzy_reused (self template : Catalog) : list key :=
  flat_map (reused_by self) (map snd (messages template)).

(** A locale that [check] reads and finds errors in. *)
Definition has_findings (checkers : list checker) (d : locale_dir) : bool :=
  negb (String.eqb (ld_name d) "en_US")
  && match ld_po d with
     | Readable catalog =>
         match Catalog_check checkers catalog with [] => false | _ => true end
     | _ => false
     end.

(** The catalog files [check] reads can all be read. *)
Definition checkable (d : locale_dir) : Prop :=
  ld_name d = "en_US" \/ ld_po d = Absent \/
  exists catalog, ld_po d = Readable catalog.

(** A checker that rejects the messages without a translation. *)
Definition sample_checker : checker :=
  fun _ m => if msgstr_empty (m_string m) then Some "no translation" else None.

(** The order of the directories by name. *)
Definition by_name (a b : locale_dir) : Prop :=
  String.leb (ld_name a) (ld_name b) = true.

Fixpoint has_lf (s : string) : bool :=
  match s with
  | EmptyString => false
  | String c r => Ascii.eqb c LF || has_lf r
  end.

(** A line of a block as the tokenizer keeps it: text within one line,
    not blank, and without blanks at its end. *)
Definition clean_line (l : str) : Prop :=
  has_lf l = false /\ is_blank_line l = false /\ str_rstrip l = l /\
  valid_utf8 l = true.

(** The text of a block: its lines, of which there is one at least. *)
Definition block_of_lines (text : str) : Prop :=
  exists b, text = join_lines b /\ b <> [] /\ Forall clean_line b.

(** A line as the iteration of a file gives it: it ends with its LF, or,
    at the end of the file, without. *)
Definition file_line (l : bytes) : Prop :=
  exists body, has_lf body = false /\ (l = (body ++ nl)%string \/ l = body).

(** A file written with the texts of [toks], in their order. *)
Definition written_from (toks : list Token) : str :=
  render (map (fun t => (tok_lineno t, Singular (tok_message t))) toks).

Definition extracted_text (r : extracted) : str :=
  let '(_, message, _, _) := r in message.

(** An entry of a locale catalog that follows an entry of the template: it
    has its id and its locations, and a string that is a [str]. *)
Definition follows (m tm : Message) : Prop :=
  m_id m = m_id tm /\
  m_locations m = m_locations tm /\
  exists s, m_string m = SStr s.

(** A catalog that follows a template: it has its keys, in whatever order,
    and each of its entries follows the template's. *)
Definition follows_template (c template : Catalog) : Prop :=
  entry_by_entry follows c template.

(** The text a catalog gives for a text of the source. *)
Definition emitted_for (c : Catalog) (text : str) : str :=
  match dict_get key_eqb (messages c) (text, None) with
  | Some m => emitted_text m
  | None => text
  end.

(** The lines to write for the blocks [rs] of a file: one for each block,
    in their order. *)
Definition regenerated_lines (c : Catalog) (rs : list extracted) : lines_of_file :=
  map (fun r => (extracted_lineno r, Singular (emitted_for c (extracted_text r)))) rs.

(** An entry [po2text] writes the source text for: it is fuzzy, or its
    translation is blank. *)
Definition falls_back (m : Message) : Prop :=
  m_fuzzy m = true \/ exists s, m_string m = SStr s /\ is_blank s = true.

(** A catalog for [two_blocks] without any translation. *)
Definition untranslated_catalog : Catalog :=
  mkCatalog
    [translated_entry "a" "" [("en-US/index.md", 1)];
     translated_entry "b" "" [("en-US/index.md", 3)]]
    [] 2 (Some "fr").

(** The catalog [update] starts from for a directory that has a catalog
    file it can read, or none. *)
Definition catalog_of (p : locale_dir) : Catalog :=
  match ld_po p with
  | Readable catalog => catalog
  | _ => new_catalog (Some (ld_name p)) (ld_plurals p)
  end.

(** A directory [update] can work on: its catalog file is absent, or holds
    a well-formed catalog, and can be written. *)
Definition updatable (p : locale_dir) : Prop :=
  ld_write p = None /\
  (ld_po p = Absent \/ exists catalog, ld_po p = Readable catalog /\ catalog_wf catalog).

(** * Properties *)

(** ** Text in UTF-8 *)

Lemma valid_option_map {A B} (f : A -> B) (o : option A) :
  match option_map f o with Some _ => true | None => false end =
  match o with Some _ => true | None => false end.
Proof. now destruct o. Qed.

(** Validity, one character at a time. *)
Lemma valid_utf8_step c0 r :
  valid_utf8 (String c0 r) =
  let b0 := N_of_ascii c0 in
  if (b0 <? 0x80)%N then valid_utf8 r
  else if byte_in 0xC2 0xDF c0 then
    match r with
    | String c1 r1 => byte_in 0x80 0xBF c1 && valid_utf8 r1
    | _ => false
    end
  else if byte_in 0xE0 0xEF c0 then
    match r with
    | String c1 (String c2 r2) =>
        byte_in (if (b0 =? 0xE0)%N then 0xA0 else 0x80)
          (if (b0 =? 0xED)%N then 0x9F else 0xBF) c1
        && byte_in 0x80 0xBF c2 && valid_utf8 r2
    | _ => false
    end
  else if byte_in 0xF0 0xF4 c0 then
    match r with
    | String c1 (String c2 (String c3 r3)) =>
        byte_in (if (b0 =? 0xF0)%N then 0x90 else 0x80)
          (if (b0 =? 0xF4)%N then 0x8F else 0xBF) c1
        && byte_in 0x80 0xBF c2 && byte_in 0x80 0xBF c3 && valid_utf8 r3
    | _ => false
    end
  else false.
Proof.
  unfold valid_utf8. cbn [utf8_decode]. cbv zeta.
  destruct (N_of_ascii c0 <? 0x80)%N; [apply valid_option_map|].
  destruct (byte_in 0xC2 0xDF c0).
  { destruct r as [|c1 r1]; [reflexivity|].
    destruct (byte_in 0x80 0xBF c1); [apply valid_option_map|reflexivity]. }
  destruct (byte_in 0xE0 0xEF c0).
  { destruct r as [|c1 [|c2 r2]]; try reflexivity.
    destruct (byte_in _ _ c1); [|reflexivity].
    destruct (byte_in 0x80 0xBF c2); [apply valid_option_map|reflexivity]. }
  destruct (byte_in 0xF0 0xF4 c0); [|reflexivity].
  destruct r as [|c1 [|c2 [|c3 r3]]]; try reflexivity.
  destruct (byte_in _ _ c1); [|reflexivity].
  destruct (byte_in 0x80 0xBF c2); [|reflexivity].
  destruct (byte_in 0x80 0xBF c3); [apply valid_option_map|reflexivity].
Qed.

Lemma byte_in_not_ascii lo hi c :
  (0x80 <= lo)%N -> (N_of_ascii c <? 0x80)%N = true -> byte_in lo hi c = false.
Proof.
  intros Hlo Hc. unfold byte_in. cbv zeta.
  apply N.ltb_lt in Hc. apply andb_false_iff. left. apply N.leb_gt. lia.
Qed.

Lemma valid_utf8_app_upto n :
  forall a b,
    String.length a <= n -> valid_utf8 a = true ->
    valid_utf8 (a ++ b)%string = valid_utf8 b.
Proof.
  induction n as [|n IH]; intros a b Hlen Hv.
  - destruct a; [reflexivity|simpl in Hlen; lia].
  - destruct a as [|c0 r]; [reflexivity|].
    change (String c0 r ++ b)%string with (String c0 (r ++ b)).
    rewrite valid_utf8_step in Hv |- *. cbv zeta in *. simpl in Hlen.
    destruct (N_of_ascii c0 <? 0x80)%N; [apply IH; [lia|exact Hv]|].
    destruct (byte_in 0xC2 0xDF c0).
    { destruct r as [|c1 r1]; [discriminate|].
      change (String c1 r1 ++ b)%string with (String c1 (r1 ++ b)). cbv beta iota.
      destruct (byte_in 0x80 0xBF c1); [|discriminate].
      simpl in *. apply IH; [lia|exact Hv]. }
    destruct (byte_in 0xE0 0xEF c0).
    { destruct r as [|c1 [|c2 r2]]; try discriminate.
      change (String c1 (String c2 r2) ++ b)%string
        with (String c1 (String c2 (r2 ++ b))). cbv beta iota.
      destruct (byte_in _ _ c1); [|discriminate].
      destruct (byte_in 0x80 0xBF c2); [|discriminate].
      simpl in *. apply IH; [lia|exact Hv]. }
    destruct (byte_in 0xF0 0xF4 c0); [|discriminate].
    destruct r as [|c1 [|c2 [|c3 r3]]]; try discriminate.
    change (String c1 (String c2 (String c3 r3)) ++ b)%string
      with (String c1 (String c2 (String c3 (r3 ++ b)))). cbv beta iota.
    destruct (byte_in _ _ c1); [|discriminate].
    destruct (byte_in 0x80 0xBF c2); [|discriminate].
    destruct (byte_in 0x80 0xBF c3); [|discriminate].
    simpl in *. apply IH; [lia|exact Hv].
Qed.

(** After text that is valid, what follows is on its own. *)
Lemma valid_utf8_app a b :
  valid_utf8 a = true -> valid_utf8 (a ++ b)%string = valid_utf8 b.
Proof. apply (valid_utf8_app_upto (String.length a)). lia. Qed.

Lemma valid_utf8_before_ascii_upto n :
  forall a c b,
    String.length a <= n ->
    (N_of_ascii c <? 0x80)%N = true ->
    valid_utf8 (a ++ String c b)%string = true ->
    valid_utf8 a = true.
Proof.
  induction n as [|n IH]; intros a c b Hlen Hc Hv.
  - destruct a; [reflexivity|simpl in Hlen; lia].
  - destruct a as [|c0 r]; [reflexivity|].
    change (String c0 r ++ String c b)%string
      with (String c0 (r ++ String c b)) in Hv.
    rewrite valid_utf8_step in Hv |- *. cbv zeta in *. simpl in Hlen.
    destruct (N_of_ascii c0 <? 0x80)%N; [apply (IH r c b); [lia|exact Hc|exact Hv]|].
    destruct (byte_in 0xC2 0xDF c0).
    { destruct r as [|c1 r1].
      - simpl in Hv. rewrite (byte_in_not_ascii _ _ c) in Hv by (auto; lia).
        discriminate.
      - change (String c1 r1 ++ String c b)%string
          with (String c1 (r1 ++ String c b)) in Hv. cbv beta iota in Hv.
        destruct (byte_in 0x80 0xBF c1); [|discriminate].
        simpl in *. apply (IH r1 c b); [lia|exact Hc|exact Hv]. }
    destruct (byte_in 0xE0 0xEF c0).
    { destruct r as [|c1 [|c2 r2]].
      - simpl in Hv.
        rewrite (byte_in_not_ascii _ _ c) in Hv
          by (auto; destruct (N_of_ascii c0 =? 0xE0)%N; lia).
        destruct b; discriminate.
      - simpl in Hv. rewrite (byte_in_not_ascii 0x80 _ c) in Hv by (auto; lia).
        rewrite andb_false_r in Hv. discriminate.
      - change (String c1 (String c2 r2) ++ String c b)%string
          with (String c1 (String c2 (r2 ++ String c b))) in Hv. cbv beta iota in Hv.
        destruct (byte_in _ _ c1); [|discriminate].
        destruct (byte_in 0x80 0xBF c2); [|discriminate].
        simpl in *. apply (IH r2 c b); [lia|exact Hc|exact Hv]. }
    destruct (byte_in 0xF0 0xF4 c0); [|discriminate].
    destruct r as [|c1 [|c2 [|c3 r3]]].
    + simpl in Hv.
      rewrite (byte_in_not_ascii _ _ c) in Hv
        by (auto; destruct (N_of_ascii c0 =? 0xF0)%N; lia).
      destruct b as [|? [|? ?]]; discriminate.
    + simpl in Hv. rewrite (byte_in_not_ascii 0x80 _ c) in Hv by (auto; lia).
      rewrite andb_false_r in Hv. destruct b; discriminate.
    + simpl in Hv. rewrite (byte_in_not_ascii 0x80 _ c) in Hv by (auto; lia).
      rewrite andb_false_r in Hv. discriminate.
    + change (String c1 (String c2 (String c3 r3)) ++ String c b)%string
        with (String c1 (String c2 (String c3 (r3 ++ String c b)))) in Hv. cbv beta iota in Hv.
      destruct (byte_in _ _ c1); [|discriminate].
      destruct (byte_in 0x80 0xBF c2); [|discriminate].
      destruct (byte_in 0x80 0xBF c3); [|discriminate].
      simpl in *. apply (IH r3 c b); [lia|exact Hc|exact Hv].
Qed.

(** A character does not go over an ASCII byte. *)
Lemma valid_utf8_before_ascii a c b :
  (N_of_ascii c <? 0x80)%N = true ->
  valid_utf8 (a ++ String c b)%string = true ->
  valid_utf8 a = true.
Proof. apply (valid_utf8_before_ascii_upto (String.length a)). lia. Qed.

Lemma valid_utf8_ascii c r :
  (N_of_ascii c <? 0x80)%N = true -> valid_utf8 (String c r) = valid_utf8 r.
Proof. intros Hc. rewrite valid_utf8_step. cbv zeta. now rewrite Hc. Qed.

(** ** Blanks and lines *)

Lemma rstrip_empty_iff sp s : rstrip sp s = "" <-> all_space sp s = true.
Proof.
  induction s as [|c r IH]; simpl; [tauto|].
  destruct (rstrip sp r) eqn:E.
  - destruct (sp c); simpl.
    + rewrite <- IH. tauto.
    + split; discriminate.
  - split; [discriminate|].
    intros H. apply andb_true_iff in H as [_ H]. apply IH in H. discriminate.
Qed.

Lemma all_space_lstrip sp s : all_space sp (lstrip sp s) = all_space sp s.
Proof.
  induction s as [|c r IH]; simpl; [reflexivity|].
  destruct (sp c) eqn:E; simpl; [exact IH|now rewrite E].
Qed.

Lemma is_blank_line_all_space text :
  is_blank_line text = all_space bytes_isspace text.
Proof.
  unfold is_blank_line, strip.
  rewrite <- (all_space_lstrip bytes_isspace text).
  destruct (rstrip bytes_isspace (lstrip bytes_isspace text)) eqn:E; simpl.
  - symmetry. now apply rstrip_empty_iff.
  - symmetry. apply not_true_is_false. intros H.
    apply rstrip_empty_iff in H. congruence.
Qed.

Lemma bytes_isspace_ascii c :
  bytes_isspace c = true -> (N_of_ascii c <? 0x80)%N = true.
Proof.
  destruct c as [b0 b1 b2 b3 b4 b5 b6 b7].
  destruct b0, b1, b2, b3, b4, b5, b6, b7; (reflexivity || discriminate).
Qed.

Lemma all_space_valid_utf8 s :
  all_space bytes_isspace s = true -> valid_utf8 s = true.
Proof.
  induction s as [|c r IH]; simpl; [reflexivity|].
  intros H. apply andb_true_iff in H as [Hc Hr].
  rewrite (valid_utf8_ascii _ _ (bytes_isspace_ascii _ Hc)). auto.
Qed.

(** A blank line is ASCII. *)
Lemma blank_line_valid_utf8 text :
  is_blank_line text = true -> valid_utf8 text = true.
Proof. rewrite is_blank_line_all_space. apply all_space_valid_utf8. Qed.

Lemma string_app_assoc (a b c : string) :
  ((a ++ b) ++ c = a ++ (b ++ c))%string.
Proof. induction a; simpl; congruence. Qed.

Lemma string_app_nil_r (a : string) : (a ++ "" = a)%string.
Proof. induction a; simpl; congruence. Qed.

Lemma LF_ascii : (N_of_ascii LF <? 0x80)%N = true.
Proof. reflexivity. Qed.

Lemma valid_utf8_readlines_from s :
  forall cur,
    Forall (fun text => valid_utf8 text = true) (readlines_from cur s) <->
    valid_utf8 (cur ++ s)%string = true.
Proof.
  induction s as [|c r IH]; intros cur; simpl.
  - rewrite string_app_nil_r. destruct cur; simpl.
    + split; [reflexivity|constructor].
    + split; [now inversion 1|now repeat constructor].
  - destruct (Ascii.eqb_spec c LF) as [->|Hc].
    + split.
      * intros H. inversion H as [|? ? Hcur Hrest]; subst.
        apply (IH EmptyString) in Hrest. simpl in Hrest.
        pose proof (valid_utf8_before_ascii cur LF "" LF_ascii Hcur) as Hv.
        rewrite (valid_utf8_app _ _ Hv), (valid_utf8_ascii _ _ LF_ascii).
        exact Hrest.
      * intros H.
        pose proof (valid_utf8_before_ascii cur LF r LF_ascii H) as Hv.
        rewrite (valid_utf8_app _ _ Hv), (valid_utf8_ascii _ _ LF_ascii) in H.
        constructor.
        -- now rewrite (valid_utf8_app _ _ Hv).
        -- now apply (IH EmptyString).
    + rewrite IH, string_app_assoc. reflexivity.
Qed.

(** A file is text in UTF-8 exactly when each of its lines is. *)
Lemma valid_utf8_readlines content :
  Forall (fun text => valid_utf8 text = true) (readlines content) <->
  valid_utf8 content = true.
Proof. apply (valid_utf8_readlines_from content EmptyString). Qed.

(** ** The order of the strings *)

Lemma ascii_compare_trans c1 c2 c3 r :
  Ascii.compare c1 c2 = r -> Ascii.compare c2 c3 = r -> r <> Eq ->
  Ascii.compare c1 c3 = r.
Proof.
  unfold Ascii.compare. intros H1 H2 Hr.
  destruct r; [congruence| |].
  - rewrite N.compare_lt_iff in *. now apply (N.lt_trans _ (N_of_ascii c2)).
  - rewrite N.compare_gt_iff in *. now apply (N.lt_trans _ (N_of_ascii c2)).
Qed.

Lemma string_compare_trans s1 :
  forall s2 s3,
    String.compare s1 s2 <> Gt -> String.compare s2 s3 <> Gt ->
    String.compare s1 s3 <> Gt.
Proof.
  induction s1 as [|c1 s1 IH]; intros [|c2 s2] [|c3 s3]; simpl;
    try congruence.
  destruct (Ascii.compare c1 c2) eqn:E12; [| |congruence];
    destruct (Ascii.compare c2 c3) eqn:E23; try congruence.
  - apply Ascii.compare_eq_iff in E12, E23. subst.
    assert (E : Ascii.compare c3 c3 = Eq) by (unfold Ascii.compare; apply N.compare_refl).
    rewrite E. apply IH.
  - apply Ascii.compare_eq_iff in E12. subst. now rewrite E23.
  - apply Ascii.compare_eq_iff in E23. subst. now rewrite E12.
  - now rewrite (ascii_compare_trans c1 c2 c3 Lt E12 E23).
Qed.

Lemma string_compare_refl s : String.compare s s = Eq.
Proof.
  induction s as [|c s IH]; simpl; [reflexivity|].
  assert (E : Ascii.compare c c = Eq) by (unfold Ascii.compare; apply N.compare_refl).
  now rewrite E.
Qed.

(** ** The order of the floats *)

Lemma SFcompare_antisym a b c :
  SFcompare a b = Some c -> SFcompare b a = Some (CompOpp c).
Proof.
  destruct a as [[]|[]| |[] m1 e1], b as [[]|[]| |[] m2 e2]; simpl;
    intros [= <-]; try reflexivity;
    rewrite (Z.compare_antisym e1 e2);
    change (Pos.compare_cont Eq m2 m1) with (Pos.compare m2 m1);
    change (Pos.compare_cont Eq m1 m2) with (Pos.compare m1 m2);
    rewrite (Pos.compare_antisym m1 m2);
    destruct (e1 ?= e2)%Z; simpl; try reflexivity;
    destruct (m1 ?= m2)%positive; reflexivity.
Qed.

Lemma lex_compare_trans (e1 e2 e3 : Z) (m1 m2 m3 : positive) :
  let lex e m e' m' :=
    match (e ?= e')%Z with Lt => Lt | Gt => Gt | Eq => (m ?= m')%positive end in
  lex e1 m1 e2 m2 <> Gt -> lex e2 m2 e3 m3 <> Gt -> lex e1 m1 e3 m3 <> Gt.
Proof.
  cbv zeta beta. intros H1 H2.
  destruct (e1 ?= e2)%Z eqn:A; cbv iota in *; [| |congruence];
    destruct (e2 ?= e3)%Z eqn:B; cbv iota in *; try congruence;
    destruct (e1 ?= e3)%Z eqn:C; cbv iota in *; try congruence;
    rewrite ?Z.compare_eq_iff, ?Z.compare_lt_iff, ?Z.compare_gt_iff in *;
    try lia.
  subst.
  destruct (m1 ?= m2)%positive eqn:A'; [| |congruence];
    destruct (m2 ?= m3)%positive eqn:B'; try congruence;
    destruct (m1 ?= m3)%positive eqn:C'; try congruence;
    rewrite ?Pos.compare_eq_iff, ?Pos.compare_lt_iff, ?Pos.compare_gt_iff in *;
    lia.
Qed.

Lemma SFcompare_trans_le a b c x y :
  SFcompare a b = Some x -> SFcompare b c = Some y ->
  x <> Gt -> y <> Gt ->
  exists z, SFcompare a c = Some z /\ z <> Gt.
Proof.
  destruct a as [[]|[]| |[] m1 e1], b as [[]|[]| |[] m2 e2],
    c as [[]|[]| |[] m3 e3]; simpl; intros [= <-] [= <-] Hx Hy;
    try congruence; try (eexists; split; [reflexivity|congruence]).
  - (* three negative numbers *)
    eexists; split; [reflexivity|].
    pose proof (lex_compare_trans e3 e2 e1 m3 m2 m1) as H.
    cbv zeta beta in H.
    change (Pos.compare_cont Eq) with Pos.compare in *.
    rewrite (Z.compare_antisym e2 e3), (Z.compare_antisym e1 e2),
      (Z.compare_antisym e1 e3), (Pos.compare_antisym m2 m3),
      (Pos.compare_antisym m1 m2), (Pos.compare_antisym m1 m3) in H.
    destruct (e1 ?= e2)%Z, (e2 ?= e3)%Z, (e1 ?= e3)%Z,
      (m1 ?= m2)%positive, (m2 ?= m3)%positive, (m1 ?= m3)%positive;
      simpl in *; try congruence; exfalso; apply H; congruence.
  - (* three positive numbers *)
    eexists; split; [reflexivity|].
    change (Pos.compare_cont Eq) with Pos.compare in *.
    now apply (lex_compare_trans e1 e2 e3 m1 m2 m3).
Qed.

Lemma SFcompare_number a b :
  a <> S754_nan -> b <> S754_nan -> exists c, SFcompare a b = Some c.
Proof.
  destruct a as [[]|[]| |[] m1 e1], b as [[]|[]| |[] m2 e2]; simpl;
    intros Ha Hb; try congruence; eauto.
Qed.

Lemma SFcompare_refl a : a <> S754_nan -> SFcompare a a = Some Eq.
Proof.
  destruct a as [[]|[]| |[] m e]; simpl; intros Ha; try congruence;
    rewrite Z.compare_refl;
    change (Pos.compare_cont Eq m m) with (Pos.compare m m);
    now rewrite Pos.compare_refl.
Qed.

(** What is above the cutoff is a number. *)
Lemma leb_is_number x y : PrimFloat.leb x y = true -> is_number x /\ is_number y.
Proof.
  rewrite FloatAxioms.leb_spec. unfold SFleb, is_number.
  destruct (Prim2SF x), (Prim2SF y); simpl; try discriminate;
    split; discriminate.
Qed.

(** ** [str.rstrip] and [bytes.strip] *)

Lemma str_rstrip_app_nl s : str_rstrip (s ++ nl)%string = str_rstrip s.
Proof.
  induction s as [|c r IH]; [reflexivity|].
  change (String c r ++ nl)%string with (String c (r ++ nl)%string).
  cbn [str_rstrip]. now rewrite IH.
Qed.

Lemma prefix_app w x y :
  String.prefix w x = true -> String.prefix w (x ++ y)%string = true.
Proof.
  revert x. induction w as [|a w IH]; intros x.
  - intros _. now destruct (x ++ y)%string.
  - destruct x as [|b x]; [discriminate|]. simpl.
    destruct (ascii_dec a b); [apply IH|discriminate].
Qed.

Lemma prefix_refl w : String.prefix w w = true.
Proof.
  induction w as [|a w IH]; [reflexivity|]. simpl.
  destruct (ascii_dec a a); [exact IH|congruence].
Qed.

Lemma prefix_cons c w x :
  String.prefix w x = true -> String.prefix (String c w) (String c x) = true.
Proof. intros H. simpl. destruct (ascii_dec c c); [exact H|congruence]. Qed.

Lemma rstrip_prefix sp s : String.prefix (rstrip sp s) s = true.
Proof.
  induction s as [|c r IH]; [reflexivity|]. cbn [rstrip].
  destruct (rstrip sp r) as [|c' r'] eqn:E.
  - destruct (sp c); [reflexivity|]. simpl.
    destruct (ascii_dec c c); [now destruct r|congruence].
  - now apply prefix_cons.
Qed.

(** What is left of a text once the blanks at its end are removed, and
    these blanks. *)
Lemma rstrip_blanks sp s :
  exists t, s = (rstrip sp s ++ t)%string /\ all_space sp t = true.
Proof.
  induction s as [|c r (t & Hr & Ht)]; [exists EmptyString; auto|].
  cbn [rstrip]. destruct (rstrip sp r) as [|c' r'] eqn:E.
  - simpl in Hr. subst t. destruct (sp c) eqn:Ec.
    + exists (String c r). simpl. now rewrite Ec.
    + exists r. auto.
  - exists t. split; [|exact Ht]. simpl. now rewrite Hr at 1.
Qed.

Lemma has_str_blank_app a b :
  has_str_blank (a ++ b)%string = false ->
  has_str_blank a = false /\ has_str_blank b = false.
Proof.
  induction a as [|c a IH]; [auto|].
  change (String c a ++ b)%string with (String c (a ++ b)%string).
  cbn [has_str_blank]. intros H. apply orb_false_iff in H as [Hc Hr].
  destruct (IH Hr) as [Ha Hb]. split; [|exact Hb].
  rewrite Ha, orb_false_r.
  destruct (existsb
              (fun n => String.prefix (utf8_of_codepoint n) (String c a))
              str_only_blanks) eqn:E; [|reflexivity].
  apply existsb_exists in E as (n & Hn & Hp).
  assert (Hc' : existsb
            (fun n => String.prefix (utf8_of_codepoint n) (String c (a ++ b)%string))
            str_only_blanks = true).
  { apply existsb_exists. exists n. split; [exact Hn|].
    now apply (prefix_app _ (String c a) b). }
  congruence.
Qed.

(** A blank of [bytes.strip] is a blank of [str.strip]; the other blanks
    of one byte are the separators. *)
Lemma is_whitespace_byte c r :
  existsb (fun n => String.prefix (utf8_of_codepoint n) (String c r))
    str_only_blanks = false ->
  is_whitespace (String c EmptyString) = bytes_isspace c.
Proof.
  intros H. destruct c as [b0 b1 b2 b3 b4 b5 b6 b7].
  destruct b0, b1, b2, b3, b4, b5, b6, b7; try reflexivity;
    exfalso; destruct r; vm_compute in H; discriminate H.
Qed.

(** A blank of more than one byte is not a blank of [bytes.strip]. *)
Lemma is_whitespace_wide w :
  is_whitespace w = true -> 2 <= String.length w ->
  exists n, In n str_only_blanks /\ w = utf8_of_codepoint n.
Proof.
  unfold is_whitespace. intros H Hlen.
  apply existsb_exists in H as (n & Hn & E). apply String.eqb_eq in E.
  exists n. split; [|exact E].
  unfold str_only_blanks. apply filter_In. split; [exact Hn|].
  destruct (n <? 0x80)%N eqn:Hascii; [|reflexivity].
  exfalso. subst w. unfold utf8_of_codepoint in Hlen. rewrite Hascii in Hlen.
  simpl in Hlen. lia.
Qed.

(** In a text without the blanks that are proper to [str.strip],
    [str.rstrip] removes what [bytes.rstrip] removes. *)
Lemma str_rstrip_bytes s :
  has_str_blank s = false -> str_rstrip s = rstrip bytes_isspace s.
Proof.
  induction s as [|c r IH]; [reflexivity|].
  cbn [has_str_blank]. intros H. apply orb_false_iff in H as [Hc Hr].
  cbn [str_rstrip rstrip]. cbv zeta. rewrite (IH Hr).
  destruct (rstrip bytes_isspace r) as [|c' r'] eqn:E.
  - now rewrite (is_whitespace_byte c r Hc).
  - destruct (is_whitespace (String c (String c' r'))) eqn:Hw; [|reflexivity].
    exfalso. apply is_whitespace_wide in Hw as (n & Hn & Hwn); [|simpl; lia].
    assert (Hp : existsb
              (fun n => String.prefix (utf8_of_codepoint n) (String c r))
              str_only_blanks = true).
    { apply existsb_exists. exists n. split; [exact Hn|].
      rewrite <- Hwn, <- E. apply prefix_cons, rstrip_prefix. }
    congruence.
Qed.

Lemma all_space_ascii_valid a t :
  all_space bytes_isspace t = true ->
  valid_utf8 (a ++ t)%string = true -> valid_utf8 a = true.
Proof.
  destruct t as [|c t]; [now rewrite string_app_nil_r|].
  simpl. intros H. apply andb_true_iff in H as [Hc _].
  apply valid_utf8_before_ascii. now apply bytes_isspace_ascii.
Qed.

Lemma valid_utf8_rstrip s :
  valid_utf8 s = true -> valid_utf8 (rstrip bytes_isspace s) = true.
Proof.
  destruct (rstrip_blanks bytes_isspace s) as (t & Hs & Ht).
  intros Hv. rewrite Hs in Hv. now apply (all_space_ascii_valid _ t).
Qed.

(** ** The tokenizer *)

Lemma nth_error_app_left {A} (l l' : list A) n x :
  nth_error l n = Some x -> nth_error (l ++ l') n = Some x.
Proof.
  intros H. rewrite nth_error_app1; [exact H|].
  apply nth_error_Some. rewrite H. discriminate.
Qed.

Lemma nth_error_snoc {A} (l : list A) x :
  nth_error (l ++ [x]) (List.length l) = Some x.
Proof.
  rewrite nth_error_app2 by lia. rewrite Nat.sub_diag. reflexivity.
Qed.

Lemma decode_utf8_inr b s :
  decode_utf8 b = inr s -> s = b /\ valid_utf8 b = true.
Proof.
  unfold decode_utf8. destruct (valid_utf8 b); [|discriminate].
  intros H. injection H as <-. now split.
Qed.

Lemma decode_utf8_inl b e :
  decode_utf8 b = inl e -> e = UnicodeDecodeError /\ valid_utf8 b = false.
Proof.
  unfold decode_utf8. destruct (valid_utf8 b); [discriminate|].
  intros H. injection H as <-. now split.
Qed.

Lemma decode_utf8_valid b : valid_utf8 b = true -> decode_utf8 b = inr b.
Proof. unfold decode_utf8. now intros ->. Qed.

(** The three turns of the loop: a line of text that decodes, one that does
    not, a blank line. *)
Lemma extract_blocks_loop_text idx token messages text rest :
  is_blank_line text = false ->
  valid_utf8 text = true ->
  extract_blocks_loop idx token messages (text :: rest) =
  extract_blocks_loop (S idx)
    (Some (match token with Some start => start | None => idx + 1 end))
    (match token with Some _ => messages | None => [] end ++ [str_rstrip text])
    rest.
Proof.
  intros Hb Hv. cbn [extract_blocks_loop]. rewrite Hb.
  rewrite (decode_utf8_valid _ Hv). now destruct token.
Qed.

Lemma extract_blocks_loop_raises idx token messages text rest :
  is_blank_line text = false ->
  valid_utf8 text = false ->
  extract_blocks_loop idx token messages (text :: rest) =
  ([], Some UnicodeDecodeError).
Proof.
  intros Hb Hv. cbn [extract_blocks_loop]. rewrite Hb.
  unfold decode_utf8. rewrite Hv. now destruct token.
Qed.

Lemma extract_blocks_loop_blank_line idx token messages text rest :
  is_blank_line text = true ->
  extract_blocks_loop idx token messages (text :: rest) =
  match token, messages with
  | Some start, _ :: _ =>
      yield (mkToken start "" (join_lines messages) [])
        (extract_blocks_loop (S idx) None [] rest)
  | _, _ => extract_blocks_loop (S idx) None [] rest
  end.
Proof.
  intros Hb. cbn [extract_blocks_loop]. rewrite Hb.
  destruct token as [start|]; [|reflexivity].
  now destruct messages.
Qed.

(** The tokenizer raises at the first line of text that does not decode;
    a blank line is not decoded, and would decode. *)
Lemma extract_blocks_loop_error fileobj :
  forall idx token messages,
    snd (extract_blocks_loop idx token messages fileobj) =
    if forallb valid_utf8 fileobj then None else Some UnicodeDecodeError.
Proof.
  induction fileobj as [|text rest IH]; intros idx token messages.
  - simpl. destruct token; [|reflexivity]. now destruct messages.
  - cbn [forallb]. destruct (is_blank_line text) eqn:Hblank.
    + rewrite (extract_blocks_loop_blank_line _ _ _ _ _ Hblank).
      rewrite (blank_line_valid_utf8 _ Hblank). cbn [andb].
      destruct token; [|apply IH].
      destruct messages; [apply IH|]. unfold yield. cbn [snd]. apply IH.
    + destruct (valid_utf8 text) eqn:Hvalid.
      * rewrite (extract_blocks_loop_text _ _ _ _ _ Hblank Hvalid). apply IH.
      * now rewrite (extract_blocks_loop_raises _ _ _ _ _ Hblank Hvalid).
Qed.

Lemma extract_blocks_error content :
  snd (extract_blocks (readlines content)) =
  if valid_utf8 content then None else Some UnicodeDecodeError.
Proof.
  unfold extract_blocks. rewrite extract_blocks_loop_error.
  destruct (valid_utf8 content) eqn:Hv.
  - apply valid_utf8_readlines in Hv. rewrite Forall_forall in Hv.
    now rewrite (proj2 (forallb_forall _ _) Hv).
  - destruct (forallb valid_utf8 (readlines content)) eqn:Hall; [|reflexivity].
    rewrite forallb_forall in Hall. rewrite <- Forall_forall in Hall.
    apply valid_utf8_readlines in Hall. congruence.
Qed.

Lemma loop_state_starts_block pre rest start messages :
  loop_state pre (Some start) messages ->
  starts_block (pre ++ rest) (mkToken start "" (join_lines messages) []).
Proof.
  intros (text & more & H1 & Hn & Hb & Hp & Hd & ->).
  exists text, text, more. simpl. repeat split; auto using nth_error_app_left.
  destruct Hp as [->|(prev & Hprev & Hpb)]; [now left|right].
  exists prev. auto using nth_error_app_left.
Qed.

Lemma extract_blocks_loop_starts rest :
  forall pre token messages tok,
    loop_state pre token messages ->
    In tok (fst (extract_blocks_loop (List.length pre) token messages rest)) ->
    starts_block (pre ++ rest) tok.
Proof.
  induction rest as [|text rest IH]; intros pre token messages tok Hst Hin.
  - simpl in Hin. destruct token as [start|]; [|contradiction].
    destruct messages as [|m ms]; [contradiction|].
    destruct Hin as [<-|[]]. now apply loop_state_starts_block.
  - replace (pre ++ text :: rest) with ((pre ++ [text]) ++ rest)
      by (rewrite <- app_assoc; reflexivity).
    assert (Hlen : S (List.length pre) = List.length (pre ++ [text]))
      by (rewrite length_app; simpl; lia).
    destruct (is_blank_line text) eqn:Hblank.
    + (* a blank line closes the block, if any *)
      rewrite (extract_blocks_loop_blank_line _ _ _ _ _ Hblank) in Hin.
      assert (Hnone : loop_state (pre ++ [text]) None []).
      { split; [reflexivity|right]. now exists pre, text. }
      destruct token as [start|].
      * destruct messages as [|m ms].
        -- rewrite Hlen in Hin. eapply IH; eauto.
        -- destruct Hin as [<-|Hin].
           ++ rewrite <- app_assoc.
              now apply (loop_state_starts_block pre ([text] ++ rest)).
           ++ rewrite Hlen in Hin. eapply IH; eauto.
      * rewrite Hlen in Hin. eapply IH; eauto.
    + (* a line of text opens a block or goes on with the open one *)
      destruct (valid_utf8 text) eqn:Hvalid.
      2:{ rewrite (extract_blocks_loop_raises _ _ _ _ _ Hblank Hvalid) in Hin.
          contradiction. }
      rewrite (extract_blocks_loop_text _ _ _ _ _ Hblank Hvalid) in Hin.
      rewrite Hlen in Hin.
      destruct token as [start|]; (eapply IH; [|exact Hin]).
      * destruct Hst as (t & more & H1 & Hn & Hb & Hp & Hd & ->).
        exists t, (more ++ [str_rstrip text]).
        repeat split; auto using nth_error_app_left.
        destruct Hp as [->|(prev & Hprev & Hpb)]; [now left|right].
        exists prev. auto using nth_error_app_left.
      * destruct Hst as [_ Hpre].
        exists text, []. rewrite Nat.add_1_r. simpl.
        rewrite Nat.sub_0_r.
        repeat split; auto using nth_error_snoc, decode_utf8_valid; try lia.
        destruct Hpre as [->|(pre' & b & -> & Hb)]; [now left|right].
        exists b. split; [|exact Hb].
        rewrite length_app. simpl.
        replace (List.length pre' + 1 - 1) with (List.length pre') by lia.
        apply nth_error_app_left, nth_error_snoc.
Qed.

(** C3, as the code has it.  On the input ["a\nb\n\nc\n"] the tokenizer
    yields two blocks and does not raise, the first with start line 1 and
    text ["a\nb"], the second with start line 4 (the blank line is line 3)
    and text ["c"]; and for every file, the start line of a yielded block is
    the 1-based number of a line that is not blank, that comes first or
    after a blank line (the accumulator was empty), and whose text, decoded
    and without the blanks at its end, is the first of the block. *)
Theorem extract_blocks_start_line :
  extract_blocks (readlines sample_input) = (sample_blocks, None) /\
  forall fileobj tok,
    In tok (fst (extract_blocks fileobj)) -> starts_block fileobj tok.
Proof.
  split; [reflexivity|].
  intros fileobj tok Hin.
  apply (extract_blocks_loop_starts fileobj [] None [] tok); [|exact Hin].
  split; [reflexivity|now left].
Qed.

Lemma extract_blocks_start_line_witness :
  starts_block (readlines sample_input) (mkToken 4 "" "c" []).
Proof.
  apply (proj2 extract_blocks_start_line). vm_compute. right. now left.
Defined.

(** C3, as the specification words it, fails: the second block of
    ["a\nb\n\nc\n"] is not recorded at line 3. *)
Lemma extract_blocks_sample_not_line_3 :
  fst (extract_blocks (readlines sample_input)) = sample_blocks /\
  fst (extract_blocks (readlines sample_input)) <> sample_blocks_line_3.
Proof.
  split; [reflexivity|]. vm_compute. discriminate.
Qed.

(** ** Dictionaries and [distinct] *)

Lemma key_eqb_spec (k1 k2 : key) : reflect (k1 = k2) (key_eqb k1 k2).
Proof.
  destruct k1 as [s1 c1], k2 as [s2 c2]. unfold key_eqb. simpl.
  destruct (String.eqb_spec s1 s2) as [->|Hs]; simpl.
  - destruct c1 as [a|], c2 as [b|]; simpl; try (constructor; congruence).
    destruct (String.eqb_spec a b) as [->|Hc]; constructor; congruence.
  - constructor. congruence.
Qed.

Lemma location_eqb_spec (l1 l2 : location) :
  reflect (l1 = l2) (location_eqb l1 l2).
Proof.
  destruct l1 as [f1 n1], l2 as [f2 n2]. unfold location_eqb. simpl.
  destruct (String.eqb_spec f1 f2) as [->|Hf]; simpl.
  - destruct (Nat.eqb_spec n1 n2) as [->|Hn]; constructor; congruence.
  - constructor. congruence.
Qed.

Section DictFacts.
Context {K V : Type} (eqb : K -> K -> bool).
Hypothesis eqb_spec : forall x y, reflect (x = y) (eqb x y).

Lemma dict_get_None (d : list (K * V)) k :
  dict_get eqb d k = None <-> ~ In k (map fst d).
Proof.
  induction d as [|[k' v] d IH]; simpl.
  - tauto.
  - destruct (eqb_spec k k') as [->|Hne].
    + split; [discriminate|]. intros H. exfalso. apply H. now left.
    + rewrite IH. split; [intros H [E|E]; auto; congruence|tauto].
Qed.

Lemma dict_get_In (d : list (K * V)) k v : dict_get eqb d k = Some v -> In (k, v) d.
Proof.
  induction d as [|[k' v'] d IH]; simpl; [discriminate|].
  destruct (eqb_spec k k') as [->|Hne].
  - intros [= ->]. now left.
  - intros H. right. auto.
Qed.

Lemma In_dict_get (d : list (K * V)) k v :
  NoDup (map fst d) -> In (k, v) d -> dict_get eqb d k = Some v.
Proof.
  induction d as [|[k' v'] d IH]; simpl; [contradiction|].
  intros Hnd [E|Hin].
  - injection E as -> ->. destruct (eqb_spec k k); congruence.
  - inversion Hnd as [|? ? Hnot Hnd']; subst.
    destruct (eqb_spec k k') as [->|Hne]; [|auto].
    exfalso. apply Hnot. change k' with (fst (k', v)). now apply in_map.
Qed.

Lemma dict_get_set_same (d : list (K * V)) k v : dict_get eqb (dict_set eqb d k v) k = Some v.
Proof.
  induction d as [|[k' v'] d IH]; simpl.
  - destruct (eqb_spec k k); congruence.
  - destruct (eqb_spec k k') as [->|Hne]; simpl.
    + destruct (eqb_spec k' k'); congruence.
    + destruct (eqb_spec k k'); congruence.
Qed.

Lemma dict_get_set_other (d : list (K * V)) k v k' :
  k' <> k -> dict_get eqb (dict_set eqb d k v) k' = dict_get eqb d k'.
Proof.
  intros Hne. induction d as [|[k0 v0] d IH]; simpl.
  - destruct (eqb_spec k' k); congruence.
  - destruct (eqb_spec k k0) as [->|Hne0]; simpl.
    + destruct (eqb_spec k' k0); congruence.
    + destruct (eqb_spec k' k0); congruence.
Qed.

Lemma dict_set_keys (d : list (K * V)) k v :
  map fst (dict_set eqb d k v) =
  if dict_mem eqb d k then map fst d else map fst d ++ [k].
Proof.
  unfold dict_mem. induction d as [|[k' v'] d IH]; simpl; [reflexivity|].
  destruct (eqb_spec k k') as [->|Hne]; simpl; [reflexivity|].
  rewrite IH. now destruct (dict_get eqb d k).
Qed.

Lemma dict_set_NoDup (d : list (K * V)) k v :
  NoDup (map fst d) -> NoDup (map fst (dict_set eqb d k v)).
Proof.
  intros Hnd. rewrite dict_set_keys. unfold dict_mem.
  destruct (dict_get eqb d k) eqn:Hget; [exact Hnd|].
  apply dict_get_None in Hget.
  apply NoDup_app; [exact Hnd|constructor; [tauto|constructor]|].
  intros x Hx [<-|[]]. contradiction.
Qed.

Lemma In_dict_set (d : list (K * V)) k v k' v' :
  In (k', v') (dict_set eqb d k v) ->
  (k', v') = (k, v) \/ In (k', v') d.
Proof.
  induction d as [|[k0 v0] d IH]; simpl.
  - intros [E|[]]. now left.
  - destruct (eqb_spec k k0) as [->|Hne]; simpl.
    + intros [E|H]; [left; congruence|right; now right].
    + intros [E|H]; [right; now left|].
      destruct (IH H); [now left|right; now right].
Qed.

Lemma dict_get_del_other (d : list (K * V)) k k' :
  k' <> k -> dict_get eqb (dict_del eqb d k) k' = dict_get eqb d k'.
Proof.
  intros Hne. induction d as [|[k0 v0] d IH]; simpl; [reflexivity|].
  destruct (eqb_spec k k0) as [->|Hne0]; simpl.
  - destruct (eqb_spec k' k0); congruence.
  - destruct (eqb_spec k' k0); congruence.
Qed.
End DictFacts.

Section DistinctFacts.
Context {A : Type} (eqb : A -> A -> bool).
Hypothesis eqb_spec : forall x y, reflect (x = y) (eqb x y).

Lemma existsb_eqb_In x l : existsb (eqb x) l = true <-> In x l.
Proof.
  rewrite existsb_exists. split.
  - intros (y & Hy & E). destruct (eqb_spec x y); congruence.
  - intros H. exists x. split; [exact H|]. destruct (eqb_spec x x); congruence.
Qed.

Lemma distinct_from_fresh seen l :
  NoDup l -> (forall x, In x l -> ~ In x seen) -> distinct_from eqb seen l = l.
Proof.
  revert seen. induction l as [|x l IH]; intros seen Hnd Hfresh; simpl.
  - reflexivity.
  - inversion Hnd as [|? ? Hx Hnd']; subst.
    destruct (existsb (eqb x) seen) eqn:E.
    + apply existsb_eqb_In in E. exfalso. apply (Hfresh x); simpl; auto.
    + f_equal. apply IH; [exact Hnd'|].
      intros y Hy [<-|Hs]; [contradiction|].
      apply (Hfresh y); simpl; auto.
Qed.

Lemma distinct_NoDup_id l : NoDup l -> distinct eqb l = l.
Proof. intros H. apply distinct_from_fresh; [exact H|]. intros x _ []. Qed.

Lemma distinct_from_sound seen l :
  NoDup (distinct_from eqb seen l) /\
  forall x, In x (distinct_from eqb seen l) -> In x l /\ ~ In x seen.
Proof.
  revert seen. induction l as [|x l IH]; intros seen; simpl.
  - split; [constructor|contradiction].
  - destruct (existsb (eqb x) seen) eqn:E.
    + destruct (IH seen) as [Hnd Hin]. split; [exact Hnd|].
      intros y Hy. destruct (Hin y Hy). auto.
    + destruct (IH (x :: seen)) as [Hnd Hin]. split.
      * constructor; [|exact Hnd]. intros Hx.
        destruct (Hin x Hx) as [_ Hn]. apply Hn. now left.
      * intros y [<-|Hy].
        -- split; [now left|]. intros Hs.
           apply existsb_eqb_In in Hs. congruence.
        -- destruct (Hin y Hy) as [H1 H2]. split; [now right|].
           intros Hs. apply H2. now right.
Qed.

Lemma distinct_NoDup l : NoDup (distinct eqb l).
Proof. apply distinct_from_sound. Qed.
End DistinctFacts.

(** ** Extraction *)

(** The start lines of the yielded tokens are all different: each one lies
    beyond the lines read when the one before it was yielded. *)
Lemma extract_blocks_loop_linenos rest :
  forall idx token messages,
    (forall start, token = Some start -> start <= idx) ->
    (forall t, In t (fst (extract_blocks_loop idx token messages rest)) ->
               match token with Some start => start | None => S idx end
               <= tok_lineno t) /\
    NoDup (map tok_lineno (fst (extract_blocks_loop idx token messages rest))).
Proof.
  induction rest as [|text rest IH]; intros idx token messages Hle.
  - simpl. destruct token as [start|]; [|split; [contradiction|constructor]].
    destruct messages; simpl; split;
      try contradiction; try constructor; auto; try constructor.
    intros t [<-|[]]. simpl. lia.
  - destruct (is_blank_line text) eqn:Hblank.
    + rewrite (extract_blocks_loop_blank_line _ _ _ _ _ Hblank).
      destruct (IH (S idx) None []) as [Hlo Hnd]; [discriminate|].
      destruct token as [start|].
      * specialize (Hle start eq_refl).
        destruct messages as [|m ms].
        -- split; [|exact Hnd]. intros t Ht. specialize (Hlo t Ht). lia.
        -- unfold yield. cbn [fst]. split.
           ++ intros t [<-|Ht]; simpl; [lia|]. specialize (Hlo t Ht). lia.
           ++ simpl. constructor; [|exact Hnd].
              intros Hin. apply in_map_iff in Hin as (t & Et & Ht).
              specialize (Hlo t Ht). lia.
      * split; [|exact Hnd]. intros t Ht. specialize (Hlo t Ht). lia.
    + destruct (valid_utf8 text) eqn:Hvalid.
      2:{ rewrite (extract_blocks_loop_raises _ _ _ _ _ Hblank Hvalid).
          split; [intros t []|constructor]. }
      rewrite (extract_blocks_loop_text _ _ _ _ _ Hblank Hvalid).
      destruct token as [start|].
      * specialize (Hle start eq_refl).
        destruct (IH (S idx) (Some start) (messages ++ [str_rstrip text]))
          as [Hlo Hnd]; [intros ? [= <-]; lia|].
        split; assumption.
      * destruct (IH (S idx) (Some (idx + 1)) ([] ++ [str_rstrip text]))
          as [Hlo Hnd]; [intros ? [= <-]; lia|].
        split; [|exact Hnd]. intros t Ht. specialize (Hlo t Ht). lia.
Qed.

(** What [extract_from_file] returns for the tokenizer. *)
Lemma extract_from_file_blocks content :
  extract_from_file extract_blocks content =
  if valid_utf8 content then inr (blocks_of content)
  else inl UnicodeDecodeError.
Proof.
  unfold blocks_of, extract_from_file.
  pose proof (extract_blocks_error content) as He.
  destruct (extract_blocks (readlines content)) as [tokens e].
  simpl in He. subst e. now destruct (valid_utf8 content).
Qed.

Lemma blocks_of_tokens content :
  valid_utf8 content = true ->
  blocks_of content =
  flat_map
    (fun t =>
       if is_empty (tok_message t) then []
       else [(tok_lineno t, tok_message t, tok_comments t, @None str)])
    (fst (extract_blocks (readlines content))).
Proof.
  intros Hv. unfold blocks_of, extract_from_file.
  pose proof (extract_blocks_error content) as He. rewrite Hv in He.
  destruct (extract_blocks (readlines content)) as [tokens e].
  simpl in He. now subst e.
Qed.

Lemma blocks_of_not_utf8 content :
  valid_utf8 content = false -> blocks_of content = [].
Proof.
  intros Hv. unfold blocks_of. now rewrite extract_from_file_blocks, Hv.
Qed.

Lemma blocks_of_linenos content :
  NoDup (map extracted_lineno (blocks_of content)).
Proof.
  destruct (valid_utf8 content) eqn:Hv;
    [|rewrite (blocks_of_not_utf8 _ Hv); constructor].
  rewrite (blocks_of_tokens _ Hv). unfold extract_blocks.
  destruct (extract_blocks_loop_linenos (readlines content) 0 None [])
    as [_ Hnd]; [discriminate|].
  induction (fst (extract_blocks_loop 0 None [] (readlines content))) as [|t l IH];
    simpl; [constructor|].
  inversion Hnd as [|? ? Hnot Hnd']; subst.
  destruct (is_empty (tok_message t)); simpl; [auto|].
  constructor; [|auto].
  intros Hin. apply Hnot. clear - Hin.
  induction l as [|u l IH]; simpl in *; [contradiction|].
  destruct (is_empty (tok_message u)); simpl in *; [auto|].
  destruct Hin; auto.
Qed.

Lemma blocks_well_extracted t : Forall well_extracted (blocks t).
Proof.
  unfold blocks. apply Forall_forall. intros b Hb.
  apply in_flat_map in Hb as (f & _ & Hb).
  apply in_map_iff in Hb as (r & <- & Hr).
  destruct (valid_utf8 (snd f)) eqn:Hv;
    [|rewrite (blocks_of_not_utf8 _ Hv) in Hr; contradiction].
  rewrite (blocks_of_tokens _ Hv) in Hr.
  apply in_flat_map in Hr as (tok & _ & Hr).
  destruct (is_empty (tok_message tok)) eqn:E; [contradiction|].
  destruct Hr as [<-|[]]. simpl. auto.
Qed.

(** In a tree, where a path names one file, no place is met twice. *)
Lemma blocks_locations_NoDup (t : tree) :
  NoDup (map fst t) -> NoDup (map block_location (blocks t)).
Proof.
  induction t as [|[f content] t IH]; simpl; intros Hnd; [constructor|].
  inversion Hnd as [|? ? Hnot Hnd']; subst.
  rewrite map_app. apply NoDup_app.
  - rewrite map_map.
    pose proof (blocks_of_linenos content) as Hl.
    induction (blocks_of content) as [|r l IHl];
      simpl; [constructor|].
    inversion Hl as [|? ? Hr Hl']; subst.
    constructor; [|auto].
    intros Hin. apply Hr. apply in_map_iff in Hin as (r' & E & Hr').
    apply in_map_iff. exists r'. split; [|exact Hr'].
    destruct r as [[[? ?] ?] ?], r' as [[[? ?] ?] ?]. simpl in *. congruence.
  - auto.
  - intros loc H1 H2. apply Hnot.
    apply in_map_iff in H1 as (b1 & E1 & Hb1).
    apply in_map_iff in Hb1 as (r1 & <- & _).
    apply in_map_iff in H2 as (b2 & E2 & Hb2).
    unfold blocks in Hb2. apply in_flat_map in Hb2 as (f2 & Hf2 & Hb2).
    apply in_map_iff in Hb2 as (r2 & <- & _).
    destruct r1 as [[[? ?] ?] ?], r2 as [[[? ?] ?] ?]. simpl in *.
    subst loc. injection E2 as E2 _. rewrite <- E2.
    now apply in_map.
Qed.

Lemma extract_file_blocks c f :
  extract_file c f =
  if valid_utf8 (snd f)
  then inr (fold_left add_block (map (pair (fst f)) (blocks_of (snd f))) c)
  else inl UnicodeDecodeError.
Proof.
  unfold extract_file. rewrite extract_from_file_blocks.
  destruct (valid_utf8 (snd f)); [|reflexivity]. f_equal.
  generalize (blocks_of (snd f)). intros l. revert c.
  induction l as [|r l IH]; intros c; simpl; [reflexivity|].
  rewrite IH. destruct r as [[[? ?] ?] ?]. reflexivity.
Qed.

Lemma extract_files_blocks t :
  forall c,
    extract_files c t =
    if forallb (fun f => valid_utf8 (snd f)) t
    then inr (fold_left add_block (blocks t) c)
    else inl UnicodeDecodeError.
Proof.
  induction t as [|f t IH]; intros c; simpl; [reflexivity|].
  rewrite extract_file_blocks.
  destruct (valid_utf8 (snd f)); [|reflexivity]. simpl.
  rewrite IH. destruct (forallb _ t); [|reflexivity].
  now rewrite fold_left_app.
Qed.

(** [extract] adds the blocks of the files one after the other when every
    file is text in UTF-8, and raises otherwise. *)
Lemma extract_as_fold t :
  extract t =
  if forallb (fun f => valid_utf8 (snd f)) t
  then inr (fold_left add_block (blocks t) (new_catalog None 2))
  else inl UnicodeDecodeError.
Proof. apply extract_files_blocks. Qed.

Lemma extract_utf8 t :
  Forall utf8_file t ->
  extract t = inr (fold_left add_block (blocks t) (new_catalog None 2)).
Proof.
  intros H. rewrite extract_as_fold.
  rewrite Forall_forall in H.
  now rewrite (proj2 (forallb_forall _ _) H).
Qed.

Lemma extract_inr t c :
  extract t = inr c ->
  Forall utf8_file t /\
  c = fold_left add_block (blocks t) (new_catalog None 2).
Proof.
  rewrite extract_as_fold.
  destruct (forallb _ t) eqn:H; [|discriminate].
  intros E. injection E as <-. split; [|reflexivity].
  apply Forall_forall. now apply forallb_forall.
Qed.

Lemma extract_inl t e :
  extract t = inl e ->
  e = UnicodeDecodeError /\ exists f, In f t /\ valid_utf8 (snd f) = false.
Proof.
  rewrite extract_as_fold.
  destruct (forallb _ t) eqn:H; [discriminate|].
  intros E. injection E as <-. split; [reflexivity|].
  clear - H. induction t as [|f t IH]; simpl in H; [discriminate|].
  destruct (valid_utf8 (snd f)) eqn:Hf.
  - destruct (IH H) as (g & Hg & Hv). exists g. split; [now right|exact Hv].
  - exists f. split; [now left|exact Hf].
Qed.

Lemma locations_of_snoc text bs b :
  locations_of text (bs ++ [b]) =
  locations_of text bs ++
  (if String.eqb (block_text b) text then [block_location b] else []).
Proof.
  unfold locations_of. rewrite filter_app, map_app. simpl.
  now destruct (String.eqb (block_text b) text).
Qed.

Lemma NoDup_map_filter {A B} (f : A -> B) (p : A -> bool) l :
  NoDup (map f l) -> NoDup (map f (filter p l)).
Proof.
  induction l as [|x l IH]; simpl; intros H; [constructor|].
  inversion H as [|? ? Hx Hl]; subst.
  destruct (p x); simpl; [|auto].
  constructor; [|auto]. intros Hin. apply Hx.
  apply in_map_iff in Hin as (y & E & Hy). apply filter_In in Hy as [Hy _].
  apply in_map_iff. eauto.
Qed.

Lemma add_block_step c bs b :
  extracted_so_far c bs ->
  well_extracted b ->
  NoDup (map block_location (bs ++ [b])) ->
  extracted_so_far (add_block c b) (bs ++ [b]).
Proof.
  intros (Hget & Hnd & Hkeys) Hb Hloc.
  destruct b as [f [[[lineno message] comments] context]].
  destruct Hb as [Hne ->]. unfold add_block, add, setitem. simpl.
  assert (Hfresh : NoDup (locations_of message bs ++ [(f, lineno)])).
  { pose proof (NoDup_map_filter block_location
                  (fun b => String.eqb (block_text b) message) _ Hloc) as H.
    rewrite filter_app, map_app in H. simpl in H.
    now rewrite String.eqb_refl in H. }
  pose proof (Hget message) as Hm. unfold key_for. simpl.
  destruct (dict_get key_eqb (messages c) (message, None)) as [current|] eqn:Hcur.
  - (* the text is known: one more place for its entry *)
    destruct Hm as (Hid & Hlocs & Hnonempty).
    simpl. split; [|split].
    + intros text. rewrite locations_of_snoc. simpl.
      destruct (String.eqb_spec message text) as [<-|Hdiff].
      * rewrite (dict_get_set_same _ key_eqb_spec). simpl.
        change (distinct location_eqb [(f, lineno)]) with [(f, lineno)].
        rewrite Hlocs, (distinct_NoDup_id _ location_eqb_spec _ Hfresh).
        repeat split; auto. now destruct (locations_of message bs).
      * rewrite (dict_get_set_other _ key_eqb_spec) by congruence.
        rewrite app_nil_r. apply Hget.
    + now apply dict_set_NoDup; [apply key_eqb_spec|].
    + intros k m Hin.
      apply (In_dict_set _ key_eqb_spec) in Hin as [E|Hin]; [|auto].
      injection E as Ek Em. subst k m. simpl. rewrite Hid.
      apply (dict_get_In _ key_eqb_spec) in Hcur.
      destruct (Hkeys _ _ Hcur) as (_ & Hs & Hf & Hc & Ht & _ & _).
      split; [reflexivity|]. unfold plain_entry. simpl.
      rewrite Hs, Hf, Hc. rewrite Hid in Ht.
      repeat split; auto; apply distinct_NoDup;
        auto using location_eqb_spec, String.eqb_spec.
  - (* a new text: a new entry, at the end *)
    assert (Hset : setitem c (Singular message)
              (Message_init (Singular message) SNone [(f, lineno)] false comments [] [] None)
            = with_messages c (dict_set key_eqb (messages c) (message, None)
                (Message_init (Singular message) SNone [(f, lineno)] false comments [] [] None))).
    { unfold setitem, key_for. simpl. rewrite Hcur.
      destruct message; [discriminate|reflexivity]. }
    unfold setitem, key_for in Hset. simpl in Hset. rewrite Hcur in Hset.
    rewrite Hset. clear Hset. simpl. split; [|split].
    + intros text. rewrite locations_of_snoc. simpl.
      destruct (String.eqb_spec message text) as [<-|Hdiff].
      * rewrite (dict_get_set_same _ key_eqb_spec). simpl.
        rewrite Hm. simpl. repeat split; auto. discriminate.
      * rewrite (dict_get_set_other _ key_eqb_spec) by congruence.
        rewrite app_nil_r. apply Hget.
    + now apply dict_set_NoDup; [apply key_eqb_spec|].
    + intros k m Hin.
      apply (In_dict_set _ key_eqb_spec) in Hin as [E|Hin]; [|auto].
      injection E as Ek Em. subst k m.
      split; [reflexivity|]. unfold plain_entry. simpl.
      rewrite Hne. repeat split; auto; apply distinct_NoDup;
        auto using location_eqb_spec, String.eqb_spec.
Qed.

Lemma fold_add_block bs2 :
  forall bs1 c,
    extracted_so_far c bs1 ->
    Forall well_extracted bs2 ->
    NoDup (map block_location (bs1 ++ bs2)) ->
    extracted_so_far (fold_left add_block bs2 c) (bs1 ++ bs2).
Proof.
  induction bs2 as [|b bs2 IH]; intros bs1 c Hc Hw Hnd; simpl.
  - now rewrite app_nil_r.
  - inversion Hw as [|? ? Hb Hw']; subst.
    replace (bs1 ++ b :: bs2) with ((bs1 ++ [b]) ++ bs2) in *
      by (rewrite <- app_assoc; reflexivity).
    apply IH; [|exact Hw'|exact Hnd].
    apply add_block_step; [exact Hc|exact Hb|].
    rewrite map_app in Hnd. now apply NoDup_app_remove_r in Hnd.
Qed.

Lemma blocks_extracted_so_far (t : tree) :
  NoDup (map fst t) ->
  extracted_so_far (fold_left add_block (blocks t) (new_catalog None 2))
    (blocks t).
Proof.
  intros Hnd.
  apply (fold_add_block (blocks t) [] (new_catalog None 2)).
  - split; [intros text; reflexivity|].
    split; [constructor|intros k m []].
  - apply blocks_well_extracted.
  - now apply blocks_locations_NoDup.
Qed.

Lemma extract_extracted_so_far (t : tree) c :
  NoDup (map fst t) -> extract t = inr c -> extracted_so_far c (blocks t).
Proof.
  intros Hnd E. apply extract_inr in E as [_ ->].
  now apply blocks_extracted_so_far.
Qed.

(** What extraction makes is a template: the catalogs the synchronizer is
    stated for include it. *)
Lemma extract_is_template (t : tree) c :
  NoDup (map fst t) -> extract t = inr c -> template_catalog c.
Proof.
  intros Hnd E.
  destruct (extract_extracted_so_far t c Hnd E) as (Hget & Hkeys & Hplain).
  split; [split; [exact Hkeys|]|].
  - intros k m Hin. destruct (Hplain k m Hin) as (-> & Hs & Hf & Hc & Ht & Hl & Ha).
    unfold msg_key, key_for, well_shaped. rewrite Hc, Hs.
    repeat split; auto.
    specialize (Hget (id_text (m_id m))).
    rewrite (In_dict_get _ key_eqb_spec _ _ _ Hkeys Hin) in Hget.
    destruct Hget as (-> & _). reflexivity.
  - intros k m Hin. destruct (Hplain k m Hin) as (_ & Hs & Hf & _).
    now rewrite Hs, Hf.
Qed.

(** A text that was met has one entry, with the places where it was. *)
Lemma extracted_once c (bs : list (str * extracted)) text :
  extracted_so_far c bs ->
  locations_of text bs <> [] ->
  exists m,
    dict_get key_eqb (messages c) (text, None) = Some m /\
    m_id m = Singular text /\
    m_locations m = locations_of text bs /\
    entries_with_text c text = 1.
Proof.
  intros (Hget & Hkeys & Hplain) Hocc.
  assert (Hkey : forall k m, In (k, m) (messages c) ->
                   k = (id_text (m_id m), None))
    by (intros k m H; now apply Hplain).
  clear Hplain. specialize (Hget text).
  destruct (dict_get key_eqb (messages c) (text, None)) as [m|] eqn:Hm;
    [|contradiction].
  destruct Hget as (Hid & Hlocs & _).
  exists m. repeat split; auto.
  apply (dict_get_In _ key_eqb_spec) in Hm.
  unfold entries_with_text. revert Hkeys Hkey Hm.
  generalize (messages c). intros l.
  induction l as [|[k m'] l IH]; simpl; intros Hkeys Hkey Hm; [contradiction|].
  inversion Hkeys as [|? ? Hnot Hkeys']; subst.
  destruct Hm as [E|Hm].
  - injection E as -> ->. rewrite Hid. simpl. rewrite String.eqb_refl. simpl.
    f_equal. apply length_zero_iff_nil.
    destruct (filter _ l) as [|[k' m''] r] eqn:Hf; [reflexivity|exfalso].
    assert (Hin : In (k', m'') (filter
      (fun km => String.eqb (id_text (m_id (snd km))) text) l))
      by (rewrite Hf; now left).
    apply filter_In in Hin as [Hin Heq]. simpl in Heq.
    apply String.eqb_eq in Heq. apply Hnot.
    pose proof (Hkey k' m'' (or_intror Hin)) as Ek. rewrite Heq in Ek.
    subst k'. change (text, None) with (fst ((text, @None str), m'')).
    now apply in_map.
  - destruct (String.eqb_spec (id_text (m_id m')) text) as [E|_].
    + exfalso. apply Hnot. rewrite (Hkey k m' (or_introl eq_refl)), E.
      change (text, None) with (fst ((text, @None str), m)). now apply in_map.
    + apply IH; auto.
Qed.

(** C4.  Extraction ends in one of two ways.  When every file is text in
    UTF-8, it makes a template, in which a text that is met, in however
    many files and however often in a file, has exactly one entry, whose
    locations are all the places where the text was met, in the order of
    the visit; the text of a block is taken without the blanks at the end
    of its lines, those of Unicode included, so that [Hello] followed by a
    no-break space is [Hello].  When a file is not text in UTF-8,
    extraction raises [UnicodeDecodeError] and makes no template. *)
Theorem extract_deduplicates :
  forall (t : tree) (text : str),
    NoDup (map fst t) ->
    match extract t with
    | inr template =>
        Forall utf8_file t /\
        (occurrences t text <> [] ->
         exists m,
           dict_get key_eqb (messages template) (text, None) = Some m /\
           m_id m = Singular text /\
           m_locations m = occurrences t text /\
           entries_with_text template text = 1) /\
        (occurrences t text = [] ->
         dict_get key_eqb (messages template) (text, None) = None)
    | inl e =>
        e = UnicodeDecodeError /\
        exists f, In f t /\ valid_utf8 (snd f) = false
    end /\
    (exists template,
       extract nbsp_tree = inr template /\
       map fst (messages template) = [("Hello", None)] /\
       occurrences nbsp_tree "Hello"
       = [("en-US/index.md", 1); ("en-US/index.md", 3)]) /\
    extract latin1_tree = inl UnicodeDecodeError.
Proof.
  intros t text Hnd.
  split; [|split; [eexists; repeat split; reflexivity|reflexivity]].
  destruct (extract t) as [e|template] eqn:E; [now apply extract_inl|].
  pose proof (extract_extracted_so_far t template Hnd E) as Hso.
  apply extract_inr in E as [Hutf _].
  split; [exact Hutf|]. split.
  - intros Hocc. now apply extracted_once.
  - intros Hocc. destruct Hso as (Hget & _). specialize (Hget text).
    fold (occurrences t text) in Hget.
    destruct (dict_get key_eqb (messages template) (text, None)); [|reflexivity].
    now destruct Hget as (_ & _ & Hne).
Qed.

Lemma extract_deduplicates_witness :
  exists template m,
    extract sample_tree = inr template /\
    dict_get key_eqb (messages template) ("y", None) = Some m /\
    m_id m = Singular "y" /\
    m_locations m =
      [("en-US/index.md", 3); ("en-US/guide/index.md", 1);
       ("en-US/guide/index.md", 5)] /\
    entries_with_text template "y" = 1.
Proof.
  assert (Hnd : NoDup (map fst sample_tree))
    by (repeat constructor; simpl; intuition discriminate).
  pose proof (extract_deduplicates sample_tree "y" Hnd) as [H _].
  destruct (extract sample_tree) as [e|template] eqn:E; [discriminate E|].
  destruct H as (_ & H & _).
  destruct H as (m & Hm & Hid & Hlocs & Hone); [vm_compute; discriminate|].
  exists template, m. repeat split; auto.
Defined.

(** ** The completion gate *)

Lemma count_translated_present template items :
  forall nb,
    po_strings items ->
    (forall k m, In (k, m) items ->
                 dict_get key_eqb (messages template) k <> None) ->
    count_translated template items nb =
    inr (nb + List.length (filter (counts_as_translated template) items)).
Proof.
  induction items as [|[k m] items IH]; intros nb Hpo Hkeys; simpl.
  - f_equal. lia.
  - inversion Hpo as [|? ? Hm Hpo']; subst. simpl in Hm.
    assert (Hrest : forall k m, In (k, m) items ->
                      dict_get key_eqb (messages template) k <> None)
      by (intros; eapply Hkeys; right; eauto).
    unfold counts_as_translated at 1. simpl.
    destruct (dict_get key_eqb (messages template) k) as [tm|] eqn:Hk;
      [|exfalso; apply (Hkeys k m); [now left|exact Hk]].
    destruct (m_fuzzy m); simpl; [now apply IH|].
    destruct (msgstr_eqb (m_string tm) (m_string m)); simpl; [now apply IH|].
    destruct (m_string m) as [|s|forms]; simpl in *; [discriminate| |].
    + destruct (is_blank s); simpl; rewrite IH by assumption;
        apply f_equal; simpl; lia.
    + assert (E1 : existsb (fun x => match x with None => true | Some _ => false end) forms = false).
      { clear - Hm. induction forms as [|[f|] forms IHf]; simpl in *;
          try discriminate; auto. }
      assert (E2 : existsb (fun x => match x with Some f => is_blank f | None => false end) forms
                   = negb (forallb (fun x => match x with Some f => negb (is_blank f) | None => false end) forms)).
      { clear - Hm. induction forms as [|[f|] forms IHf]; simpl in *;
          try discriminate; auto.
        rewrite IHf by assumption. now destruct (is_blank f). }
      rewrite E1, E2. clear E1 E2 Hm.
      destruct (forallb (fun x => match x with Some f => negb (is_blank f) | None => false end) forms);
        simpl; rewrite IH by assumption;
        apply f_equal; simpl; lia.
Qed.

Lemma count_translated_missing template items :
  forall nb,
    po_strings items ->
    (exists k m, In (k, m) items /\
                 dict_get key_eqb (messages template) k = None) ->
    exists k',
      In k' (map fst items) /\
      dict_get key_eqb (messages template) k' = None /\
      count_translated template items nb = inl (KeyError k').
Proof.
  induction items as [|[k m] items IH]; intros nb Hpo (k0 & m0 & Hin & Hk0).
  - contradiction.
  - inversion Hpo as [|? ? Hm Hpo']; subst. simpl in Hm. simpl.
    destruct (dict_get key_eqb (messages template) k) as [tm|] eqn:Hk.
    + assert (Hex : exists k m, In (k, m) items /\
                      dict_get key_eqb (messages template) k = None).
      { destruct Hin as [E|Hin]; [congruence|eauto]. }
      assert (Hnext : forall nb', exists k',
                 (k = k' \/ In k' (map fst items)) /\
                 dict_get key_eqb (messages template) k' = None /\
                 count_translated template items nb' = inl (KeyError k')).
      { intros nb'. destruct (IH nb' Hpo' Hex) as (k' & H1 & H2 & H3). eauto. }
      destruct (m_fuzzy m); [apply Hnext|].
      destruct (msgstr_eqb (m_string tm) (m_string m)); [apply Hnext|].
      destruct (m_string m) as [|s|forms]; simpl in *; [discriminate| |].
      * destruct (is_blank s); apply Hnext.
      * assert (E1 : existsb (fun x => match x with None => true | Some _ => false end) forms = false).
        { clear - Hm. induction forms as [|[f|] forms IHf]; simpl in *;
            try discriminate; auto. }
        rewrite E1. clear E1 Hm.
        destruct (existsb (fun x => match x with Some f => is_blank f | None => false end) forms);
          apply Hnext.
    + exists k. auto.
Qed.

(** C10.  The completion count is defined exactly when every identity of
    the locale catalog is one of the template; for a catalog that holds an
    identity the template does not have, the lookup raises [KeyError], the
    locale gets neither summary nor output, and the exception leaves
    [generate]. *)
Theorem generate_needs_template_keys :
  forall (template catalog : Catalog),
    po_strings (messages catalog) ->
    ((exists nb, count_translated template (messages catalog) 0 = inr nb) <->
     (forall k m, In (k, m) (messages catalog) ->
                  dict_get key_eqb (messages template) k <> None)) /\
    ((exists k m, In (k, m) (messages catalog) /\
                  dict_get key_eqb (messages template) k = None) ->
     exists k',
       In k' (map fst (messages catalog)) /\
       dict_get key_eqb (messages template) k' = None /\
       count_translated template (messages catalog) 0 = inl (KeyError k') /\
       forall total_strings code,
         code <> "en_US" ->
         generate_locale template total_strings code (Readable catalog)
         = ([], Some (KeyError k'))).
Proof.
  intros template catalog Hpo. split; [split|].
  - intros (nb & Hnb) k m Hin Hk.
    destruct (count_translated_missing template (messages catalog) 0 Hpo)
      as (k' & _ & _ & E); [eauto|congruence].
  - intros Hkeys. eexists.
    now apply count_translated_present.
  - intros Hmissing.
    destruct (count_translated_missing template (messages catalog) 0 Hpo Hmissing)
      as (k' & H1 & H2 & H3).
    exists k'. repeat split; auto.
    intros total_strings code Hcode. unfold generate_locale.
    apply String.eqb_neq in Hcode. now rewrite Hcode, H3.
Qed.

Lemma generate_needs_template_keys_witness :
  exists k',
    In k' (map fst (messages stale_catalog)) /\
    dict_get key_eqb (messages template_of_ten) k' = None /\
    count_translated template_of_ten (messages stale_catalog) 0 = inl (KeyError k') /\
    forall total_strings code,
      code <> "en_US" ->
      generate_locale template_of_ten total_strings code (Readable stale_catalog)
      = ([], Some (KeyError k')).
Proof.
  apply (proj2 (generate_needs_template_keys template_of_ten stale_catalog
                  ltac:(repeat constructor))).
  exists ("eleven", None), (snd (entry_of (fun _ => "onze") "eleven")).
  split; [right; left; reflexivity|reflexivity].
Defined.

Lemma count_translated_bound template items :
  forall nb0 nb,
    count_translated template items nb0 = inr nb ->
    nb <= nb0 + List.length items /\
    incl (map fst items) (map fst (messages template)).
Proof.
  induction items as [|[k m] items IH]; intros nb0 nb; simpl.
  - intros [= <-]. split; [lia|intros ? []].
  - destruct (dict_get key_eqb (messages template) k) as [tm|] eqn:Ek;
      [|discriminate].
    assert (Hk : In k (map fst (messages template))).
    { apply (dict_get_In _ key_eqb_spec) in Ek.
      change k with (fst (k, tm)). now apply in_map. }
    assert (Hstep : forall n, n <= nb0 + 1 ->
              count_translated template items n = inr nb ->
              nb <= nb0 + S (List.length items) /\
              incl (k :: map fst items) (map fst (messages template))).
    { intros n Hn H. destruct (IH n nb H) as [Hle Hincl].
      split; [lia|]. intros k' [<-|Hk']; auto. }
    destruct (m_fuzzy m); [apply Hstep; lia|].
    destruct (msgstr_eqb (m_string tm) (m_string m)); [apply Hstep; lia|].
    destruct (m_string m) as [|s|forms].
    + apply Hstep; lia.
    + destruct (is_blank s); apply Hstep; lia.
    + destruct (existsb _ forms); [discriminate|].
      destruct (existsb _ forms); apply Hstep; lia.
Qed.

Lemma count_translated_at_most_total_aux template catalog nb :
  NoDup (map fst (messages catalog)) ->
  count_translated template (messages catalog) 0 = inr nb ->
  nb <= List.length (messages catalog) /\
  List.length (messages catalog) <= List.length (messages template).
Proof.
  intros Hnd Hcount.
  destruct (count_translated_bound _ _ _ _ Hcount) as [Hle Hincl].
  split; [exact Hle|].
  rewrite <- (length_map fst (messages catalog)),
          <- (length_map fst (messages template)).
  now apply NoDup_incl_length.
Qed.

Lemma gate_agrees_200 : gate_agrees 200 = true.
Proof. vm_compute. reflexivity. Qed.

Lemma gate_agrees_sound bound :
  gate_agrees bound = true ->
  forall nb total,
    1 <= total <= bound -> nb <= total ->
    gate_excludes nb total = (200 * nb <? 179 * total).
Proof.
  unfold gate_agrees. intros H nb total Htotal Hnb.
  rewrite forallb_forall in H.
  assert (Hin : In total (seq 1 bound)) by (apply in_seq; lia).
  apply H in Hin. rewrite forallb_forall in Hin.
  assert (Hin' : In nb (seq 0 (S total))) by (apply in_seq; lia).
  apply Hin, Bool.eqb_prop in Hin'. rewrite Hin'.
  destruct (Nat.ltb_spec (200 * nb) (179 * total));
    [apply Z.ltb_lt|apply Z.ltb_ge]; lia.
Qed.

Lemma gate_excludes_below_895 nb total :
  1 <= total <= 200 -> nb <= total ->
  gate_excludes nb total = (200 * nb <? 179 * total).
Proof. exact (gate_agrees_sound 200 gate_agrees_200 nb total). Qed.

(** How [generate_locale] goes on from the count. *)
Lemma generate_locale_counted template catalog code nb :
  let total := List.length (messages template) in
  let pct := (float_of_nat nb / float_of_nat total)%float in
  code <> "en_US" -> total <> 0 ->
  count_translated template (messages catalog) 0 = inr nb ->
  generate_locale template total code (Readable catalog) =
  if gate_excludes nb total
  then ([Print (Skipped code nb total (round0 (pct * 100)%float))], None)
  else regenerated code nb total (round0 (pct * 100)%float) catalog.
Proof.
  intros total pct Hcode Htotal Hcount. unfold generate_locale.
  apply String.eqb_neq in Hcode. rewrite Hcode, Hcount.
  destruct total as [|n] eqn:Et; [congruence|]. fold pct.
  unfold gate_excludes. fold pct.
  destruct (PrimFloat.ltb (round2 pct) COMPLETION_CUTOFF); [reflexivity|].
  unfold regenerated.
  destruct (po2text catalog) as [written [e|]]; simpl;
    rewrite ?app_nil_r; reflexivity.
Qed.



(** ** The regenerator *)

Lemma choose_msg_singular m :
  is_singular m = true -> choose_msg m = inr (Singular (emitted_text m)).
Proof.
  unfold is_singular, choose_msg, emitted_text, is_blank.
  destruct (m_id m) as [i|? ?]; [|discriminate].
  destruct (m_string m) as [|s|?]; try discriminate. intros _.
  destruct (m_fuzzy m); simpl; [reflexivity|].
  now destruct (is_empty (str_strip s)).
Qed.

Lemma collect_locations_singular m :
  is_singular m = true ->
  forall locs files,
    collect_locations m locs files =
    inr (append_all files
           (map (fun x => (path_name (fst x), (snd x, Singular (emitted_text m)))) locs)).
Proof.
  intros Hm. induction locs as [|x locs IH]; intros files; simpl.
  - reflexivity.
  - rewrite (choose_msg_singular m Hm). apply IH.
Qed.

Lemma collect_messages_singular ms :
  (forall k m, In (k, m) ms -> is_singular m = true) ->
  forall files,
    collect_messages ms files = inr (append_all files (all_occurrences ms)).
Proof.
  induction ms as [|[k m] ms IH]; intros Hs files; simpl.
  - reflexivity.
  - rewrite (collect_locations_singular m (Hs k m (or_introl eq_refl))).
    rewrite IH by (intros; eapply Hs; right; eauto).
    unfold append_all, all_occurrences. simpl.
    now rewrite fold_left_app.
Qed.

Lemma string_eqb_spec' : forall x y : str, reflect (x = y) (String.eqb x y).
Proof. exact String.eqb_spec. Qed.

Lemma files_append_get files name v name' :
  dict_get String.eqb (files_append files name v) name' =
  if String.eqb name' name
  then Some (match dict_get String.eqb files name with
             | Some l => l ++ [v]
             | None => [v]
             end)
  else dict_get String.eqb files name'.
Proof.
  unfold files_append.
  destruct (String.eqb_spec name' name) as [->|Hne].
  - destruct (dict_get String.eqb files name);
      apply (dict_get_set_same _ string_eqb_spec').
  - destruct (dict_get String.eqb files name);
      now apply (dict_get_set_other _ string_eqb_spec').
Qed.

Lemma files_append_NoDup files name v :
  NoDup (map fst files) -> NoDup (map fst (files_append files name v)).
Proof.
  intros H. unfold files_append.
  destruct (dict_get String.eqb files name);
    now apply (dict_set_NoDup _ string_eqb_spec').
Qed.

Lemma append_all_get es :
  forall files name,
    dict_get String.eqb (append_all files es) name =
    match dict_get String.eqb files name with
    | Some l => Some (l ++ group name es)
    | None => match group name es with [] => None | g => Some g end
    end.
Proof.
  unfold append_all, group.
  induction es as [|[n v] es IH]; intros files name; simpl.
  - destruct (dict_get String.eqb files name); [now rewrite app_nil_r|reflexivity].
  - rewrite IH, files_append_get. rewrite (String.eqb_sym n name).
    destruct (String.eqb_spec name n) as [->|Hne]; simpl.
    + destruct (dict_get String.eqb files n); [now rewrite <- app_assoc|reflexivity].
    + reflexivity.
Qed.

Lemma append_all_NoDup es :
  forall files, NoDup (map fst files) -> NoDup (map fst (append_all files es)).
Proof.
  unfold append_all. induction es as [|e es IH]; intros files H; simpl.
  - exact H.
  - apply IH. now apply files_append_NoDup.
Qed.

Lemma dict_get_map_values {K V W} (eqb : K -> K -> bool) (f : V -> W)
    (d : list (K * V)) k :
  dict_get eqb (map (fun kv => (fst kv, f (snd kv))) d) k =
  option_map f (dict_get eqb d k).
Proof.
  induction d as [|[k' v] d IH]; simpl; [reflexivity|].
  now destruct (eqb k k').
Qed.

Lemma In_insert_by_line x y l :
  In x (insert_by_line y l) <-> x = y \/ In x l.
Proof.
  induction l as [|z l IH]; simpl.
  - intuition.
  - destruct (fst y <=? fst z); simpl; [intuition|].
    rewrite IH. intuition.
Qed.

Lemma In_sorted_by_line x l : In x (sorted_by_line l) <-> In x l.
Proof.
  unfold sorted_by_line. induction l as [|y l IH]; simpl; [tauto|].
  rewrite In_insert_by_line, IH. intuition.
Qed.

Lemma insert_by_line_ascending y l :
  ascending l -> ascending (insert_by_line y l).
Proof.
  unfold ascending. induction l as [|z l IH]; simpl; intros H.
  - repeat constructor.
  - destruct (Nat.leb_spec (fst y) (fst z)).
    + constructor; [exact H|]. now constructor.
    + inversion H as [|? ? Hl Hz]; subst. constructor; [auto|].
      destruct l as [|w l]; simpl.
      * constructor. lia.
      * destruct (fst y <=? fst w); constructor; [lia|].
        now inversion Hz.
Qed.

Lemma sorted_by_line_ascending l : ascending (sorted_by_line l).
Proof.
  unfold sorted_by_line. induction l as [|y l IH]; simpl.
  - constructor.
  - now apply insert_by_line_ascending.
Qed.

(** Every file lists its texts by ascending line. *)
Lemma groups_of_ascending c name msgs :
  In (name, msgs) (groups_of c) -> ascending msgs.
Proof.
  unfold groups_of. intros Hin.
  apply in_map_iff in Hin as ([n l] & E & _). injection E as _ <-.
  apply sorted_by_line_ascending.
Qed.

Lemma write_messages_singular msgs :
  (forall x, In x msgs -> exists text, snd x = Singular text) ->
  forall fp, write_messages fp msgs = ((fp ++ render msgs)%string, None).
Proof.
  induction msgs as [|[line v] msgs IH]; intros Hs fp; simpl.
  - now rewrite string_app_nil_r.
  - destruct (Hs (line, v) (or_introl eq_refl)) as (text & E). simpl in E.
    subst v. rewrite IH by (intros; apply Hs; now right). simpl.
    now rewrite !string_app_assoc.
Qed.

Lemma write_files_ok files :
  (forall k msgs, In (k, msgs) files ->
     file_name_ok k = true /\
     forall x, In x msgs -> exists text, snd x = Singular text) ->
  write_files files = (map render_file files, None).
Proof.
  induction files as [|[k msgs] files IH]; intros H; simpl; [reflexivity|].
  destruct (H k msgs (or_introl eq_refl)) as [Hk Hs].
  unfold file_name_ok in Hk. apply negb_true_iff in Hk. rewrite Hk.
  rewrite (write_messages_singular msgs Hs). simpl.
  rewrite IH by (intros; apply H; now right). reflexivity.
Qed.

Lemma groups_of_get c name :
  dict_get String.eqb (groups_of c) name =
  match group name (all_occurrences (messages c)) with
  | [] => None
  | g => Some (sorted_by_line g)
  end.
Proof.
  unfold groups_of. rewrite dict_get_map_values, append_all_get. simpl.
  now destruct (group name (all_occurrences (messages c))).
Qed.

Lemma groups_of_NoDup c : NoDup (map fst (groups_of c)).
Proof.
  unfold groups_of. rewrite map_map. simpl.
  apply append_all_NoDup. constructor.
Qed.

Lemma In_group name es v :
  In v (group name es) <-> In (name, v) es.
Proof.
  unfold group. rewrite in_map_iff. split.
  - intros ([n v'] & E & Hin). simpl in E. subst v'.
    apply filter_In in Hin as [Hin Hn]. simpl in Hn.
    apply String.eqb_eq in Hn. now subst n.
  - intros Hin. exists (name, v). split; [reflexivity|].
    apply filter_In. split; [exact Hin|]. simpl. apply String.eqb_refl.
Qed.

Lemma In_all_occurrences ms name line v :
  In (name, (line, v)) (all_occurrences ms) <->
  exists k m path,
    In (k, m) ms /\ In (path, line) (m_locations m) /\
    name = path_name path /\ v = Singular (emitted_text m).
Proof.
  unfold all_occurrences, occurrences_of. rewrite in_flat_map. split.
  - intros ([k m] & Hkm & Hin). simpl in Hin.
    apply in_map_iff in Hin as ([path line'] & E & Hloc). simpl in E.
    injection E as <- <- <-. exists k, m, path. auto.
  - intros (k & m & path & Hkm & Hloc & -> & ->).
    exists (k, m). split; [exact Hkm|]. simpl.
    apply in_map_iff. exists (path, line). auto.
Qed.

(** The members of a file are occurrences that bear its name. *)
Lemma In_groups_of c name msgs :
  In (name, msgs) (groups_of c) ->
  msgs = sorted_by_line (group name (all_occurrences (messages c))) /\
  group name (all_occurrences (messages c)) <> [].
Proof.
  intros Hin.
  apply (In_dict_get _ string_eqb_spec' _ _ _ (groups_of_NoDup c)) in Hin.
  rewrite groups_of_get in Hin.
  destruct (group name (all_occurrences (messages c))); [discriminate|].
  injection Hin as <-. split; [reflexivity|discriminate].
Qed.

Lemma po2text_regenerable c :
  regenerable c ->
  po2text_files c = inr (groups_of c) /\
  po2text c = (map render_file (groups_of c), None).
Proof.
  intros Hc.
  assert (Hfiles : po2text_files c = inr (groups_of c)).
  { unfold po2text_files.
    rewrite collect_messages_singular by (intros k m H; now apply (Hc k m)).
    reflexivity. }
  split; [exact Hfiles|].
  unfold po2text. rewrite Hfiles. apply write_files_ok.
  intros name msgs Hin. apply In_groups_of in Hin as [-> Hne]. split.
  - destruct (group name (all_occurrences (messages c))) as [|[line v] g] eqn:Hg;
      [congruence|].
    assert (Hin : In (line, v) (group name (all_occurrences (messages c))))
      by (rewrite Hg; now left).
    apply In_group, In_all_occurrences in Hin
      as (k & m & path & Hkm & Hloc & -> & _).
    now apply (proj2 (Hc k m Hkm) (path, line)).
  - intros [line v] Hin. apply In_sorted_by_line, In_group in Hin.
    apply In_all_occurrences in Hin as (k & m & path & _ & _ & _ & ->).
    simpl. eauto.
Qed.





Lemma render_In msgs line v :
  In (line, v) msgs ->
  exists before after,
    render msgs = (before ++ id_text v ++ nl ++ nl ++ after)%string.
Proof.
  induction msgs as [|[l w] msgs IH]; simpl; [contradiction|].
  intros [E|Hin].
  - injection E as -> ->. exists EmptyString, (render msgs). reflexivity.
  - destruct (IH Hin) as (before & after & ->).
    exists (id_text w ++ nl ++ nl ++ before)%string, after.
    now rewrite !string_app_assoc.
Qed.

Lemma occurrence_in_group c k m path line :
  In (k, m) (messages c) ->
  In (path, line) (m_locations m) ->
  exists msgs,
    dict_get String.eqb (groups_of c) (path_name path) = Some msgs /\
    In (line, Singular (emitted_text m)) msgs.
Proof.
  intros Hkm Hloc.
  assert (Hin : In (line, Singular (emitted_text m))
                  (group (path_name path) (all_occurrences (messages c)))).
  { apply In_group, In_all_occurrences. exists k, m, path. auto. }
  rewrite groups_of_get.
  destruct (group (path_name path) (all_occurrences (messages c))) as [|e g] eqn:Hg;
    [contradiction|].
  eexists. split; [reflexivity|]. now apply In_sorted_by_line.
Qed.

(** C6.  For a catalog of singular messages, every location of every entry
    gets its text into the file that [po2text] writes for it: the
    translation when the entry is not fuzzy and the translation is not
    blank, the id text otherwise, followed by two newlines.  Blank is
    what [str.strip] empties: a translation that is one ideographic space
    (U+3000) is blank, and the id text is written for it. *)
Theorem po2text_never_drops :
  (forall (c : Catalog),
    regenerable c ->
    snd (po2text c) = None /\
    forall k m path line,
      In (k, m) (messages c) ->
      In (path, line) (m_locations m) ->
      exists msgs before after,
        po2text_files c = inr (groups_of c) /\
        dict_get String.eqb (groups_of c) (path_name path) = Some msgs /\
        In (line, Singular (emitted_text m)) msgs /\
        In (path_name path, render msgs) (fst (po2text c)) /\
        render msgs = (before ++ emitted_text m ++ nl ++ nl ++ after)%string) /\
  po2text blank_yx_catalog
  = ([("index.md", ("x" ++ nl ++ nl ++ "b" ++ nl ++ nl)%string)], None).
Proof.
  split; [|reflexivity].
  intros c Hc. destruct (po2text_regenerable c Hc) as [Hfiles Hpo].
  rewrite Hpo. split; [reflexivity|].
  intros k m path line Hkm Hloc.
  destruct (occurrence_in_group c k m path line Hkm Hloc) as (msgs & Hget & Hin).
  destruct (render_In msgs line _ Hin) as (before & after & Hrender).
  exists msgs, before, after. repeat split; auto.
  apply (dict_get_In _ string_eqb_spec') in Hget. simpl.
  change (path_name path, render msgs) with (render_file (path_name path, msgs)).
  now apply in_map.
Qed.

Lemma po2text_never_drops_witness :
  exists msgs before after,
    po2text_files same_name_catalog = inr (groups_of same_name_catalog) /\
    dict_get String.eqb (groups_of same_name_catalog) "index.md" = Some msgs /\
    In (1, Singular "x") msgs /\
    In ("index.md", render msgs) (fst (po2text same_name_catalog)) /\
    render msgs = (before ++ "x" ++ nl ++ nl ++ after)%string.
Proof.
  assert (Hc : regenerable same_name_catalog).
  { intros k m Hin. simpl in Hin.
    destruct Hin as [E|[E|[]]]; injection E as <- <-;
      (split; [reflexivity|]); intros x [<-|[]]; reflexivity. }
  apply (proj2 (proj1 po2text_never_drops same_name_catalog Hc)
           ("x", None) (snd (translated_entry "x" "" [("en-US/install/index.md", 1)]))
           "en-US/install/index.md" 1).
  - now left.
  - now left.
Defined.



Lemma extract_two_blocks f :
  extract [(f, two_blocks)] = inr (two_blocks_template f).
Proof. reflexivity. Qed.

(** The entries of a catalog that has two keys, each once. *)
Lemma two_keys {V} (l : list (key * V)) (ka kb : key) :
  ka <> kb ->
  NoDup (map fst l) ->
  (forall k, In k (map fst l) <-> k = ka \/ k = kb) ->
  exists va vb, l = [(ka, va); (kb, vb)] \/ l = [(kb, vb); (ka, va)].
Proof.
  intros Hab Hnd Hkeys.
  destruct l as [|[k1 v1] l].
  { exfalso. apply (proj2 (Hkeys ka)). now left. }
  destruct l as [|[k2 v2] l].
  { exfalso. simpl in Hkeys.
    destruct (proj2 (Hkeys ka) (or_introl eq_refl)) as [<-|[]].
    destruct (proj2 (Hkeys kb) (or_intror eq_refl)) as [E|[]]. congruence. }
  destruct l as [|[k3 v3] l].
  - simpl in *. inversion Hnd as [|? ? Hnot _]; subst.
    assert (H12 : k1 <> k2) by (intros ->; apply Hnot; now left).
    destruct (proj1 (Hkeys k1) (or_introl eq_refl)) as [-> | ->];
      destruct (proj1 (Hkeys k2) (or_intror (or_introl eq_refl))) as [-> | ->];
      try congruence.
    + exists v1, v2. now left.
    + exists v2, v1. now right.
  - exfalso. simpl in *.
    inversion Hnd as [|? ? Hnot1 Hnd']; subst.
    inversion Hnd' as [|? ? Hnot2 _]; subst.
    assert (H12 : k1 <> k2) by (intros ->; apply Hnot1; now left).
    assert (H13 : k1 <> k3) by (intros ->; apply Hnot1; right; now left).
    assert (H23 : k2 <> k3) by (intros ->; apply Hnot2; now left).
    destruct (proj1 (Hkeys k1) (or_introl eq_refl)) as [-> | ->];
      destruct (proj1 (Hkeys k2) (or_intror (or_introl eq_refl))) as [-> | ->];
      destruct (proj1 (Hkeys k3) (or_intror (or_intror (or_introl eq_refl))))
        as [-> | ->];
      congruence.
Qed.

(** C5, as the code has it.  For the template extracted from one file with
    the blocks [a] at line 1 and [b] at line 3, and a locale catalog that
    translates it in full, without fuzzy entries, in whatever order it has
    its entries, [po2text] writes for that file the translation of [a], two
    newlines, the translation of [b], two newlines: in the order of the
    lines, each text followed by the blank line that ends a block.  The
    content is ["a\n\nb\n\n"] when the translations are the source texts
    themselves. *)
Theorem po2text_round_trip :
  forall (f : str) (c template : Catalog),
    file_name_ok (path_name f) = true ->
    extract [(f, two_blocks)] = inr template ->
    full_translation c template ->
    exists ta tb,
      translation_of c "a" = Some ta /\
      translation_of c "b" = Some tb /\
      po2text_files c =
        inr [(path_name f, [(1, Singular ta); (3, Singular tb)])] /\
      po2text c = ([(path_name f, (ta ++ nl ++ nl ++ tb ++ nl ++ nl)%string)], None) /\
      (ta = "a" -> tb = "b" ->
       po2text c = ([(path_name f, ("a" ++ nl ++ nl ++ "b" ++ nl ++ nl)%string)], None)).
Proof.
  intros f c template Hf Ht (Hnd & Hkeys & Hc).
  rewrite extract_two_blocks in Ht. injection Ht as <-.
  destruct (two_keys (messages c) ("a", None) ("b", None)) as (ma & mb & Ems);
    [discriminate|exact Hnd| |].
  { intros k. rewrite Hkeys. simpl. intuition. }
  assert (Hina : In (("a", None), ma) (messages c))
    by (destruct Ems as [Ems|Ems]; rewrite Ems; simpl; auto).
  assert (Hinb : In (("b", None), mb) (messages c))
    by (destruct Ems as [Ems|Ems]; rewrite Ems; simpl; auto).
  destruct (Hc _ _ Hina) as (tma & Etma & Eida & Eloca & Efa & ta & Esa & Hta).
  destruct (Hc _ _ Hinb) as (tmb & Etmb & Eidb & Elocb & Efb & tb & Esb & Htb).
  simpl in Etma, Etmb. injection Etma as <-. injection Etmb as <-.
  simpl in Eloca, Elocb.
  exists ta, tb.
  assert (Hfiles : po2text_files c =
            inr [(path_name f, [(1, Singular ta); (3, Singular tb)])]).
  { unfold po2text_files. unfold is_blank in Hta, Htb.
    destruct Ems as [Ems|Ems]; rewrite Ems; simpl;
      rewrite Eloca, Elocb; simpl; unfold choose_msg;
      rewrite Efa, Esa, Hta, Efb, Esb, Htb; simpl;
      unfold files_append; simpl; rewrite !String.eqb_refl; reflexivity. }
  assert (Hpo : po2text c =
            ([(path_name f, (ta ++ nl ++ nl ++ tb ++ nl ++ nl)%string)], None)).
  { unfold po2text. rewrite Hfiles. simpl.
    unfold file_name_ok in Hf. apply negb_true_iff in Hf. rewrite Hf.
    now rewrite !string_app_assoc. }
  assert (Hga : translation_of c "a" = Some ta).
  { unfold translation_of.
    destruct Ems as [Ems|Ems]; rewrite Ems; simpl; now rewrite Esa. }
  assert (Hgb : translation_of c "b" = Some tb).
  { unfold translation_of.
    destruct Ems as [Ems|Ems]; rewrite Ems; simpl; now rewrite Esb. }
  repeat split; auto.
  intros -> ->. exact Hpo.
Qed.

Lemma xy_catalog_translates f :
  full_translation
    (mkCatalog
       [translated_entry "b" "y" [(f, 3)]; translated_entry "a" "x" [(f, 1)]]
       [] 2 (Some "fr"))
    (two_blocks_template f).
Proof.
  split; [|split].
  - repeat constructor; simpl; intuition discriminate.
  - intros k. simpl. intuition.
  - intros k m [E|[E|[]]]; injection E as <- <-; simpl;
      eexists; (split; [reflexivity|]); repeat split;
        eexists; split; reflexivity.
Qed.

Lemma po2text_round_trip_witness :
  exists ta tb,
    translation_of yx_catalog "a" = Some ta /\
    translation_of yx_catalog "b" = Some tb /\
    po2text_files yx_catalog =
      inr [("index.md", [(1, Singular ta); (3, Singular tb)])] /\
    po2text yx_catalog = ([("index.md", (ta ++ nl ++ nl ++ tb ++ nl ++ nl)%string)], None) /\
    (ta = "a" -> tb = "b" ->
     po2text yx_catalog = ([("index.md", ("a" ++ nl ++ nl ++ "b" ++ nl ++ nl)%string)], None)).
Proof.
  apply (po2text_round_trip "en-US/index.md" yx_catalog
           (two_blocks_template "en-US/index.md")).
  - reflexivity.
  - reflexivity.
  - apply xy_catalog_translates.
Defined.

(** C5, as the specification words it, fails: a full translation that is
    not fuzzy is written out in its own words, not in those of the source. *)
Lemma po2text_emits_the_translation :
  extract [("en-US/index.md", two_blocks)] =
    inr (two_blocks_template "en-US/index.md") /\
  full_translation xy_catalog (two_blocks_template "en-US/index.md") /\
  po2text xy_catalog = ([("index.md", ("x" ++ nl ++ nl ++ "y" ++ nl ++ nl)%string)], None) /\
  po2text xy_catalog <> ([("index.md", ("a" ++ nl ++ nl ++ "b" ++ nl ++ nl)%string)], None).
Proof.
  split; [reflexivity|]. split; [|split].
  - split; [|split].
    + repeat constructor; simpl; intuition discriminate.
    + intros k. simpl. intuition.
    + intros k m [E|[E|[]]]; injection E as <- <-; simpl;
        eexists; (split; [reflexivity|]); repeat split;
        eexists; split; reflexivity.
  - reflexivity.
  - vm_compute. discriminate.
Qed.

(** ** Failures *)

Lemma for_each_raises {X} (body : X -> list event * option exn) pre d post e :
  (forall x, In x pre -> snd (body x) = None) ->
  snd (body d) = Some e ->
  for_each body (pre ++ d :: post) =
  (flat_map (fun x => fst (body x)) pre ++ fst (body d), Some e).
Proof.
  induction pre as [|x pre IH]; intros Hpre Hd; simpl.
  - destruct (body d) as [evs r]. simpl in *. now subst r.
  - pose proof (Hpre x (or_introl eq_refl)) as Hx.
    rewrite IH by (intros; auto; apply Hpre; now right).
    destruct (body x) as [evs r]. simpl in *. subst r.
    now rewrite app_assoc.
Qed.

Lemma for_each_completes {X} (body : X -> list event * option exn) xs :
  (forall x, In x xs -> snd (body x) = None) ->
  for_each body xs = (flat_map (fun x => fst (body x)) xs, None).
Proof.
  induction xs as [|x xs IH]; intros Hxs; simpl; [reflexivity|].
  pose proof (Hxs x (or_introl eq_refl)) as Hx.
  rewrite IH by (intros; apply Hxs; now right).
  destruct (body x) as [evs r]. simpl in *. now subst r.
Qed.

(** C8, as the code has it.  Neither loop catches anything: when a locale
    fails, in [update] as in [generate], the run ends there with the
    exception.  The locales before it keep what was done for them, the
    locales after it are not looked at, and the exit status is 1; it is 0
    when no locale fails, and then every locale is processed. *)
Theorem failure_ends_the_run :
  forall (babel : release) (template : Catalog),
    (forall pre d post e,
       (forall p, In p pre -> snd (update_locale babel template p) = None) ->
       snd (update_locale babel template d) = Some e ->
       update babel template (pre ++ d :: post) =
         (flat_map (fun p => fst (update_locale babel template p)) pre
            ++ fst (update_locale babel template d), Some e) /\
       exit_status (update babel template (pre ++ d :: post)) = 1) /\
    (forall dirs pre d post e,
       let body := fun p =>
         generate_locale template (List.length (messages template))
           (ld_name p) (ld_po p) in
       sorted_po_files dirs = pre ++ d :: post ->
       (forall p, In p pre -> snd (body p) = None) ->
       snd (body d) = Some e ->
       generate template dirs =
         (flat_map (fun p => fst (body p)) pre ++ fst (body d), Some e) /\
       exit_status (generate template dirs) = 1) /\
    (forall dirs,
       (forall p, In p dirs -> snd (update_locale babel template p) = None) ->
       update babel template dirs =
         (flat_map (fun p => fst (update_locale babel template p)) dirs, None) /\
       exit_status (update babel template dirs) = 0) /\
    (forall dirs,
       let body := fun p =>
         generate_locale template (List.length (messages template))
           (ld_name p) (ld_po p) in
       (forall p, In p (sorted_po_files dirs) -> snd (body p) = None) ->
       generate template dirs =
         (flat_map (fun p => fst (body p)) (sorted_po_files dirs), None) /\
       exit_status (generate template dirs) = 0).
Proof.
  intros babel template. split; [|split; [|split]].
  - intros pre d post e Hpre Hd. unfold update.
    rewrite (for_each_raises _ pre d post e Hpre Hd). now split.
  - intros dirs pre d post e body Hsorted Hpre Hd. unfold generate.
    rewrite Hsorted. fold body.
    rewrite (for_each_raises body pre d post e Hpre Hd). now split.
  - intros dirs Hdirs. unfold update.
    rewrite (for_each_completes _ dirs Hdirs). now split.
  - intros dirs body Hdirs. unfold generate. fold body.
    rewrite (for_each_completes body _ Hdirs). now split.
Qed.

Lemma failure_ends_the_run_witness :
  update OldUserComments template_of_ten ([] ++ broken_dir :: [sound_dir]) =
    (flat_map (fun p => fst (update_locale OldUserComments template_of_ten p)) []
       ++ fst (update_locale OldUserComments template_of_ten broken_dir),
     Some UnicodeDecodeError) /\
  exit_status (update OldUserComments template_of_ten ([] ++ broken_dir :: [sound_dir])) = 1.
Proof.
  apply (proj1 (failure_ends_the_run OldUserComments template_of_ten)
           [] broken_dir [sound_dir] UnicodeDecodeError).
  - intros p [].
  - reflexivity.
Defined.

(** C8, as the specification words it, fails: a catalog file that
    [read_po] cannot decode keeps the locale after it from being processed,
    in [update] and in [generate], though that locale is processed when it
    is alone. *)
Lemma failure_is_not_isolated :
  Forall
    (fun babel =>
       update babel template_of_ten [broken_dir; sound_dir]
         = ([], Some UnicodeDecodeError) /\
       fst (update babel template_of_ten [sound_dir]) <> [])
    [OldUserComments; OldUserCommentsIfAny] /\
  generate template_of_ten [broken_dir; sound_dir] = ([], Some UnicodeDecodeError) /\
  fst (generate template_of_ten [sound_dir]) <> [].
Proof.
  split; [|split; [reflexivity|vm_compute; discriminate]].
  repeat constructor; vm_compute; discriminate.
Qed.

(** ** The synchronizer *)

Lemma dict_set_fresh {K V} (eqb : K -> K -> bool) (d : list (K * V)) k v :
  dict_get eqb d k = None -> dict_set eqb d k v = d ++ [(k, v)].
Proof.
  induction d as [|[k' v'] d IH]; simpl; [reflexivity|].
  destruct (eqb k k'); [discriminate|]. intros H. now rewrite IH.
Qed.

Lemma setitem_fresh c id message :
  dict_get key_eqb (messages c) (key_for id (m_context message)) = None ->
  msgid_truthy id = true ->
  setitem c id message =
  with_messages c (messages c ++ [(key_for id (m_context message), message)]).
Proof.
  intros Hget Hid. unfold setitem. rewrite Hget.
  rewrite (dict_set_fresh _ _ _ _ Hget).
  destruct id as [[|a s]|s p]; [discriminate|reflexivity|reflexivity].
Qed.

Lemma merge_message_fields babel np message oldmsg renamed e :
  merge_message babel np message oldmsg renamed = inr e ->
  m_id e = m_id message /\ m_context e = m_context message /\
  m_locations e = distinct location_eqb (m_locations message) /\
  m_auto_comments e = distinct String.eqb (m_auto_comments message) /\
  m_previous_id e =
    (if renamed then
       match m_id oldmsg with
       | Singular s => [s]
       | Plural s p => [s; p]
       end
     else m_previous_id message) /\
  exists reshaped,
    merge_shape np (m_id message) (m_string oldmsg) = inr (m_string e, reshaped) /\
    m_fuzzy e = m_fuzzy message || m_fuzzy oldmsg || renamed || reshaped.
Proof.
  unfold merge_message.
  destruct (merge_shape np (m_id message) (m_string oldmsg)) as [?|[string reshaped]];
    [discriminate|].
  intros [= <-]. simpl. repeat split. exists reshaped. auto.
Qed.

(** A merged message with a plural id has a tuple for its string: what
    [Catalog.__setitem__] asserts of it. *)
Lemma merge_message_plural babel np message oldmsg renamed e :
  merge_message babel np message oldmsg renamed = inr e ->
  pluralizable e = true ->
  exists forms, m_string e = STuple forms.
Proof.
  intros He Hp. destruct (merge_message_fields babel _ _ _ _ _ He)
    as (Eid & _ & _ & _ & _ & reshaped & Hshape & _).
  unfold pluralizable in Hp. rewrite Eid in Hp. unfold merge_shape in Hshape.
  destruct (m_id message) as [i|i p]; [discriminate|].
  destruct (m_string oldmsg) as [|t|forms];
    [| |destruct (negb (List.length forms =? np))];
    injection Hshape as <- _; eauto.
Qed.

Lemma key_eqb_refl k : key_eqb k k = true.
Proof. now destruct (key_eqb_spec k k). Qed.

Lemma update_step_spec babel self done st m e :
  sync_inv babel self done st ->
  ~ In (msg_key m) (map msg_key done) ->
  msgid_truthy (m_id m) = true ->
  synced_entry babel self m = inr e ->
  exists st',
    update_step babel (messages self) (fuzzy_candidates (messages self)) st m = inr st' /\
    sync_inv babel self (done ++ [m]) st'.
Proof.
  intros (Hkeys & Hentries & Hrem & Hnp) Hfresh Hid He.
  assert (Hnone : dict_get key_eqb (messages (u_self st)) (msg_key m) = None).
  { apply (dict_get_None _ key_eqb_spec). now rewrite Hkeys. }
  assert (Hstore : forall e' remaining fm,
    m_id e' = m_id m -> m_context e' = m_context m ->
    synced_entry babel self m = inr e' ->
    (forall k, ~ In k (map msg_key (done ++ [m])) ->
               dict_get key_eqb remaining k = dict_get key_eqb (messages self) k) ->
    sync_inv babel self (done ++ [m])
      (mkUpdate (setitem (u_self st) (m_id e') e') remaining fm)).
  { intros e' remaining fm Eid Ectx He' Hrem'.
    rewrite setitem_fresh; rewrite ?Eid, ?Ectx; auto.
    unfold sync_inv. simpl. rewrite !map_app, Hkeys. simpl.
    repeat split; auto.
    - apply Forall2_app; [exact Hentries|].
      constructor; [exact He'|constructor].
    - intros k Hk. apply Hrem'. now rewrite map_app. }
  unfold update_step. rewrite Hid. unfold synced_entry in He.
  fold (msg_key m). unfold dict_mem.
  destruct (dict_get key_eqb (messages self) (msg_key m)) as [oldmsg|] eqn:Hold.
  - (* the key is an old one *)
    unfold merge. rewrite key_eqb_refl. simpl.
    rewrite (Hrem _ Hfresh), Hold, Hnp, He.
    destruct (merge_message_fields babel _ _ _ _ _ He) as (Eid & Ectx & _).
    eexists. split; [reflexivity|].
    apply Hstore; auto.
    + unfold synced_entry. now rewrite Hold.
    + intros k Hk. rewrite map_app in Hk. simpl in Hk.
      rewrite (dict_get_del_other _ key_eqb_spec).
      * apply Hrem. intros H. apply Hk, in_or_app. now left.
      * intros ->. apply Hk, in_or_app. right. now left.
  - unfold close_matches in He. fold (msg_key m) in He.
    destruct (get_close_matches (to_fuzzy_match_key (fst (msg_key m)))
                (map fst (fuzzy_candidates (messages self))))
      as [|modified_key others] eqn:Hclose.
    + (* a new message *)
      injection He as <-. eexists. split; [reflexivity|].
      apply Hstore; auto.
      * unfold synced_entry, close_matches. now rewrite Hold, Hclose.
      * intros k Hk. apply Hrem. intros H. apply Hk.
        rewrite map_app. apply in_or_app. now left.
    + (* a fuzzy match *)
      destruct (dict_get String.eqb (fuzzy_candidates (messages self)) modified_key)
        as [oldkey|] eqn:Hcand; [|discriminate].
      destruct (dict_get key_eqb (messages self) oldkey) as [oldmsg|] eqn:Holdkey;
        [|discriminate].
      assert (Hdiff : key_eqb oldkey (msg_key m) = false).
      { destruct (key_eqb_spec oldkey (msg_key m)) as [E|]; [|reflexivity].
        rewrite E in Holdkey. congruence. }
      unfold merge. rewrite Hdiff. simpl. rewrite Holdkey, Hnp, He.
      destruct (merge_message_fields babel _ _ _ _ _ He) as (Eid & Ectx & _).
      eexists. split; [reflexivity|].
      apply Hstore; auto.
      * unfold synced_entry, close_matches. fold (msg_key m).
        now rewrite Hold, Hclose, Hcand, Holdkey.
      * intros k Hk. apply Hrem. intros H. apply Hk.
        rewrite map_app. apply in_or_app. now left.
Qed.

Lemma update_loop_spec babel self todo :
  forall done st,
    sync_inv babel self done st ->
    NoDup (map msg_key (done ++ todo)) ->
    (forall m, In m todo -> msgid_truthy (m_id m) = true) ->
    (forall m, In m todo -> exists e, synced_entry babel self m = inr e) ->
    exists st',
      update_loop babel (messages self) (fuzzy_candidates (messages self)) st todo = inr st' /\
      sync_inv babel self (done ++ todo) st'.
Proof.
  induction todo as [|m todo IH]; intros done st Hinv Hnd Hid Hok; simpl.
  - exists st. now rewrite app_nil_r.
  - destruct (Hok m (or_introl eq_refl)) as (e & He).
    replace (done ++ m :: todo) with ((done ++ [m]) ++ todo) in *
      by (rewrite <- app_assoc; reflexivity).
    assert (Hfresh : ~ In (msg_key m) (map msg_key done)).
    { rewrite !map_app in Hnd. apply NoDup_app_remove_r in Hnd.
      simpl in Hnd. apply NoDup_remove_2 in Hnd. now rewrite app_nil_r in Hnd. }
    destruct (update_step_spec babel self done st m e Hinv Hfresh
                (Hid m (or_introl eq_refl)) He) as (st1 & Hstep & Hinv1).
    rewrite Hstep. apply IH; auto.
    + intros; apply Hid; now right.
    + intros; apply Hok; now right.
Qed.

(** The synchronized catalog, when no entry raises: one entry per message
    of the template, under its key. *)
Lemma Catalog_update_entries babel self template :
  NoDup (map msg_key (map snd (messages template))) ->
  (forall m, In m (map snd (messages template)) -> msgid_truthy (m_id m) = true) ->
  (forall m, In m (map snd (messages template)) ->
             exists e, synced_entry babel self m = inr e) ->
  exists c',
    Catalog_update babel self template = inr c' /\
    NoDup (map fst (messages c')) /\
    forall m, In m (map snd (messages template)) ->
              exists e, synced_entry babel self m = inr e /\
                        dict_get key_eqb (messages c') (msg_key m) = Some e.
Proof.
  intros Hnd Hid Hok. unfold Catalog_update.
  assert (Hinit : sync_inv babel self []
            (mkUpdate (with_messages self []) (messages self) [])).
  { unfold sync_inv. simpl. repeat split; auto. }
  destruct (update_loop_spec babel self (map snd (messages template)) []
              (mkUpdate (with_messages self []) (messages self) [])
              Hinit Hnd Hid Hok)
    as (st' & Hloop & (Hkeys & Hentries & _ & _)).
  rewrite Hloop. simpl in *. eexists. split; [reflexivity|].
  unfold mark_obsolete. simpl.
  assert (Hnd' : NoDup (map fst (messages (u_self st')))) by now rewrite Hkeys.
  split; [exact Hnd'|].
  intros m Hm. clear Hloop Hnd Hid Hok.
  revert Hkeys Hentries Hnd' Hm.
  generalize (messages (u_self st')) (map snd (messages template)).
  intros kms ms Hkeys Hentries. revert Hkeys.
  induction Hentries as [|m0 [k0 e0] ms kms He Hrest IH]; simpl;
    intros Hkeys Hnd' Hm; [contradiction|].
  injection Hkeys as -> Hkeys. inversion Hnd' as [|? ? Hnot Hnd'']; subst.
  destruct Hm as [->|Hm].
  - exists e0. rewrite key_eqb_refl. auto.
  - destruct (IH Hkeys Hnd'' Hm) as (e & He' & Hget). exists e. split; [exact He'|].
    destruct (key_eqb_spec (msg_key m) (msg_key m0)) as [E|_]; [|exact Hget].
    exfalso. apply Hnot. rewrite <- E.
    apply (dict_get_In _ key_eqb_spec) in Hget.
    change (msg_key m) with (fst (msg_key m, e)). now apply in_map.
Qed.

(** *** The choice of [get_close_matches] *)

Lemma scored_gt_compare p q :
  is_number (fst p) -> is_number (fst q) ->
  scored_gt p q = match compare_scored p q with Gt => true | _ => false end.
Proof.
  intros Hp Hq. unfold scored_gt, compare_scored.
  rewrite FloatAxioms.eqb_spec, FloatAxioms.ltb_spec. unfold SFeqb, SFltb.
  destruct (SFcompare_number _ _ Hp Hq) as (c & Hc).
  rewrite Hc, (SFcompare_antisym _ _ _ Hc).
  unfold String.ltb. rewrite (String.compare_antisym (snd q) (snd p)).
  destruct c; simpl; try reflexivity.
  destruct (String.compare (snd p) (snd q)); reflexivity.
Qed.

Lemma compare_scored_antisym p q :
  is_number (fst p) -> is_number (fst q) ->
  compare_scored q p = CompOpp (compare_scored p q).
Proof.
  intros Hp Hq. unfold compare_scored.
  destruct (SFcompare_number _ _ Hp Hq) as (c & Hc).
  rewrite Hc, (SFcompare_antisym _ _ _ Hc).
  destruct c; simpl; try reflexivity. apply String.compare_antisym.
Qed.

Lemma compare_scored_trans p q r :
  is_number (fst p) -> is_number (fst q) -> is_number (fst r) ->
  compare_scored p q <> Gt -> compare_scored q r <> Gt ->
  compare_scored p r <> Gt.
Proof.
  intros Hp Hq Hr. unfold compare_scored.
  destruct (SFcompare_number _ _ Hp Hq) as (x & Hx).
  destruct (SFcompare_number _ _ Hq Hr) as (y & Hy).
  destruct (SFcompare_number _ _ Hp Hr) as (z & Hz).
  rewrite Hx, Hy, Hz. intros H1 H2.
  assert (Hxg : x <> Gt) by (destruct x; congruence).
  assert (Hyg : y <> Gt) by (destruct y; congruence).
  destruct (SFcompare_trans_le _ _ _ _ _ Hx Hy Hxg Hyg) as (z' & Hz' & Hzg).
  rewrite Hz in Hz'. injection Hz' as <-.
  destruct z; [|discriminate|congruence].
  (* equal scores at both ends: the scores in between are equal to them *)
  pose proof (SFcompare_antisym _ _ _ Hz) as Hrp. simpl in Hrp.
  assert (Ey : y = Eq).
  { destruct y; [reflexivity| |congruence]. exfalso.
    destruct (SFcompare_trans_le _ _ _ Eq x Hrp Hx) as (w & Hw & Hwg);
      [discriminate|exact Hxg|].
    rewrite (SFcompare_antisym _ _ _ Hy) in Hw. injection Hw as <-.
    now apply Hwg. }
  assert (Ex : x = Eq).
  { destruct x; [reflexivity| |congruence]. exfalso.
    destruct (SFcompare_trans_le _ _ _ y Eq Hy Hrp) as (w & Hw & Hwg);
      [exact Hyg|discriminate|].
    rewrite (SFcompare_antisym _ _ _ Hx) in Hw. injection Hw as <-.
    now apply Hwg. }
  subst x y. now apply (string_compare_trans (snd p) (snd q) (snd r)).
Qed.

(** What is not above has a score that is not above. *)
Lemma scored_not_gt_leb p q :
  is_number (fst p) -> is_number (fst q) ->
  scored_gt p q = false -> PrimFloat.leb (fst p) (fst q) = true.
Proof.
  intros Hp Hq. rewrite (scored_gt_compare p q Hp Hq).
  unfold compare_scored. rewrite FloatAxioms.leb_spec. unfold SFleb.
  destruct (SFcompare_number _ _ Hp Hq) as (c & ->).
  destruct c; try reflexivity. discriminate.
Qed.

(** [largest] picks an item that no item is above. *)
Lemma largest_spec others :
  forall best,
    is_number (fst best) ->
    Forall (fun p => is_number (fst p)) others ->
    In (largest best others) (best :: others) /\
    is_number (fst (largest best others)) /\
    forall i, In i (best :: others) -> compare_scored i (largest best others) <> Gt.
Proof.
  unfold largest.
  induction others as [|item others IH]; intros best Hbest Hall; simpl.
  - split; [now left|]. split; [exact Hbest|].
    intros i [<-|[]]. unfold compare_scored.
    rewrite (SFcompare_refl _ Hbest), string_compare_refl. discriminate.
  - inversion Hall as [|? ? Hitem Hall']; subst.
    rewrite (scored_gt_compare item best Hitem Hbest).
    pose proof (compare_scored_antisym item best Hitem Hbest) as Hanti.
    destruct (compare_scored item best) eqn:Hcmp.
    + destruct (IH best Hbest Hall') as (Hin & Hnum & Hmax).
      split; [destruct Hin; auto|]. split; [exact Hnum|].
      intros i [E|[E|Hi]]; subst;
        [apply Hmax; now left| |apply Hmax; now right].
      apply (compare_scored_trans i best _ Hitem Hbest Hnum);
        [congruence|apply Hmax; now left].
    + destruct (IH best Hbest Hall') as (Hin & Hnum & Hmax).
      split; [destruct Hin; auto|]. split; [exact Hnum|].
      intros i [E|[E|Hi]]; subst;
        [apply Hmax; now left| |apply Hmax; now right].
      apply (compare_scored_trans i best _ Hitem Hbest Hnum);
        [congruence|apply Hmax; now left].
    + destruct (IH item Hitem Hall') as (Hin & Hnum & Hmax).
      split; [destruct Hin; auto|]. split; [exact Hnum|].
      intros i [E|[E|Hi]]; subst;
        [|apply Hmax; now left|apply Hmax; now right].
      apply (compare_scored_trans i item _ Hbest Hitem Hnum);
        [rewrite Hanti; discriminate|apply Hmax; now left].
Qed.

Lemma close_enough_number word x :
  close_enough word x = true ->
  PrimFloat.leb cutoff (score word x) = true /\ is_number (score word x).
Proof.
  unfold close_enough, score. intros H.
  apply andb_true_iff in H as [_ H]. split; [exact H|].
  now apply leb_is_number in H.
Qed.

Lemma scored_results word possibilities :
  flat_map (fun x => if close_enough word x then [(score word x, x)] else [])
    possibilities =
  map (fun x => (score word x, x)) (filter (close_enough word) possibilities).
Proof.
  induction possibilities as [|x l IH]; simpl; [reflexivity|].
  destruct (close_enough word x); simpl; now rewrite IH.
Qed.

(** What [get_close_matches] returns: nothing when no possibility passes
    the tests, and otherwise one possibility that passes them and that no
    other that passes them is above, by its score and then by its text. *)
Lemma get_close_matches_spec word possibilities :
  match get_close_matches word possibilities with
  | [] => forall x, In x possibilities -> close_enough word x = false
  | x :: rest =>
      rest = [] /\ In x possibilities /\ close_enough word x = true /\
      forall y,
        In y possibilities -> close_enough word y = true ->
        scored_gt (score word y, y) (score word x, x) = false /\
        PrimFloat.leb (score word y) (score word x) = true
  end.
Proof.
  unfold get_close_matches. rewrite scored_results.
  destruct (filter (close_enough word) possibilities) as [|x0 passing] eqn:Hf.
  - simpl. intros x Hx.
    destruct (close_enough word x) eqn:E; [|reflexivity].
    assert (H : In x (filter (close_enough word) possibilities))
      by (apply filter_In; auto).
    rewrite Hf in H. contradiction.
  - assert (Hpass : forall y, In y (x0 :: passing) <->
                      In y possibilities /\ close_enough word y = true).
    { intros y. rewrite <- Hf. apply filter_In. }
    cbn [map].
    set (scored := fun x : str => (score word x, x)).
    destruct (largest_spec (map scored passing) (scored x0))
      as (Hin & _ & Hmax).
    { apply close_enough_number, Hpass. now left. }
    { apply Forall_forall. intros p Hp.
      apply in_map_iff in Hp as (y & <- & Hy).
      apply close_enough_number, Hpass. now right. }
    change (scored x0 :: map scored passing) with (map scored (x0 :: passing))
      in Hin, Hmax.
    apply in_map_iff in Hin as (x & Ex & Hx).
    change (score word x0, x0) with (scored x0). rewrite <- Ex.
    change (snd (scored x)) with x.
    split; [reflexivity|].
    destruct (proj1 (Hpass x) Hx) as [Hxin Hxc].
    split; [exact Hxin|]. split; [exact Hxc|].
    intros y Hy Hyc.
    assert (Hgt : scored_gt (scored y) (scored x) = false).
    { rewrite scored_gt_compare;
        [|now apply close_enough_number|now apply close_enough_number].
      specialize (Hmax (scored y)). rewrite <- Ex in Hmax.
      destruct (compare_scored (scored y) (scored x)); try reflexivity.
      exfalso. apply Hmax; [|reflexivity].
      apply in_map, Hpass. auto. }
    split; [exact Hgt|].
    apply (scored_not_gt_leb (scored y) (scored x));
      [now apply close_enough_number|now apply close_enough_number|exact Hgt].
Qed.

Lemma get_close_matches_In word possibilities x :
  In x (get_close_matches word possibilities) -> In x possibilities.
Proof.
  pose proof (get_close_matches_spec word possibilities) as H.
  destruct (get_close_matches word possibilities) as [|y rest];
    [contradiction|].
  destruct H as (-> & Hy & _). now intros [<-|[]].
Qed.

Lemma fuzzy_candidates_from ms :
  forall init mk v,
    In (mk, v)
      (fold_left
         (fun cands (km : key * Message) =>
            if key_truthy (fst km) && msgstr_truthy (m_string (snd km))
            then dict_set String.eqb cands (to_fuzzy_match_key (fst (fst km)))
                   (fst (fst km), m_context (snd km))
            else cands)
         ms init) ->
    In (mk, v) init \/
    exists k0 m0,
      In (k0, m0) ms /\ v = (fst k0, m_context m0) /\
      mk = to_fuzzy_match_key (fst k0) /\
      msgstr_truthy (m_string m0) = true.
Proof.
  induction ms as [|[k m] ms IH]; intros init mk v; simpl; [now left|].
  intros Hin. apply IH in Hin as [Hin|(k0 & m0 & H0 & Hv & Hmk & Ht)].
  - destruct (key_truthy k && msgstr_truthy (m_string m)) eqn:E; [|now left].
    apply (In_dict_set _ string_eqb_spec') in Hin as [Hin|Hin]; [|now left].
    injection Hin as -> ->. right. exists k, m.
    apply andb_true_iff in E as [_ E]. auto.
  - right. exists k0, m0. auto.
Qed.

Lemma merge_shape_total np id string :
  string <> STuple [] -> exists r, merge_shape np id string = inr r.
Proof.
  intros Hne. unfold merge_shape.
  destruct id; destruct string as [|t|[|[f|] forms]]; try congruence; eauto;
    destruct (negb _); eauto.
Qed.

Lemma merge_shape_well_shaped np m :
  well_shaped np m = true ->
  merge_shape np (m_id m) (m_string m) = inr (m_string m, false).
Proof.
  unfold well_shaped, merge_shape.
  destruct (m_id m) as [i|i p]; destruct (m_string m) as [|t|forms];
    try discriminate; try reflexivity.
  intros H. apply andb_true_iff in H as [H _].
  apply andb_true_iff in H as [H _]. now rewrite H.
Qed.

Lemma well_shaped_not_empty_tuple np m :
  well_shaped np m = true -> m_string m <> STuple [].
Proof.
  unfold well_shaped. intros H E. rewrite E in H.
  destruct (m_id m); [discriminate|]. simpl in H.
  now rewrite andb_false_r in H.
Qed.

Lemma merge_message_total babel np message oldmsg renamed :
  m_string oldmsg <> STuple [] ->
  exists e, merge_message babel np message oldmsg renamed = inr e.
Proof.
  intros Hne. unfold merge_message.
  destruct (merge_shape_total np (m_id message) (m_string oldmsg) Hne)
    as ([string reshaped] & ->).
  eauto.
Qed.

(** In a well-formed catalog, what the fuzzy match picks is the key of an
    old message that has a string. *)
Lemma fuzzy_candidate_found self modified_key :
  catalog_wf self ->
  In modified_key (map fst (fuzzy_candidates (messages self))) ->
  exists oldkey oldmsg,
    dict_get String.eqb (fuzzy_candidates (messages self)) modified_key = Some oldkey /\
    dict_get key_eqb (messages self) oldkey = Some oldmsg /\
    modified_key = to_fuzzy_match_key (fst oldkey) /\
    msgstr_truthy (m_string oldmsg) = true.
Proof.
  intros [Hnd Hwf] Hin.
  destruct (dict_get String.eqb (fuzzy_candidates (messages self)) modified_key)
    as [oldkey|] eqn:Hcand;
    [|now apply (dict_get_None _ string_eqb_spec') in Hcand].
  apply (dict_get_In _ string_eqb_spec') in Hcand.
  apply fuzzy_candidates_from in Hcand as [[]|(k0 & m0 & H0 & -> & Hmk & Ht)].
  destruct (Hwf k0 m0 H0) as (Ek & _).
  exists (fst k0, m_context m0), m0. repeat split; auto.
  apply (In_dict_get _ key_eqb_spec); [exact Hnd|].
  replace (fst k0, m_context m0) with k0; [exact H0|].
  rewrite Ek. reflexivity.
Qed.

Lemma synced_entry_total babel self message :
  catalog_wf self -> exists e, synced_entry babel self message = inr e.
Proof.
  intros Hself. pose proof Hself as [Hnd Hwf]. unfold synced_entry.
  destruct (dict_get key_eqb (messages self) (msg_key message)) as [oldmsg|] eqn:Hold.
  - apply merge_message_total.
    apply (dict_get_In _ key_eqb_spec) in Hold.
    destruct (Hwf _ _ Hold) as (_ & _ & Hshape & _).
    now apply (well_shaped_not_empty_tuple (num_plurals self)).
  - destruct (close_matches self (msg_key message)) as [|modified_key others] eqn:Hclose;
      [eauto|].
    assert (Hin : In modified_key (map fst (fuzzy_candidates (messages self)))).
    { apply (get_close_matches_In (to_fuzzy_match_key (fst (msg_key message)))).
      unfold close_matches in Hclose. rewrite Hclose. now left. }
    destruct (fuzzy_candidate_found self modified_key Hself Hin)
      as (oldkey & oldmsg & -> & -> & _ & Ht).
    apply merge_message_total. intros E. rewrite E in Ht. discriminate.
Qed.

Lemma template_messages_keys (t : Catalog) :
  catalog_wf t ->
  NoDup (map msg_key (map snd (messages t))) /\
  (forall m, In m (map snd (messages t)) -> msgid_truthy (m_id m) = true) /\
  (forall k m, dict_get key_eqb (messages t) k = Some m ->
               In m (map snd (messages t)) /\ msg_key m = k).
Proof.
  intros [Hnd Hwf].
  assert (Hkeys : map msg_key (map snd (messages t)) = map fst (messages t)).
  { rewrite map_map. apply map_ext_in. intros [k m] Hin. simpl.
    now destruct (Hwf k m Hin) as (-> & _). }
  split; [now rewrite Hkeys|]. split.
  - intros m Hm. apply in_map_iff in Hm as ([k m'] & <- & Hin).
    now destruct (Hwf k m' Hin) as (_ & Hid & _).
  - intros k m Hget. apply (dict_get_In _ key_eqb_spec) in Hget.
    split; [change m with (snd (k, m)); now apply in_map|].
    now destruct (Hwf k m Hget) as (-> & _).
Qed.

(** The synchronized catalog exists, and has for each key of the template
    the entry [synced_entry] describes. *)
Lemma Catalog_update_total babel self template k tm :
  catalog_wf self ->
  catalog_wf template ->
  dict_get key_eqb (messages template) k = Some tm ->
  exists c' e,
    Catalog_update babel self template = inr c' /\
    synced_entry babel self tm = inr e /\
    dict_get key_eqb (messages c') k = Some e.
Proof.
  intros Hself Htemplate Hget.
  destruct (template_messages_keys template Htemplate) as (Hnd & Hid & Hkey).
  destruct (Hkey k tm Hget) as [Hin <-].
  destruct (Catalog_update_entries babel self template Hnd Hid) as (c' & Hupd & _ & Hall).
  { intros m _. now apply synced_entry_total. }
  destruct (Hall tm Hin) as (e & He & Hc').
  exists c', e. auto.
Qed.

(** What [update] writes for a locale is the synchronized catalog. *)
Lemma update_locale_writes babel template p existing c' :
  ld_po p = Readable existing ->
  ld_write p = None ->
  Catalog_update babel existing template = inr c' ->
  update_locale babel template p =
  ([WritePo (ld_name p) c'; Print (PoWritten (ld_name p))], None).
Proof.
  intros Hpo Hwrite Hupd. unfold update_locale.
  now rewrite Hpo, Hupd, Hwrite.
Qed.

(** C1.  When the existing catalog has for the key [k] an entry that is not
    fuzzy, and the template has the same identity under [k], the
    synchronized catalog has for [k] an entry with the translation of the
    existing entry, not fuzzy, and with the locations and the automatic
    comments of the template's entry. *)
Theorem update_preserves_translation :
  forall (babel : release) (existing template : Catalog) (k : key)
         (em tm : Message),
    catalog_wf existing ->
    template_catalog template ->
    dict_get key_eqb (messages existing) k = Some em ->
    m_fuzzy em = false ->
    dict_get key_eqb (messages template) k = Some tm ->
    m_id tm = m_id em ->
    exists c' m,
      Catalog_update babel existing template = inr c' /\
      dict_get key_eqb (messages c') k = Some m /\
      m_string m = m_string em /\
      m_fuzzy m = false /\
      m_locations m = m_locations tm /\
      m_auto_comments m = m_auto_comments tm.
Proof.
  intros babel existing template k em tm Hexisting [Htemplate Hplain] Hem Hfuzzy
    Htm Hid.
  destruct (Catalog_update_total babel existing template k tm Hexisting Htemplate Htm)
    as (c' & e & Hupd & He & Hc').
  exists c', e. split; [exact Hupd|]. split; [exact Hc'|].
  destruct (template_messages_keys template Htemplate) as (_ & _ & Hkey).
  destruct (Hkey k tm Htm) as [_ Ek].
  unfold synced_entry in He. rewrite Ek, Hem in He.
  destruct (merge_message_fields babel _ _ _ _ _ He)
    as (_ & _ & Hlocs & Hauto & _ & reshaped & Hshape & Hf).
  apply (dict_get_In _ key_eqb_spec) in Hem, Htm.
  destruct Hexisting as [_ Hwf]. destruct (Hwf k em Hem) as (_ & _ & Hshaped & _).
  destruct Htemplate as [_ Hwft].
  destruct (Hwft k tm Htm) as (_ & _ & _ & Hndl & Hnda).
  destruct (Hplain k tm Htm) as [Htf _].
  rewrite Hid, (merge_shape_well_shaped _ em Hshaped) in Hshape.
  injection Hshape as <- <-.
  rewrite Hf, Htf, Hfuzzy, Hlocs, Hauto.
  rewrite (distinct_NoDup_id _ location_eqb_spec _ Hndl).
  rewrite (distinct_NoDup_id _ String.eqb_spec _ Hnda).
  auto.
Qed.

(** A property of every entry of a catalog that is written out in full. *)
Ltac entries_by_cases :=
  let k := fresh "k" in
  let m := fresh "m" in
  let Hin := fresh "Hin" in
  let E := fresh "E" in
  intros k m Hin; simpl in Hin;
  repeat (destruct Hin as [E|Hin];
          [ injection E as <- <-; repeat split; try reflexivity;
            repeat constructor; simpl; intuition discriminate
          | ]);
  contradiction.

Ltac catalog_wf_by_cases :=
  split;
  [ repeat constructor; simpl; intuition discriminate | entries_by_cases ].

Lemma hello_catalog_wf : catalog_wf hello_catalog.
Proof. catalog_wf_by_cases. Qed.

Lemma moved_template_is_template : template_catalog moved_template.
Proof. split; [catalog_wf_by_cases|entries_by_cases]. Qed.

Lemma fresh_template_is_template : template_catalog fresh_template.
Proof. split; [catalog_wf_by_cases|entries_by_cases]. Qed.


Lemma update_preserves_translation_witness :
  exists c' m,
    Catalog_update OldUserCommentsIfAny hello_catalog moved_template = inr c' /\
    dict_get key_eqb (messages c') ("Hello world", None) = Some m /\
    m_string m = SStr "Bonjour le monde" /\
    m_fuzzy m = false /\
    m_locations m = [("en-US/index.md", 7)] /\
    m_auto_comments m = [].
Proof.
  apply (update_preserves_translation OldUserCommentsIfAny
           hello_catalog moved_template ("Hello world", None)
           (snd (translated_entry "Hello world" "Bonjour le monde" [("en-US/index.md", 1)]))
           (snd (translated_entry "Hello world" "" [("en-US/index.md", 7)]))).
  - exact hello_catalog_wf.
  - exact moved_template_is_template.
  - reflexivity.
  - reflexivity.
  - reflexivity.
  - reflexivity.
Defined.




(** ** The depth of [matches_in] *)

Lemma Forall_le_nth (row : list nat) bound j :
  Forall (fun v => v <= bound) row -> nth j row 0 <= bound.
Proof.
  intros H. revert j. induction H as [|v row Hv _ IH]; intros [|j]; simpl;
    auto; lia.
Qed.

Lemma newj2len_bound a b blo bhi i j2len bound :
  Forall (fun v => v <= bound) j2len ->
  Forall (fun v => v <= S bound) (difflib.newj2len a b blo bhi i j2len).
Proof.
  intros H. unfold difflib.newj2len. apply Forall_map, Forall_forall.
  intros j _. destruct (_ && _); [|lia].
  destruct j as [|j']; [lia|].
  pose proof (Forall_le_nth j2len bound j' H). lia.
Qed.

Lemma scan_row_bound alo i row best :
  Forall (fun v => v <= S i - alo) row ->
  alo <= i ->
  alo <= fst (fst best) /\ fst (fst best) + snd best <= S i ->
  alo <= fst (fst (difflib.scan_row i row best)) /\
  fst (fst (difflib.scan_row i row best)) + snd (difflib.scan_row i row best) <= S i.
Proof.
  intros Hrow Hi. unfold difflib.scan_row.
  generalize (seq 0 (List.length row)). intros js. revert best.
  induction js as [|j js IH]; intros best Hbest; simpl; [exact Hbest|].
  apply IH. pose proof (Forall_le_nth row _ j Hrow) as Hk.
  destruct (snd best <? nth j row 0) eqn:E; [|exact Hbest].
  apply Nat.ltb_lt in E. simpl. lia.
Qed.

Lemma rows_bound a b alo blo bhi n :
  forall i row best,
    Forall (fun v => v <= i - alo) row ->
    alo <= i ->
    alo <= fst (fst best) /\ fst (fst best) + snd best <= i ->
    let st :=
      fold_left
        (fun (st : list nat * difflib.Match) i =>
           let row := difflib.newj2len a b blo bhi i (fst st) in
           (row, difflib.scan_row i row (snd st)))
        (seq i n) (row, best) in
    alo <= fst (fst (snd st)) /\ fst (fst (snd st)) + snd (snd st) <= i + n.
Proof.
  induction n as [|n IH]; intros i row best Hrow Hi Hbest; simpl.
  - lia.
  - replace (i + S n) with (S i + n) by lia.
    assert (Hrow' : Forall (fun v => v <= S i - alo)
                      (difflib.newj2len a b blo bhi i row)).
    { replace (S i - alo) with (S (i - alo)) by lia.
      now apply newj2len_bound. }
    apply IH; [exact Hrow'|lia|].
    apply scan_row_bound; auto. lia.
Qed.

Lemma extend_left_bound fuel a b alo blo ahi :
  forall best,
    alo <= fst (fst best) /\ fst (fst best) + snd best <= ahi ->
    alo <= fst (fst (difflib.extend_left fuel a b alo blo best)) /\
    fst (fst (difflib.extend_left fuel a b alo blo best))
      + snd (difflib.extend_left fuel a b alo blo best) <= ahi.
Proof.
  induction fuel as [|fuel IH]; intros [[besti bestj] bestsize] H; simpl in *;
    [exact H|].
  destruct ((alo <? besti) && (blo <? bestj) && _) eqn:E; [|exact H].
  apply andb_true_iff in E as [E _]. apply andb_true_iff in E as [E _].
  apply Nat.ltb_lt in E. apply IH. simpl. lia.
Qed.

Lemma extend_right_bound fuel a b alo ahi bhi :
  forall best,
    alo <= fst (fst best) /\ fst (fst best) + snd best <= ahi ->
    alo <= fst (fst (difflib.extend_right fuel a b ahi bhi best)) /\
    fst (fst (difflib.extend_right fuel a b ahi bhi best))
      + snd (difflib.extend_right fuel a b ahi bhi best) <= ahi.
Proof.
  induction fuel as [|fuel IH]; intros [[besti bestj] bestsize] H; simpl in *;
    [exact H|].
  destruct ((besti + bestsize <? ahi) && (bestj + bestsize <? bhi) && _) eqn:E;
    [|exact H].
  apply andb_true_iff in E as [E _]. apply andb_true_iff in E as [E _].
  apply Nat.ltb_lt in E. apply IH. simpl. lia.
Qed.

(** The block [find_longest_match] returns lies in the range of [a] it was
    asked about. *)
Lemma find_longest_match_bound a b alo ahi blo bhi :
  alo <= ahi ->
  alo <= fst (fst (difflib.find_longest_match a b alo ahi blo bhi)) /\
  fst (fst (difflib.find_longest_match a b alo ahi blo bhi))
    + snd (difflib.find_longest_match a b alo ahi blo bhi) <= ahi.
Proof.
  intros Hle. unfold difflib.find_longest_match.
  pose proof (rows_bound a b alo blo bhi (ahi - alo) alo
                (repeat 0 (List.length b)) (alo, blo, 0)) as H.
  simpl in H.
  destruct (fold_left _ (seq alo (ahi - alo)) _) as [row best].
  apply extend_right_bound, extend_left_bound.
  replace (alo + (ahi - alo)) with ahi in H by lia.
  apply H; [|lia|simpl; lia].
  apply Forall_forall. intros v Hv. apply repeat_spec in Hv. lia.
Qed.

(** More depth than the length of the range changes nothing: the recursion
    of [matches_in] has ended within it. *)
Lemma matches_in_depth a b depth :
  forall alo ahi blo bhi extra,
    alo <= ahi ->
    ahi - alo < depth ->
    difflib.matches_in (depth + extra) a b alo ahi blo bhi =
    difflib.matches_in depth a b alo ahi blo bhi.
Proof.
  induction depth as [|depth IH]; intros alo ahi blo bhi extra Hle Hlt; [lia|].
  simpl.
  pose proof (find_longest_match_bound a b alo ahi blo bhi Hle) as Hb.
  destruct (difflib.find_longest_match a b alo ahi blo bhi) as [[i j] k].
  simpl in Hb. destruct (Nat.eqb_spec k 0) as [|Hk]; [reflexivity|].
  f_equal; [f_equal|].
  - destruct ((alo <? i) && (blo <? j)) eqn:E; [|reflexivity].
    apply andb_true_iff in E as [E _]. apply Nat.ltb_lt in E.
    apply IH; lia.
  - destruct ((i + k <? ahi) && (j + k <? bhi)) eqn:E; [|reflexivity].
    apply andb_true_iff in E as [E _]. apply Nat.ltb_lt in E.
    apply IH; lia.
Qed.

Lemma matches_depth_enough a b extra :
  difflib.matches_in (S (List.length a) + extra) a b 0 (List.length a) 0 (List.length b)
  = difflib.matches a b.
Proof. unfold difflib.matches. apply matches_in_depth; lia. Qed.

(** ** The tokenizer, line by line *)

Lemma shift_blocks_yield n t r :
  shift_blocks n (yield t r) = yield (shift_token n t) (shift_blocks n r).
Proof. reflexivity. Qed.

Lemma then_blocks_yield t r1 r2 :
  then_blocks (yield t r1) r2 = yield t (then_blocks r1 r2).
Proof.
  destruct r1 as [l [e|]]; reflexivity.
Qed.

Lemma extract_blocks_loop_shift n fileobj :
  forall idx token messages,
    extract_blocks_loop (n + idx) (option_map (Nat.add n) token) messages fileobj =
    shift_blocks n (extract_blocks_loop idx token messages fileobj).
Proof.
  induction fileobj as [|text rest IH]; intros idx token messages.
  - simpl. destruct token as [start|]; simpl; [|reflexivity].
    destruct messages; reflexivity.
  - destruct (is_blank_line text) eqn:Hblank.
    + rewrite !(extract_blocks_loop_blank_line _ _ _ _ _ Hblank).
      replace (S (n + idx)) with (n + S idx) by lia.
      pose proof (IH (S idx) None []) as IHnone. cbn [option_map] in IHnone.
      destruct token as [start|]; cbn [option_map]; [|exact IHnone].
      destruct messages; [exact IHnone|].
      rewrite shift_blocks_yield, IHnone. reflexivity.
    + destruct (valid_utf8 text) eqn:Hvalid.
      * rewrite !(extract_blocks_loop_text _ _ _ _ _ Hblank Hvalid).
        replace (S (n + idx)) with (n + S idx) by lia.
        destruct token as [start|]; cbn [option_map].
        -- apply (IH (S idx) (Some start)).
        -- replace (n + idx + 1) with (n + (idx + 1)) by lia.
           apply (IH (S idx) (Some (idx + 1))).
      * now rewrite !(extract_blocks_loop_raises _ _ _ _ _ Hblank Hvalid).
Qed.

Lemma extract_blocks_loop_blank a b rest :
  is_blank_line b = true ->
  forall idx token messages,
    extract_blocks_loop idx token messages (a ++ b :: rest) =
    then_blocks (extract_blocks_loop idx token messages a)
      (extract_blocks_loop (idx + List.length a + 1) None [] rest).
Proof.
  intros Hb. induction a as [|text a IH]; intros idx token messages.
  - cbn [app]. rewrite (extract_blocks_loop_blank_line _ _ _ _ _ Hb).
    replace (idx + List.length (@nil bytes) + 1) with (S idx) by (simpl; lia).
    assert (Hnone : forall r : list Token * option exn,
              r = then_blocks ([], None) r) by (now intros [? ?]).
    destruct token as [start|]; [|apply Hnone].
    destruct messages; [apply Hnone|]. cbn [extract_blocks_loop].
    unfold then_blocks, yield. reflexivity.
  - cbn [app].
    replace (idx + List.length (text :: a) + 1)
      with (S idx + List.length a + 1) by (simpl; lia).
    destruct (is_blank_line text) eqn:Hblank.
    + rewrite !(extract_blocks_loop_blank_line _ _ _ _ _ Hblank).
      destruct token as [start|]; [|apply IH].
      destruct messages; [apply IH|].
      rewrite then_blocks_yield. f_equal. apply IH.
    + destruct (valid_utf8 text) eqn:Hvalid.
      * rewrite !(extract_blocks_loop_text _ _ _ _ _ Hblank Hvalid). apply IH.
      * now rewrite !(extract_blocks_loop_raises _ _ _ _ _ Hblank Hvalid).
Qed.

Lemma extract_blocks_split a b rest :
  is_blank_line b = true ->
  extract_blocks (a ++ b :: rest) =
  then_blocks (extract_blocks a)
    (shift_blocks (List.length a + 1) (extract_blocks rest)).
Proof.
  intros Hb. unfold extract_blocks.
  rewrite (extract_blocks_loop_blank a b rest Hb). f_equal.
  rewrite <- (extract_blocks_loop_shift (List.length a + 1) rest 0 None []).
  simpl. f_equal. lia.
Qed.

(** X1.  A blank line cuts the file in two: the blocks of the whole file
    are the blocks of the lines before it, followed by the blocks of the
    lines after it with their line numbers moved past it, unless the
    tokenizer raises in the lines before it, and then the lines after it
    are not read.  So a blank line ends the block before it, and what
    follows does not depend on what came before. *)
Theorem extract_blocks_blank_line_splits :
  forall (a : list bytes) (b : bytes) (rest : list bytes),
    is_blank_line b = true ->
    extract_blocks (a ++ b :: rest) =
    then_blocks (extract_blocks a)
      (shift_blocks (List.length a + 1) (extract_blocks rest)) /\
    (snd (extract_blocks a) = None ->
     fst (extract_blocks (a ++ b :: rest)) =
     fst (extract_blocks a)
       ++ map (shift_token (List.length a + 1)) (fst (extract_blocks rest)) /\
     snd (extract_blocks (a ++ b :: rest)) = snd (extract_blocks rest)).
Proof.
  intros a b rest Hb.
  pose proof (extract_blocks_split a b rest Hb) as H.
  split; [exact H|].
  intros Ha. rewrite H. unfold then_blocks. rewrite Ha. now split.
Qed.

Lemma extract_blocks_blank_line_splits_witness :
  is_blank_line nl = true /\
  extract_blocks (readlines "a" ++ nl :: readlines "b") =
  then_blocks (extract_blocks (readlines "a"))
    (shift_blocks (List.length (readlines "a") + 1)
       (extract_blocks (readlines "b"))).
Proof.
  split; [reflexivity|].
  exact (proj1 (extract_blocks_blank_line_splits (readlines "a") nl
                  (readlines "b") eq_refl)).
Defined.

Lemma extract_blocks_loop_pending rest :
  forall idx start x messages,
    extract_blocks_loop idx (Some start) (x :: messages) rest <> ([], None).
Proof.
  induction rest as [|text rest IH]; intros idx start x messages.
  - discriminate.
  - destruct (is_blank_line text) eqn:Hblank.
    + rewrite (extract_blocks_loop_blank_line _ _ _ _ _ Hblank). discriminate.
    + destruct (valid_utf8 text) eqn:Hvalid.
      * rewrite (extract_blocks_loop_text _ _ _ _ _ Hblank Hvalid). apply IH.
      * rewrite (extract_blocks_loop_raises _ _ _ _ _ Hblank Hvalid).
        discriminate.
Qed.

Lemma extract_blocks_loop_nil rest :
  forall idx,
    extract_blocks_loop idx None [] rest = ([], None) <->
    Forall (fun text => is_blank_line text = true) rest.
Proof.
  induction rest as [|text rest IH]; intros idx.
  - split; [constructor|reflexivity].
  - destruct (is_blank_line text) eqn:E.
    + rewrite (extract_blocks_loop_blank_line _ _ _ _ _ E), IH.
      split; [now constructor|now inversion 1].
    + split; [|inversion 1; congruence].
      destruct (valid_utf8 text) eqn:Hvalid.
      * rewrite (extract_blocks_loop_text _ _ _ _ _ E Hvalid).
        intros H. now apply extract_blocks_loop_pending in H.
      * rewrite (extract_blocks_loop_raises _ _ _ _ _ E Hvalid). discriminate.
Qed.

(** X2.  The tokenizer yields no block and does not raise exactly when all
    the lines of the file are blank (the empty file among them): no block
    is lost, none comes out of blank lines.  It yields none either when it
    raises before the first block is complete: a file with the byte 0xFF on
    its first line gives [UnicodeDecodeError] and nothing else. *)
Theorem extract_blocks_none_iff_blank :
  (forall fileobj : list bytes,
     extract_blocks fileobj = ([], None) <->
     Forall (fun text => is_blank_line text = true) fileobj) /\
  extract_blocks (readlines (byte 0xFF ++ nl ++ nl ++ "a" ++ nl)%string)
  = ([], Some UnicodeDecodeError).
Proof.
  split; [|reflexivity].
  intros fileobj. apply extract_blocks_loop_nil.
Qed.

Lemma extract_blocks_loop_sorted rest :
  forall idx token messages,
    (forall start, token = Some start -> start <= idx) ->
    Forall (fun t => match token with Some start => start | None => S idx end
                     <= tok_lineno t <= idx + List.length rest)
      (fst (extract_blocks_loop idx token messages rest)) /\
    StronglySorted lt
      (map tok_lineno (fst (extract_blocks_loop idx token messages rest))).
Proof.
  induction rest as [|text rest IH]; intros idx token messages Hstart.
  - simpl. destruct token as [start|]; [|split; constructor].
    specialize (Hstart start eq_refl).
    destruct messages; [split; constructor|]. simpl. split.
    + constructor; [simpl; lia|constructor].
    + repeat constructor.
  - cbn [List.length].
    destruct (is_blank_line text) eqn:Hblank.
    + rewrite (extract_blocks_loop_blank_line _ _ _ _ _ Hblank).
      destruct (IH (S idx) None []) as [Hall Hs]; [discriminate|].
      assert (Hnone : Forall
                (fun t => match token with Some start => start | None => S idx end
                          <= tok_lineno t <= idx + S (List.length rest))
                (fst (extract_blocks_loop (S idx) None [] rest))).
      { eapply Forall_impl; [|exact Hall]. simpl. intros t H.
        destruct token as [start|]; [specialize (Hstart start eq_refl)|]; lia. }
      destruct token as [start|]; [|split; [exact Hnone|exact Hs]].
      specialize (Hstart start eq_refl).
      destruct messages; [split; [exact Hnone|exact Hs]|].
      unfold yield. cbn [fst]. split.
      * constructor; [simpl; lia|exact Hnone].
      * simpl. constructor; [exact Hs|].
        apply Forall_map. eapply Forall_impl; [|exact Hall]. simpl.
        intros t H. lia.
    + destruct (valid_utf8 text) eqn:Hvalid.
      2:{ rewrite (extract_blocks_loop_raises _ _ _ _ _ Hblank Hvalid).
          split; constructor. }
      rewrite (extract_blocks_loop_text _ _ _ _ _ Hblank Hvalid).
      destruct token as [start|].
      * specialize (Hstart start eq_refl).
        destruct (IH (S idx) (Some start) (messages ++ [str_rstrip text]))
          as [Hall Hs]; [intros ? [= <-]; lia|].
        split; [|exact Hs].
        eapply Forall_impl; [|exact Hall]. simpl. intros t H. lia.
      * destruct (IH (S idx) (Some (idx + 1)) ([] ++ [str_rstrip text]))
          as [Hall Hs]; [intros ? [= <-]; lia|].
        split; [|exact Hs].
        eapply Forall_impl; [|exact Hall]. simpl. intros t H. lia.
Qed.

(** X3.  The blocks come in the order of the file: their line numbers
    increase strictly, and each is the number of a line of the file;
    so it is of the blocks yielded before the tokenizer raises, when it
    does. *)
Theorem extract_blocks_in_file_order :
  forall fileobj : list bytes,
    StronglySorted lt (map tok_lineno (fst (extract_blocks fileobj))) /\
    Forall (fun t => 1 <= tok_lineno t <= List.length fileobj)
      (fst (extract_blocks fileobj)).
Proof.
  intros fileobj.
  destruct (extract_blocks_loop_sorted fileobj 0 None []) as [Hall Hs];
    [discriminate|].
  split; [exact Hs|exact Hall].
Qed.

Lemma join_lines_not_empty x more : x <> "" -> join_lines (x :: more) <> "".
Proof.
  intros Hx. unfold join_lines. simpl.
  destruct x as [|c r]; [congruence|].
  destruct more; discriminate.
Qed.

(** What is left of a line of text, in a file without the blanks that are
    proper to [str.strip], is not empty. *)
Lemma str_rstrip_not_empty text :
  has_str_blank text = false ->
  is_blank_line text = false ->
  str_rstrip text <> "".
Proof.
  intros Hsb Hblank. rewrite (str_rstrip_bytes text Hsb). intros E.
  apply rstrip_empty_iff in E.
  rewrite is_blank_line_all_space in Hblank. congruence.
Qed.

(** X4.  In a file without the characters that are blank for [str.strip]
    and not for [bytes.strip] (the separators U+001C to U+001F and the
    blanks of Unicode that are not ASCII, the no-break space among them),
    the text of a block is never empty.  A line made of such a character
    is not blank for [bytes.strip] and is emptied by [str.rstrip]: alone,
    it gives a block with the empty text. *)
Theorem extract_blocks_text_not_empty :
  (forall (fileobj : list bytes) (tok : Token),
     Forall (fun text => has_str_blank text = false) fileobj ->
     In tok (fst (extract_blocks fileobj)) ->
     tok_message tok <> "") /\
  extract_blocks [String (ascii_of_nat 31) nl] = ([mkToken 1 "" "" []], None) /\
  extract_blocks [(nbsp ++ nl)%string] = ([mkToken 1 "" "" []], None).
Proof.
  split; [|split; reflexivity].
  intros fileobj tok Hsep Hin.
  assert (Hstart : starts_block ([] ++ fileobj) tok).
  { apply (extract_blocks_loop_starts fileobj [] None [] tok); [|exact Hin].
    simpl. auto. }
  destruct Hstart as (text & decoded & more & _ & Hnth & Hblank & _ & Hd & ->).
  apply decode_utf8_inr in Hd as [-> _].
  apply join_lines_not_empty.
  apply nth_error_In in Hnth. simpl in Hnth.
  rewrite Forall_forall in Hsep.
  now apply str_rstrip_not_empty; [apply Hsep|].
Qed.

Lemma extract_blocks_text_not_empty_witness :
  Forall (fun text => has_str_blank text = false) (readlines sample_input) /\
  In (mkToken 4 "" "c" []) (fst (extract_blocks (readlines sample_input))) /\
  tok_message (mkToken 4 "" "c" []) <> "".
Proof.
  assert (Hsep : Forall (fun text => has_str_blank text = false)
                   (readlines sample_input)) by (repeat constructor).
  assert (Hin : In (mkToken 4 "" "c" [])
                  (fst (extract_blocks (readlines sample_input))))
    by (right; left; reflexivity).
  split; [exact Hsep|]. split; [exact Hin|].
  exact (proj1 extract_blocks_text_not_empty (readlines sample_input)
           (mkToken 4 "" "c" []) Hsep Hin).
Defined.

(** ** From a regenerated file back to its blocks *)

Lemma all_space_app sp a b :
  all_space sp (a ++ b)%string = all_space sp a && all_space sp b.
Proof.
  induction a as [|c a IH]; simpl; [reflexivity|].
  now rewrite IH, andb_assoc.
Qed.

Lemma all_space_rstrip sp s : all_space sp (rstrip sp s) = all_space sp s.
Proof.
  induction s as [|c r IH]; simpl; [reflexivity|].
  destruct (rstrip sp r) as [|c' r'] eqn:E.
  - assert (Hr : all_space sp r = true) by now apply rstrip_empty_iff.
    rewrite Hr, andb_true_r. destruct (sp c) eqn:Ec; simpl; [reflexivity|].
    now rewrite Ec.
  - change (all_space sp (String c (String c' r')))
      with (sp c && all_space sp (String c' r')).
    now rewrite IH.
Qed.

Lemma rstrip_idempotent sp s : rstrip sp (rstrip sp s) = rstrip sp s.
Proof.
  induction s as [|c r IH]; simpl; [reflexivity|].
  destruct (rstrip sp r) as [|c' r'] eqn:E.
  - destruct (sp c) eqn:Ec; simpl; [reflexivity|]. now rewrite Ec.
  - change (rstrip sp (String c (String c' r')))
      with (match rstrip sp (String c' r') with
            | EmptyString => if sp c then EmptyString else String c EmptyString
            | r'' => String c r''
            end).
    now rewrite IH.
Qed.

Lemma rstrip_app_nl sp s : sp LF = true -> rstrip sp (s ++ nl)%string = rstrip sp s.
Proof.
  intros Hsp. induction s as [|c r IH]; simpl; [now rewrite Hsp|].
  now rewrite IH.
Qed.

Lemma has_lf_rstrip sp s : has_lf s = false -> has_lf (rstrip sp s) = false.
Proof.
  induction s as [|c r IH]; simpl; [reflexivity|].
  intros H. apply orb_false_iff in H as [Hc Hr]. specialize (IH Hr).
  destruct (rstrip sp r) as [|c' r'].
  - destruct (sp c); simpl; [reflexivity|now rewrite Hc].
  - simpl in *. now rewrite Hc.
Qed.

Lemma has_lf_app a b : has_lf (a ++ b)%string = has_lf a || has_lf b.
Proof.
  induction a as [|c a IH]; simpl; [reflexivity|].
  now rewrite IH, orb_assoc.
Qed.

Lemma readlines_from_lines s :
  forall cur,
    has_lf cur = false ->
    Forall file_line (readlines_from cur s).
Proof.
  induction s as [|c r IH]; intros cur Hcur; simpl.
  - destruct (is_empty cur); constructor; [|constructor].
    exists cur. auto.
  - destruct (Ascii.eqb c LF) eqn:E.
    + constructor; [exists cur; auto|]. now apply IH.
    + apply IH. rewrite has_lf_app, Hcur. simpl. now rewrite E.
Qed.

Lemma readlines_from_no_str_blank s :
  forall cur,
    has_str_blank (cur ++ s)%string = false ->
    Forall (fun text => has_str_blank text = false) (readlines_from cur s).
Proof.
  induction s as [|c r IH]; intros cur Hs; simpl.
  - rewrite string_app_nil_r in Hs. destruct (is_empty cur); constructor; auto.
  - destruct (Ascii.eqb_spec c LF) as [->|Hc].
    + replace (cur ++ String LF r)%string with ((cur ++ nl) ++ r)%string in Hs
        by (now rewrite string_app_assoc).
      apply has_str_blank_app in Hs as [Hline Hr].
      constructor; [exact Hline|]. now apply IH.
    + apply IH. now rewrite string_app_assoc.
Qed.

(** What the tokenizer keeps of a line of a file is a clean line. *)
Lemma str_rstrip_file_line text :
  file_line text ->
  has_str_blank text = false ->
  is_blank_line text = false ->
  valid_utf8 text = true ->
  clean_line (str_rstrip text).
Proof.
  intros (body & Hbody & Hshape) Hsb Hblank Hvalid.
  rewrite (str_rstrip_bytes text Hsb).
  assert (Hidem : rstrip bytes_isspace (rstrip bytes_isspace text)
                  = rstrip bytes_isspace text) by apply rstrip_idempotent.
  assert (Hnb : is_blank_line (rstrip bytes_isspace text) = false).
  { rewrite is_blank_line_all_space, all_space_rstrip.
    now rewrite <- is_blank_line_all_space. }
  assert (Hclean : has_str_blank (rstrip bytes_isspace text) = false).
  { destruct (rstrip_blanks bytes_isspace text) as (t & Ht & _).
    rewrite Ht in Hsb. now apply has_str_blank_app in Hsb as [H _]. }
  split; [|split; [exact Hnb|split]].
  - destruct Hshape as [E|E]; rewrite E.
    + rewrite rstrip_app_nl by reflexivity. now apply has_lf_rstrip.
    + now apply has_lf_rstrip.
  - now rewrite (str_rstrip_bytes _ Hclean).
  - now apply valid_utf8_rstrip.
Qed.

Lemma extract_blocks_loop_clean rest :
  Forall file_line rest ->
  Forall (fun text => has_str_blank text = false) rest ->
  forall idx token messages tok,
    Forall clean_line messages ->
    In tok (fst (extract_blocks_loop idx token messages rest)) ->
    block_of_lines (tok_message tok).
Proof.
  induction 1 as [|text rest Htext Hrest IH];
    intros Hsep idx token messages tok Hclean.
  - simpl. destruct token as [start|]; [|contradiction].
    destruct messages as [|x more] eqn:E; [contradiction|].
    intros [<-|[]]. exists (x :: more). split; [reflexivity|].
    split; [discriminate|exact Hclean].
  - inversion Hsep as [|? ? Hs Hsep']; subst.
    destruct (is_blank_line text) eqn:Hb.
    + rewrite (extract_blocks_loop_blank_line _ _ _ _ _ Hb).
      assert (Hnext : In tok (fst (extract_blocks_loop (S idx) None [] rest)) ->
                      block_of_lines (tok_message tok)).
      { apply IH; [exact Hsep'|constructor]. }
      destruct token as [start|]; [|exact Hnext].
      destruct messages as [|x more] eqn:E; [exact Hnext|].
      intros [<-|Hin]; [|now apply Hnext].
      exists (x :: more). split; [reflexivity|]. split; [discriminate|exact Hclean].
    + destruct (valid_utf8 text) eqn:Hvalid.
      2:{ rewrite (extract_blocks_loop_raises _ _ _ _ _ Hb Hvalid).
          contradiction. }
      rewrite (extract_blocks_loop_text _ _ _ _ _ Hb Hvalid).
      pose proof (str_rstrip_file_line text Htext Hs Hb Hvalid) as Hline.
      destruct token as [start|]; apply IH; auto.
      * apply Forall_app. split; [exact Hclean|]. now constructor.
      * now constructor.
Qed.

(** The blocks of a file without the blanks that are proper to [str.strip]
    are made of clean lines. *)
Lemma extract_blocks_clean content tok :
  has_str_blank content = false ->
  In tok (fst (extract_blocks (readlines content))) ->
  block_of_lines (tok_message tok).
Proof.
  intros Hsep. unfold extract_blocks, readlines.
  apply extract_blocks_loop_clean.
  - now apply readlines_from_lines.
  - now apply readlines_from_no_str_blank.
  - constructor.
Qed.

Lemma readlines_from_line body :
  has_lf body = false ->
  forall cur rest,
    readlines_from cur (body ++ String LF rest)%string =
    (cur ++ body ++ nl)%string :: readlines_from EmptyString rest.
Proof.
  induction body as [|c body IH]; intros Hbody cur rest.
  - simpl. reflexivity.
  - simpl in Hbody. apply orb_false_iff in Hbody as [Hc Hbody].
    change (String c body ++ String LF rest)%string
      with (String c (body ++ String LF rest)%string).
    change (readlines_from cur (String c (body ++ String LF rest)%string))
      with (if Ascii.eqb c LF
            then (cur ++ nl)%string :: readlines_from EmptyString (body ++ String LF rest)%string
            else readlines_from (cur ++ String c EmptyString)%string
                   (body ++ String LF rest)%string).
    rewrite Hc, (IH Hbody). now rewrite string_app_assoc.
Qed.

Lemma readlines_block b :
  b <> [] ->
  Forall clean_line b ->
  forall rest,
    readlines (join_lines b ++ nl ++ nl ++ rest)%string =
    map (fun l => (l ++ nl)%string) b ++ nl :: readlines rest.
Proof.
  unfold readlines, join_lines.
  induction b as [|l b IH]; intros Hne Hclean rest; [congruence|].
  inversion Hclean as [|? ? (Hlf & _) Hclean']; subst.
  destruct b as [|l2 more].
  - change (String.concat nl [l]) with l.
    change (l ++ nl ++ nl ++ rest)%string
      with (l ++ String LF (String LF rest))%string.
    rewrite (readlines_from_line l Hlf). reflexivity.
  - change (String.concat nl (l :: l2 :: more))
      with (l ++ nl ++ String.concat nl (l2 :: more))%string.
    rewrite !string_app_assoc.
    change (l ++ nl ++ String.concat nl (l2 :: more) ++ nl ++ nl ++ rest)%string
      with (l ++ String LF (String.concat nl (l2 :: more) ++ nl ++ nl ++ rest))%string.
    rewrite (readlines_from_line l Hlf).
    rewrite (IH ltac:(discriminate) Hclean' rest). reflexivity.
Qed.

Lemma clean_line_kept l :
  clean_line l ->
  is_blank_line (l ++ nl)%string = false /\
  valid_utf8 (l ++ nl)%string = true /\
  str_rstrip (l ++ nl)%string = l.
Proof.
  intros (_ & Hblank & Hstrip & Hvalid). split; [|split].
  - rewrite is_blank_line_all_space in *. now rewrite all_space_app, Hblank.
  - now rewrite (valid_utf8_app _ _ Hvalid).
  - now rewrite str_rstrip_app_nl.
Qed.

Lemma extract_blocks_loop_run ls :
  Forall clean_line ls ->
  forall idx start messages,
    extract_blocks_loop idx (Some start) messages
      (map (fun l => (l ++ nl)%string) ls) =
    (match messages ++ ls with
     | [] => []
     | _ :: _ => [mkToken start "" (join_lines (messages ++ ls)) []]
     end, None).
Proof.
  induction 1 as [|l ls Hl Hls IH]; intros idx start messages.
  - simpl. rewrite app_nil_r. now destruct messages.
  - destruct (clean_line_kept l Hl) as (Hb & Hv & Hs). cbn [map].
    rewrite (extract_blocks_loop_text _ _ _ _ _ Hb Hv), Hs.
    rewrite IH, <- app_assoc. reflexivity.
Qed.

Lemma extract_blocks_run b :
  b <> [] ->
  Forall clean_line b ->
  extract_blocks (map (fun l => (l ++ nl)%string) b)
  = ([mkToken 1 "" (join_lines b) []], None).
Proof.
  intros Hne Hclean. destruct b as [|l b]; [congruence|].
  inversion Hclean as [|? ? Hl Hb]; subst.
  unfold extract_blocks. cbn [map].
  destruct (clean_line_kept l Hl) as (Hblank & Hv & Hs).
  rewrite (extract_blocks_loop_text _ _ _ _ _ Hblank Hv), Hs.
  now rewrite (extract_blocks_loop_run b Hb).
Qed.

(** Reading back a file written from texts that are blocks: no exception,
    and the same texts. *)
Lemma extract_blocks_render msgs :
  (forall x, In x msgs ->
     exists text, snd x = Singular text /\ block_of_lines text) ->
  snd (extract_blocks (readlines (render msgs))) = None /\
  map tok_message (fst (extract_blocks (readlines (render msgs)))) =
  map (fun x => id_text (snd x)) msgs.
Proof.
  induction msgs as [|[n v] msgs IH]; intros Hmsgs; [split; reflexivity|].
  destruct (Hmsgs (n, v) (or_introl eq_refl)) as (text & Hv & b & -> & Hne & Hclean).
  simpl in Hv. subst v.
  change (render ((n, Singular (join_lines b)) :: msgs))
    with (join_lines b ++ nl ++ nl ++ render msgs)%string.
  rewrite (readlines_block b Hne Hclean).
  rewrite (extract_blocks_split _ nl) by reflexivity.
  rewrite (extract_blocks_run b Hne Hclean).
  destruct IH as [IHe IHt]; [intros x Hx; apply Hmsgs; now right|].
  unfold then_blocks, shift_blocks. cbn [fst snd].
  split; [exact IHe|].
  change (map (fun x => id_text (snd x)) ((n, Singular (join_lines b)) :: msgs))
    with (join_lines b :: map (fun x => id_text (snd x)) msgs).
  cbn [app map tok_message]. f_equal.
  rewrite map_map. cbn [shift_token tok_message].
  exact IHt.
Qed.

Lemma render_texts msgs msgs' :
  map (fun x => id_text (snd x)) msgs = map (fun x => id_text (snd x)) msgs' ->
  render msgs = render msgs'.
Proof.
  revert msgs'. induction msgs as [|[n v] msgs IH]; intros [|[n' v'] msgs'];
    simpl; try discriminate; [reflexivity|].
  intros [= -> E]. now rewrite (IH msgs' E).
Qed.

(** X5.  Writing the texts of the blocks of a file as [po2text] writes
    them, each followed by two newlines, and reading the blocks of what
    was written raises nothing and gives the same texts, in the same
    order, for a file without the characters that are blank for
    [str.strip] and not for [bytes.strip] (the separators U+001C to U+001F,
    the blanks of Unicode that are not ASCII); and writing those again
    gives the same file, byte for byte. *)
Theorem extract_blocks_of_written_file :
  forall content : bytes,
    has_str_blank content = false ->
    let toks := fst (extract_blocks (readlines content)) in
    let again := extract_blocks (readlines (written_from toks)) in
    snd again = None /\
    map tok_message (fst again) = map tok_message toks /\
    written_from (fst again) = written_from toks.
Proof.
  intros content Hsep toks again.
  destruct (extract_blocks_render
              (map (fun t => (tok_lineno t, Singular (tok_message t))) toks))
    as [Hnone Htexts].
  { intros x Hx. apply in_map_iff in Hx as (t & <- & Ht). simpl.
    exists (tok_message t). split; [reflexivity|].
    now apply (extract_blocks_clean content). }
  rewrite map_map in Htexts. cbn [snd id_text] in Htexts.
  fold (written_from toks) in Hnone, Htexts. fold again in Hnone, Htexts.
  split; [exact Hnone|]. split; [exact Htexts|].
  unfold written_from. apply render_texts. rewrite !map_map. exact Htexts.
Qed.

Lemma extract_blocks_of_written_file_witness :
  map tok_message
    (fst (extract_blocks
            (readlines
               (written_from (fst (extract_blocks (readlines sample_input)))))))
  = [("a" ++ nl ++ "b")%string; "c"] /\
  written_from (fst (extract_blocks (readlines sample_input)))
  = ("a" ++ nl ++ "b" ++ nl ++ nl ++ "c" ++ nl ++ nl)%string.
Proof.
  destruct (extract_blocks_of_written_file sample_input eq_refl)
    as (_ & Htexts & _).
  split; [exact Htexts|reflexivity].
Defined.

(** ** What extraction keeps *)

(** X6.  Extraction invents nothing: when it makes a template, every
    entry of the template is the entry of a text that is not empty and
    that is a block of the tree; it has no translation, is not fuzzy, and
    its locations are exactly the places where the text is a block. *)
Theorem extract_entries_come_from_blocks :
  forall (t : tree) (template : Catalog) (k : key) (m : Message),
    NoDup (map fst t) ->
    extract t = inr template ->
    In (k, m) (messages template) ->
    exists text,
      k = (text, None) /\ m_id m = Singular text /\ text <> "" /\
      m_string m = SNone /\ m_fuzzy m = false /\
      m_locations m = occurrences t text /\ occurrences t text <> [].
Proof.
  intros t template k m Hnd Ht Hin.
  destruct (extract_extracted_so_far t template Hnd Ht) as (Hget & Hkeys & Hplain).
  destruct (Hplain k m Hin) as (Ek & Hs & Hf & _ & Htr & _).
  specialize (Hget (id_text (m_id m))).
  rewrite <- Ek, (In_dict_get _ key_eqb_spec _ _ _ Hkeys Hin) in Hget.
  destruct Hget as (Eid & Hloc & Hne).
  exists (id_text (m_id m)). repeat split; auto.
  rewrite Eid in Htr. simpl in Htr. intros E. rewrite Eid in E. simpl in E.
  rewrite E in Htr. discriminate.
Qed.

Lemma extract_entries_come_from_blocks_witness :
  exists text,
    (("y", None) : key) = (text, None) /\ text <> "" /\
    occurrences sample_tree text
    = [("en-US/index.md", 3); ("en-US/guide/index.md", 1); ("en-US/guide/index.md", 5)].
Proof.
  assert (Hnd : NoDup (map fst sample_tree)).
  { repeat constructor; simpl; intuition discriminate. }
  destruct (extract sample_tree) as [e|template] eqn:Ht; [discriminate Ht|].
  assert (Hin : In (("y", None),
                    mkMessage (Singular "y") SNone
                      [("en-US/index.md", 3); ("en-US/guide/index.md", 1);
                       ("en-US/guide/index.md", 5)] false [] [] [] None)
                  (messages template)).
  { injection Ht as <-. right; left; reflexivity. }
  destruct (extract_entries_come_from_blocks sample_tree template _ _ Hnd Ht Hin)
    as (text & Ek & _ & Hne & _ & _ & Hloc & _).
  exists text. split; [exact Ek|]. split; [exact Hne|].
  rewrite <- Hloc. reflexivity.
Defined.

Section DistinctOrder.
Context {A : Type} (eqb : A -> A -> bool).
Hypothesis eqb_spec : forall x y, reflect (x = y) (eqb x y).

Lemma distinct_from_snoc l x :
  forall seen,
    distinct_from eqb seen (l ++ [x]) =
    distinct_from eqb seen l
      ++ (if existsb (eqb x) seen || existsb (eqb x) l then [] else [x]).
Proof.
  induction l as [|y l IH]; intros seen; simpl.
  - rewrite orb_false_r. now destruct (existsb (eqb x) seen).
  - destruct (existsb (eqb y) seen) eqn:E.
    + rewrite IH. f_equal.
      destruct (eqb_spec x y) as [->|_]; simpl; [|reflexivity].
      now rewrite E.
    + simpl. rewrite IH. simpl. f_equal.
      destruct (eqb x y), (existsb (eqb x) seen), (existsb (eqb x) l); reflexivity.
Qed.

Lemma In_distinct_from l x :
  forall seen, In x l -> ~ In x seen -> In x (distinct_from eqb seen l).
Proof.
  induction l as [|y l IH]; intros seen Hin Hs; simpl; [contradiction|].
  destruct (existsb (eqb y) seen) eqn:E.
  - destruct Hin as [->|Hin]; [|now apply IH].
    apply (existsb_eqb_In eqb eqb_spec) in E. contradiction.
  - destruct (eqb_spec x y) as [->|Hxy]; [now left|].
    right. apply IH.
    + destruct Hin as [E'|Hin]; [congruence|exact Hin].
    + intros [E'|H]; [congruence|contradiction].
Qed.

Lemma In_distinct l x : In x (distinct eqb l) <-> In x l.
Proof.
  split.
  - intros H. now apply (distinct_from_sound eqb eqb_spec) in H.
  - intros H. apply In_distinct_from; auto.
Qed.
End DistinctOrder.

Lemma add_block_keys c b :
  well_extracted b ->
  map fst (messages (add_block c b)) =
  if dict_mem key_eqb (messages c) (block_text b, None)
  then map fst (messages c)
  else map fst (messages c) ++ [(block_text b, None)].
Proof.
  destruct b as [f [[[lineno message] comments] context]].
  intros [Hne ->]. simpl. unfold add, setitem, key_for. simpl.
  unfold dict_mem.
  destruct (dict_get key_eqb (messages c) (message, None)) as [current|] eqn:E.
  - simpl. rewrite (dict_set_keys _ key_eqb_spec). unfold dict_mem. now rewrite E.
  - destruct message; [discriminate|]. simpl.
    rewrite (dict_set_keys _ key_eqb_spec). unfold dict_mem. now rewrite E.
Qed.

Lemma fold_add_block_keys bs :
  Forall well_extracted bs ->
  map fst (messages (fold_left add_block bs (new_catalog None 2))) =
  map (fun text => (text, @None str)) (distinct String.eqb (map block_text bs)).
Proof.
  induction bs as [|b bs IH] using rev_ind; intros Hwf; [reflexivity|].
  apply Forall_app in Hwf as [Hbs Hb]. inversion Hb as [|? ? Hb' _]; subst.
  specialize (IH Hbs).
  rewrite fold_left_app. simpl. rewrite add_block_keys by exact Hb'.
  rewrite map_app. simpl. unfold distinct in *.
  rewrite (distinct_from_snoc String.eqb String.eqb_spec). simpl.
  rewrite map_app, <- IH.
  assert (Hmem : dict_mem key_eqb (messages (fold_left add_block bs (new_catalog None 2)))
                   (block_text b, None)
                 = existsb (String.eqb (block_text b)) (map block_text bs)).
  { unfold dict_mem.
    destruct (dict_get key_eqb _ (block_text b, None)) eqn:E.
    - symmetry. apply (existsb_eqb_In String.eqb String.eqb_spec).
      apply (In_distinct String.eqb String.eqb_spec).
      apply (dict_get_In _ key_eqb_spec) in E.
      apply (in_map fst) in E. simpl in E. rewrite IH in E.
      apply in_map_iff in E as (text & [= <-] & Hin). exact Hin.
    - symmetry. apply not_true_is_false. intros H.
      apply (existsb_eqb_In String.eqb String.eqb_spec) in H.
      apply (In_distinct String.eqb String.eqb_spec) in H.
      apply (dict_get_None _ key_eqb_spec) in E. apply E. rewrite IH.
      apply in_map_iff. eauto. }
  rewrite Hmem.
  destruct (existsb (String.eqb (block_text b)) (map block_text bs));
    simpl; [now rewrite app_nil_r|reflexivity].
Qed.

(** X7.  The template lists the texts in the order extraction first meets
    them, each once: its keys are the texts of the blocks of the tree, in
    order, without the repetitions. *)
Theorem extract_keeps_first_occurrence_order :
  forall (t : tree) (template : Catalog),
    extract t = inr template ->
    map fst (messages template) =
    map (fun text => (text, @None str))
      (distinct String.eqb (map block_text (blocks t))).
Proof.
  intros t template Ht. apply extract_inr in Ht as [_ ->].
  apply fold_add_block_keys. apply blocks_well_extracted.
Qed.

Lemma extract_keeps_first_occurrence_order_witness :
  exists template,
    extract sample_tree = inr template /\
    map fst (messages template) = [("x", None); ("y", None); ("z", None)].
Proof.
  destruct (extract sample_tree) as [e|template] eqn:Ht; [discriminate Ht|].
  exists template. split; [reflexivity|].
  rewrite (extract_keeps_first_occurrence_order sample_tree template Ht).
  reflexivity.
Defined.

(** ** The order and the failures of the regenerator *)

Lemma insert_by_line_Permutation x l : Permutation (x :: l) (insert_by_line x l).
Proof.
  induction l as [|y l IH]; simpl; [reflexivity|].
  destruct (fst x <=? fst y); [reflexivity|].
  rewrite perm_swap. now constructor.
Qed.

Lemma sorted_by_line_Permutation l : Permutation l (sorted_by_line l).
Proof.
  induction l as [|x l IH]; simpl; [constructor|].
  rewrite <- insert_by_line_Permutation. now constructor.
Qed.

Lemma insert_by_line_same_line n x l :
  filter (fun y => fst y =? n) (insert_by_line x l) =
  filter (fun y => fst y =? n) (x :: l).
Proof.
  induction l as [|y l IH]; simpl; [reflexivity|].
  destruct (fst x <=? fst y) eqn:E; simpl; [reflexivity|].
  rewrite IH. simpl.
  apply Nat.leb_gt in E.
  destruct (fst x =? n) eqn:Ex, (fst y =? n) eqn:Ey; try reflexivity.
  apply Nat.eqb_eq in Ex, Ey. lia.
Qed.

Lemma sorted_by_line_stable n l :
  filter (fun y => fst y =? n) (sorted_by_line l) =
  filter (fun y => fst y =? n) l.
Proof.
  induction l as [|x l IH]; simpl; [reflexivity|].
  rewrite insert_by_line_same_line. simpl. now rewrite IH.
Qed.

(** X8.  What [po2text] writes to a file is, for a catalog of singular
    messages, the occurrences that go to that file, each once, in the order
    of their line numbers; occurrences with the same line number (of files
    of the same name in two directories) stay in the order of the
    catalog. *)
Theorem po2text_sorts_by_line :
  forall (c : Catalog),
    regenerable c ->
    po2text c = (map render_file (groups_of c), None) /\
    forall name msgs,
      In (name, msgs) (groups_of c) ->
      let met := group name (all_occurrences (messages c)) in
      ascending msgs /\
      Permutation met msgs /\
      forall n, filter (fun y => fst y =? n) msgs = filter (fun y => fst y =? n) met.
Proof.
  intros c Hc. split; [now apply po2text_regenerable|].
  intros name msgs Hin met.
  destruct (In_groups_of c name msgs Hin) as [-> _].
  split; [apply sorted_by_line_ascending|].
  split; [apply sorted_by_line_Permutation|].
  intros n. apply sorted_by_line_stable.
Qed.

Lemma same_name_catalog_regenerable : regenerable same_name_catalog.
Proof.
  intros k m Hin. simpl in Hin.
  destruct Hin as [E|[E|[]]]; injection E as <- <-;
    (split; [reflexivity|]); intros x [<-|[]]; reflexivity.
Qed.

Lemma po2text_sorts_by_line_witness :
  po2text same_name_catalog
  = ([("index.md", ("x" ++ nl ++ nl ++ "Y" ++ nl ++ nl)%string)], None) /\
  ascending [(1, Singular "x"); (1, Singular "Y")].
Proof.
  destruct (po2text_sorts_by_line same_name_catalog same_name_catalog_regenerable)
    as [Hrun Hfiles].
  split; [exact Hrun|].
  destruct (Hfiles "index.md" [(1, Singular "x"); (1, Singular "Y")]) as [H _];
    [left; reflexivity|exact H].
Defined.

Lemma collect_locations_raises m locs :
  forall files e,
    collect_locations m locs files = inl e -> e = AttributeError.
Proof.
  induction locs as [|x locs IH]; intros files e; simpl; [discriminate|].
  unfold choose_msg.
  destruct (m_fuzzy m); [apply IH|].
  destruct (m_string m) as [|s|forms]; try (intros [= <-]; reflexivity).
  destruct (is_empty (str_strip s)); apply IH.
Qed.

Lemma collect_messages_untranslatable ms k m :
  In (k, m) ms ->
  m_locations m <> [] ->
  m_fuzzy m = false ->
  (forall s, m_string m <> SStr s) ->
  forall files, collect_messages ms files = inl AttributeError.
Proof.
  intros Hin Hloc Hf Hs.
  induction ms as [|[k0 m0] ms IH]; intros files; simpl; [contradiction|].
  destruct (collect_locations m0 (m_locations m0) files) as [e|files'] eqn:E.
  - now rewrite (collect_locations_raises _ _ _ _ E).
  - destruct Hin as [[= -> ->]|Hin]; [|now apply IH].
    exfalso. destruct (m_locations m) as [|x locs]; [congruence|].
    simpl in E. unfold choose_msg in E. rewrite Hf in E.
    destruct (m_string m) as [|s|forms]; try discriminate.
    now apply (Hs s).
Qed.

(** X9.  A message with a location that is not fuzzy and whose string is
    not a [str] (the tuple of a message with plural forms, or [None])
    makes [po2text] raise [AttributeError] before it writes anything:
    whatever the other messages are, no file is written. *)
Theorem po2text_rejects_plural_strings :
  forall (c : Catalog) (k : key) (m : Message),
    In (k, m) (messages c) ->
    m_locations m <> [] ->
    m_fuzzy m = false ->
    (forall s, m_string m <> SStr s) ->
    po2text c = ([], Some AttributeError).
Proof.
  intros c k m Hin Hloc Hf Hs. unfold po2text, po2text_files.
  now rewrite (collect_messages_untranslatable _ k m Hin Hloc Hf Hs).
Qed.

Lemma po2text_rejects_plural_strings_witness :
  po2text plural_catalog = ([], Some AttributeError).
Proof.
  apply (po2text_rejects_plural_strings plural_catalog ("file", None)
           (mkMessage (Plural "file" "files")
              (STuple [Some "fichier"; Some "fichiers"])
              [("en-US/index.md", 3)] false [] [] [] None)).
  - right; left; reflexivity.
  - discriminate.
  - reflexivity.
  - discriminate.
Defined.

(** ** The file regenerated from one source file *)

Lemma two_sorted_equal (l : lines_of_file) :
  forall l',
    StronglySorted (fun a b => fst a <= fst b) l ->
    StronglySorted (fun a b => fst a < fst b) l' ->
    Permutation l l' -> l = l'.
Proof.
  induction l as [|a l IH]; intros l' Hs Hs' Hperm.
  - apply Permutation_nil in Hperm. now subst.
  - destruct l' as [|b l'];
      [apply Permutation_sym, Permutation_nil in Hperm; discriminate|].
    inversion Hs as [|? ? Hsl Hal]; subst.
    inversion Hs' as [|? ? Hsl' Hbl']; subst.
    assert (Eab : a = b).
    { assert (Ha : In a (b :: l')) by (apply (Permutation_in a Hperm); now left).
      assert (Hb : In b (a :: l))
        by (apply (Permutation_in b (Permutation_sym Hperm)); now left).
      destruct Ha as [Ha|Ha]; [now subst|].
      destruct Hb as [Hb|Hb]; [now subst|].
      rewrite Forall_forall in Hal, Hbl'.
      specialize (Hal b Hb). specialize (Hbl' a Ha). lia. }
    subst b. f_equal. apply IH; auto.
    now apply Permutation_cons_inv in Hperm.
Qed.

Lemma sorted_by_line_unique l l' :
  Permutation l l' ->
  StronglySorted (fun a b => fst a < fst b) l' ->
  sorted_by_line l = l'.
Proof.
  intros Hperm Hs'. apply two_sorted_equal; [|exact Hs'|].
  - apply Sorted_StronglySorted; [|apply sorted_by_line_ascending].
    intros a b c. apply Nat.le_trans.
  - now rewrite <- sorted_by_line_Permutation.
Qed.

Section GroupBy.
Context {A : Type} (text_of : A -> str).

Lemma group_by_text_other (x : A) l ts :
  ~ In (text_of x) ts ->
  flat_map (fun text => filter (fun y => String.eqb (text_of y) text) (x :: l)) ts
  = flat_map (fun text => filter (fun y => String.eqb (text_of y) text) l) ts.
Proof.
  induction ts as [|t ts IH]; intros Hn; [reflexivity|].
  cbn [flat_map]. rewrite IH by (intros H; apply Hn; now right).
  f_equal. cbn [filter].
  destruct (String.eqb_spec (text_of x) t) as [E|_]; [|reflexivity].
  exfalso. apply Hn. now left.
Qed.

Lemma group_by_text_cons (x : A) l texts :
  NoDup texts ->
  In (text_of x) texts ->
  Permutation
    (flat_map (fun text => filter (fun y => String.eqb (text_of y) text) (x :: l)) texts)
    (x :: flat_map (fun text => filter (fun y => String.eqb (text_of y) text) l) texts).
Proof.
  induction texts as [|t texts IH]; intros Hnd Hx; [contradiction|].
  inversion Hnd as [|? ? Hnot Hnd']; subst. cbn [flat_map].
  destruct (String.eqb_spec (text_of x) t) as [E|E].
  - rewrite group_by_text_other by (now rewrite E).
    cbn [filter]. rewrite E, String.eqb_refl. reflexivity.
  - destruct Hx as [Hx|Hx]; [congruence|].
    rewrite (IH Hnd' Hx). cbn [filter].
    apply String.eqb_neq in E. rewrite E.
    apply Permutation_sym, Permutation_middle.
Qed.

(** Taking the items of a list text by text, each text once, gives the
    items of the list. *)
Lemma group_by_text_Permutation (l : list A) :
  forall texts,
    NoDup texts ->
    (forall x, In x l -> In (text_of x) texts) ->
    Permutation
      (flat_map (fun text => filter (fun x => String.eqb (text_of x) text) l) texts)
      l.
Proof.
  induction l as [|x l IH]; intros texts Hnd Hcover.
  - clear Hnd Hcover. induction texts as [|t texts IHt]; simpl;
      [constructor|exact IHt].
  - rewrite group_by_text_cons; [|exact Hnd|apply Hcover; now left].
    constructor. apply IH; [exact Hnd|].
    intros y Hy. apply Hcover. now right.
Qed.
End GroupBy.

Lemma flat_map_map_out {A B C} (f : B -> C) (g : A -> list B) l :
  flat_map (fun x => map f (g x)) l = map f (flat_map g l).
Proof.
  induction l as [|x l IH]; simpl; [reflexivity|]. now rewrite IH, map_app.
Qed.

Lemma append_all_one_name name vs :
  forall l0,
    append_all [(name, l0)] (map (pair name) vs) = [(name, l0 ++ vs)].
Proof.
  induction vs as [|v vs IH]; intros l0; simpl; [now rewrite app_nil_r|].
  assert (E : files_append [(name, l0)] name v = [(name, l0 ++ [v])]).
  { unfold files_append. simpl. now rewrite String.eqb_refl. }
  rewrite E, IH, <- app_assoc. reflexivity.
Qed.

Lemma append_all_from_nothing name vs :
  append_all [] (map (pair name) vs) =
  match vs with [] => [] | _ => [(name, vs)] end.
Proof.
  destruct vs as [|v vs]; [reflexivity|].
  change (append_all [] (map (pair name) (v :: vs)))
    with (append_all [(name, [v])] (map (pair name) vs)).
  now rewrite append_all_one_name.
Qed.

Lemma blocks_of_sorted content :
  StronglySorted lt (map extracted_lineno (blocks_of content)).
Proof.
  destruct (valid_utf8 content) eqn:Hv;
    [|rewrite (blocks_of_not_utf8 _ Hv); constructor].
  rewrite (blocks_of_tokens _ Hv). unfold extract_blocks.
  destruct (extract_blocks_loop_sorted (readlines content) 0 None []) as [_ Hs];
    [discriminate|].
  induction (fst (extract_blocks_loop 0 None [] (readlines content))) as [|t l IH];
    simpl; [constructor|].
  inversion Hs as [|? ? Hs' Hall]; subst. specialize (IH Hs').
  destruct (is_empty (tok_message t)); simpl; [exact IH|].
  constructor; [exact IH|].
  clear - Hall. induction l as [|u l IHl]; simpl; [constructor|].
  inversion Hall as [|? ? Hu Hall']; subst.
  destruct (is_empty (tok_message u)); simpl; [auto|]. constructor; auto.
Qed.

Lemma flat_map_on_map {A B C} (h : A -> B) (F : B -> list C) l :
  flat_map (fun x => F (h x)) l = flat_map F (map h l).
Proof. induction l as [|x l IH]; simpl; [reflexivity|]. now rewrite IH. Qed.

Lemma flat_map_ext_in' {A B} (F G : A -> list B) l :
  (forall x, In x l -> F x = G x) -> flat_map F l = flat_map G l.
Proof.
  induction l as [|x l IH]; simpl; intros H; [reflexivity|].
  rewrite (H x (or_introl eq_refl)), IH; [reflexivity|]. intros; apply H; now right.
Qed.

Lemma StronglySorted_by_line (l : lines_of_file) :
  StronglySorted lt (map fst l) -> StronglySorted (fun a b => fst a < fst b) l.
Proof.
  induction l as [|a l IH]; simpl; intros H; [constructor|].
  inversion H as [|? ? Hs Hall]; subst. constructor; [auto|].
  rewrite Forall_map in Hall. exact Hall.
Qed.

Lemma blocks_single_file f content :
  blocks [(f, content)] = map (pair f) (blocks_of content).
Proof. unfold blocks. simpl. apply app_nil_r. Qed.

(** The texts of the entries of a catalog whose keys have no context. *)
Lemma NoDup_texts (ms : list (key * Message)) :
  NoDup (map fst ms) ->
  (forall k m, In (k, m) ms -> snd k = None) ->
  NoDup (map (fun km : key * Message => fst (fst km)) ms).
Proof.
  induction ms as [|[[text ctx] m] ms IH]; simpl; intros Hnd Hctx;
    [constructor|].
  inversion Hnd as [|? ? Hnot Hnd']; subst.
  constructor; [|apply IH; [exact Hnd'|intros k m' H; apply (Hctx k m'); now right]].
  intros Hin. apply Hnot. apply in_map_iff in Hin as ([[text' ctx'] m'] & E & Hin).
  simpl in E. subst text'.
  pose proof (Hctx _ _ (or_introl eq_refl)) as E1.
  pose proof (Hctx _ _ (or_intror Hin)) as E2. simpl in E1, E2. subst ctx ctx'.
  change (text, @None str) with (fst ((text, @None str), m')). now apply in_map.
Qed.

(** The entries of a catalog that follows the template of one file. *)
Lemma follows_template_entries f content c template :
  extract [(f, content)] = inr template ->
  follows_template c template ->
  NoDup (map (fun km : key * Message => fst (fst km)) (messages c)) /\
  (forall b, In b (blocks [(f, content)]) ->
     In (block_text b) (map (fun km : key * Message => fst (fst km)) (messages c))) /\
  forall k m,
    In (k, m) (messages c) ->
    exists text s,
      k = (text, None) /\ m_id m = Singular text /\ m_string m = SStr s /\
      m_locations m = locations_of text (blocks [(f, content)]) /\
      dict_get key_eqb (messages c) (text, None) = Some m.
Proof.
  intros Ht (HkeysC & Hkeys & Hfollows).
  assert (Hnd : NoDup (map fst [(f, content)])) by (repeat constructor; intros []).
  destruct (extract_extracted_so_far _ _ Hnd Ht) as (Hget & HkeysT & Hplain).
  assert (Hentry : forall k m,
    In (k, m) (messages c) ->
    exists text s,
      k = (text, None) /\ m_id m = Singular text /\ m_string m = SStr s /\
      m_locations m = locations_of text (blocks [(f, content)]) /\
      dict_get key_eqb (messages c) (text, None) = Some m).
  { intros k m Hin.
    destruct (Hfollows k m Hin) as (tm & Htm & Hid & Hloc & s & Hs).
    apply (dict_get_In _ key_eqb_spec) in Htm.
    destruct (Hplain k tm Htm) as (Ek & _).
    specialize (Hget (id_text (m_id tm))).
    rewrite <- Ek, (In_dict_get _ key_eqb_spec _ _ _ HkeysT Htm) in Hget.
    destruct Hget as (Eid & Eloc & _).
    exists (id_text (m_id tm)), s. repeat split; try congruence.
    rewrite <- Ek. now apply (In_dict_get _ key_eqb_spec). }
  split; [|split; [|exact Hentry]].
  - apply NoDup_texts; [exact HkeysC|].
    intros k m Hin. now destruct (Hentry k m Hin) as (text & s & -> & _).
  - intros b Hb.
    assert (Hk : In (block_text b, @None str) (map fst (messages c))).
    { apply Hkeys. apply extract_inr in Ht as [_ ->].
      rewrite fold_add_block_keys by apply blocks_well_extracted.
      apply in_map_iff. exists (block_text b). split; [reflexivity|].
      apply (In_distinct _ String.eqb_spec). now apply in_map. }
    apply in_map_iff in Hk as ([k m] & E & Hin). simpl in E. subst k.
    apply in_map_iff. exists ((block_text b, None), m). auto.
Qed.

Lemma po2text_single_file_groups f content c template :
  file_name_ok (path_name f) = true ->
  extract [(f, content)] = inr template ->
  follows_template c template ->
  regenerable c /\
  groups_of c =
    match blocks_of content with
    | [] => []
    | rs => [(path_name f, regenerated_lines c rs)]
    end.
Proof.
  intros Hname Ht Hfollows.
  destruct (follows_template_entries f content c template Ht Hfollows)
    as (Hndtexts & Hcover & Hentry).
  rewrite blocks_single_file in Hcover, Hentry.
  set (rs := blocks_of content) in *.
  set (bs := map (pair f) rs) in *.
  set (texts := map (fun km : key * Message => fst (fst km)) (messages c)) in *.
  set (g := fun b : str * extracted =>
              (extracted_lineno (snd b), Singular (emitted_for c (block_text b)))).
  assert (Hbs : forall b, In b bs -> fst b = f).
  { intros b Hb. apply in_map_iff in Hb as (r & <- & _). reflexivity. }
  split.
  - intros k m Hin.
    destruct (Hentry k m Hin) as (text & s & _ & Hid & Hs & Hloc & _).
    split; [unfold is_singular; now rewrite Hid, Hs|].
    intros x Hx. rewrite Hloc in Hx. unfold locations_of in Hx.
    apply in_map_iff in Hx as (b & <- & Hb). apply filter_In in Hb as [Hb _].
    specialize (Hbs b Hb). destruct b as [f' [[[lineno message] comments] context]].
    simpl in *. now subst f'.
  - assert (Hocc : all_occurrences (messages c) =
              map (pair (path_name f))
                (map g (flat_map
                          (fun text => filter (fun b => String.eqb (block_text b) text) bs)
                          texts))).
    { unfold all_occurrences.
      transitivity
        (flat_map
           (fun km : key * Message =>
              map (fun b => (path_name f, g b))
                (filter (fun b => String.eqb (block_text b) (fst (fst km))) bs))
           (messages c)); [apply flat_map_ext_in'|]; cycle 1.
      - rewrite (flat_map_on_map (fun km : key * Message => fst (fst km))
                   (fun text => map (fun b => (path_name f, g b))
                                  (filter (fun b => String.eqb (block_text b) text) bs))).
        rewrite flat_map_map_out, map_map. reflexivity.
      - intros [k m] Hin. simpl.
        destruct (Hentry k m Hin) as (text & s & -> & Hid & Hs & Hloc & Hget).
        simpl. unfold occurrences_of. rewrite Hloc. unfold locations_of.
        rewrite map_map. apply map_ext_in. intros b Hb.
        apply filter_In in Hb as [Hb Htx]. apply String.eqb_eq in Htx.
        specialize (Hbs b Hb). unfold g, emitted_for.
        destruct b as [f' [[[lineno message] comments] context]].
        simpl in *. subst f' message. now rewrite Hget. }
    assert (Hperm : Permutation
              (flat_map (fun text => filter (fun b => String.eqb (block_text b) text) bs) texts)
              bs).
    { apply group_by_text_Permutation; [exact Hndtexts|exact Hcover]. }
    assert (Hlines : map g bs = regenerated_lines c rs).
    { unfold bs, regenerated_lines. rewrite map_map. apply map_ext.
      intros [[[lineno message] comments] context]. reflexivity. }
    assert (Hsorted : sorted_by_line
              (map g (flat_map (fun text => filter (fun b => String.eqb (block_text b) text) bs) texts))
              = regenerated_lines c rs).
    { apply sorted_by_line_unique.
      - rewrite <- Hlines. now apply Permutation_map.
      - apply StronglySorted_by_line. unfold regenerated_lines.
        rewrite map_map. simpl. apply blocks_of_sorted. }
    unfold groups_of. rewrite Hocc, append_all_from_nothing.
    destruct (map g (flat_map
                       (fun text => filter (fun b => String.eqb (block_text b) text) bs)
                       texts)) as [|v vs] eqn:E.
    + apply (Permutation_map g) in Hperm. rewrite E in Hperm.
      apply Permutation_nil in Hperm. rewrite Hlines in Hperm.
      destruct rs; [reflexivity|discriminate].
    + cbn [map fst snd]. rewrite Hsorted.
      destruct rs as [|r rs'] eqn:Ers; [|reflexivity].
      simpl in Hsorted. destruct (insert_by_line v (sorted_by_line vs)) eqn:E';
        [|discriminate].
      exfalso. assert (H : In v []) by (rewrite <- E'; apply In_insert_by_line; now left).
      exact H.
Qed.

(** X10.  For the template extracted from one source file, and a catalog
    that follows it entry by entry, in whatever order it has its entries,
    [po2text] writes one file, under the name of the source file: it has
    one text for each block of the source, in the order of the blocks,
    which is the translation of the block's text when the catalog has one
    that is not fuzzy and not blank (a string of blank characters of
    Unicode is blank), and the text of the block otherwise. *)
Theorem po2text_single_file :
  forall (f : str) (content : bytes) (c template : Catalog),
    file_name_ok (path_name f) = true ->
    extract [(f, content)] = inr template ->
    follows_template c template ->
    po2text c =
      (match blocks_of content with
       | [] => []
       | rs => [(path_name f, render (regenerated_lines c rs))]
       end, None).
Proof.
  intros f content c template Hname Ht Hfollows.
  destruct (po2text_single_file_groups f content c template Hname Ht Hfollows)
    as [Hc Hgroups].
  destruct (po2text_regenerable c Hc) as [_ ->]. rewrite Hgroups.
  destruct (blocks_of content); reflexivity.
Qed.

Lemma blank_yx_catalog_follows :
  follows_template blank_yx_catalog (two_blocks_template "en-US/index.md").
Proof.
  split; [|split].
  - repeat constructor; simpl; intuition discriminate.
  - intros k. simpl. intuition.
  - intros k m [E|[E|[]]]; injection E as <- <-; simpl;
      eexists; (split; [reflexivity|]); repeat split; eexists; reflexivity.
Qed.

Lemma po2text_single_file_witness :
  po2text blank_yx_catalog =
  ([("index.md", ("x" ++ nl ++ nl ++ "b" ++ nl ++ nl)%string)], None).
Proof.
  exact (po2text_single_file "en-US/index.md" two_blocks blank_yx_catalog
           (two_blocks_template "en-US/index.md")
           eq_refl eq_refl blank_yx_catalog_follows).
Defined.

Lemma blocks_of_texts content :
  valid_utf8 content = true ->
  map extracted_text (blocks_of content) =
  filter (fun text => negb (is_empty text))
    (map tok_message (fst (extract_blocks (readlines content)))).
Proof.
  intros Hv. rewrite (blocks_of_tokens _ Hv).
  induction (fst (extract_blocks (readlines content))) as [|t l IH]; simpl;
    [reflexivity|].
  destruct (is_empty (tok_message t)); simpl; now rewrite IH.
Qed.

Lemma filter_all {A} (p : A -> bool) l :
  (forall x, In x l -> p x = true) -> filter p l = l.
Proof.
  induction l as [|x l IH]; simpl; intros H; [reflexivity|].
  rewrite (H x (or_introl eq_refl)), IH; [reflexivity|]. intros; apply H; now right.
Qed.

Lemma emitted_text_falls_back m : falls_back m -> emitted_text m = id_text (m_id m).
Proof.
  unfold emitted_text. intros [Hf|(s & -> & Hs)].
  - rewrite Hf. now destruct (m_string m).
  - now rewrite Hs, andb_false_r.
Qed.

(** X11.  Regenerating a source file from a catalog that has no usable
    translation (every entry is fuzzy or blank) gives a file with the same
    blocks: extraction raises nothing on it and finds in it the texts it
    found in the source, in the same order, when the source has none of
    the characters that are blank for [str.strip] and not for
    [bytes.strip] (the separators U+001C to U+001F, the blanks of Unicode
    that are not ASCII). *)
Theorem regenerate_untranslated_round_trip :
  forall (f : str) (content : bytes) (c template : Catalog),
    file_name_ok (path_name f) = true ->
    has_str_blank content = false ->
    extract [(f, content)] = inr template ->
    follows_template c template ->
    (forall k m, In (k, m) (messages c) -> falls_back m) ->
    blocks_of content <> [] ->
    exists out results,
      po2text c = ([(path_name f, out)], None) /\
      extract_from_file extract_blocks out = inr results /\
      map extracted_text results = map extracted_text (blocks_of content).
Proof.
  intros f content c template Hname Hsep Ht Hfollows Hback Hblocks.
  destruct (po2text_single_file_groups f content c template Hname Ht Hfollows)
    as [Hc Hgroups].
  destruct (po2text_regenerable c Hc) as [_ Hrun].
  destruct (follows_template_entries f content c template Ht Hfollows)
    as (_ & _ & Hentry).
  assert (Hvalid : valid_utf8 content = true).
  { apply extract_inr in Ht as [Hutf _]. now inversion Hutf. }
  set (rs := blocks_of content) in *.
  set (out := render (regenerated_lines c rs)).
  assert (Hsame : forall text, emitted_for c text = text).
  { intros text. unfold emitted_for.
    destruct (dict_get key_eqb (messages c) (text, None)) as [m|] eqn:E;
      [|reflexivity].
    apply (dict_get_In _ key_eqb_spec) in E.
    destruct (Hentry _ _ E) as (text' & s & [= <-] & Hid & _).
    rewrite (emitted_text_falls_back m (Hback _ _ E)), Hid. reflexivity. }
  assert (Htexts : map (fun x : nat * msgid => id_text (snd x)) (regenerated_lines c rs)
                   = map extracted_text rs).
  { unfold regenerated_lines. rewrite map_map. apply map_ext.
    intros r. simpl. apply Hsame. }
  assert (Hin : forall text, In text (map extracted_text rs) ->
            is_empty text = false /\ block_of_lines text).
  { intros text Htx. unfold rs in Htx. rewrite (blocks_of_texts _ Hvalid) in Htx.
    apply filter_In in Htx as [Htx Hne]. apply negb_true_iff in Hne.
    split; [exact Hne|].
    apply in_map_iff in Htx as (tok & <- & Htok).
    now apply (extract_blocks_clean content). }
  destruct (extract_blocks_render (regenerated_lines c rs)) as [Hnone Hread].
  { intros x Hx. unfold regenerated_lines in Hx.
    apply in_map_iff in Hx as (r & <- & Hr). simpl.
    eexists. split; [reflexivity|]. rewrite Hsame.
    apply Hin. now apply in_map. }
  fold out in Hnone, Hread.
  assert (Hvout : valid_utf8 out = true).
  { pose proof (extract_blocks_error out) as He. rewrite Hnone in He.
    destruct (valid_utf8 out); [reflexivity|discriminate]. }
  exists out, (blocks_of out). split; [|split].
  - rewrite Hrun, Hgroups. fold rs. destruct rs; [congruence|reflexivity].
  - now rewrite extract_from_file_blocks, Hvout.
  - rewrite (blocks_of_texts _ Hvout), Hread, Htexts.
    apply filter_all. intros text Htx. apply negb_true_iff. now apply Hin.
Qed.

Lemma regenerate_untranslated_round_trip_witness :
  exists out results,
    po2text untranslated_catalog = ([("index.md", out)], None) /\
    extract_from_file extract_blocks out = inr results /\
    map extracted_text results = ["a"; "b"].
Proof.
  apply (regenerate_untranslated_round_trip "en-US/index.md" two_blocks
           untranslated_catalog (two_blocks_template "en-US/index.md")).
  - reflexivity.
  - reflexivity.
  - reflexivity.
  - split; [|split].
    + repeat constructor; simpl; intuition discriminate.
    + intros k. simpl. intuition.
    + intros k m [E|[E|[]]]; injection E as <- <-; simpl;
        eexists; (split; [reflexivity|]); repeat split; eexists; reflexivity.
  - intros k m [E|[E|[]]]; injection E as <- <-; right; simpl; eauto.
  - discriminate.
Defined.

(** ** The counts of the completion gate *)

(** X12.  When the count of a locale catalog goes through, the number of
    translated messages is at most the number of messages of the catalog,
    which is at most the number of messages of the template: the fraction
    the gate tests is never above 1. *)
Theorem count_translated_at_most_total :
  forall (template catalog : Catalog) (nb : nat),
    NoDup (map fst (messages catalog)) ->
    count_translated template (messages catalog) 0 = inr nb ->
    nb <= List.length (messages catalog) /\
    List.length (messages catalog) <= List.length (messages template).
Proof.
  intros template catalog nb. apply count_translated_at_most_total_aux.
Qed.

Lemma count_translated_at_most_total_witness :
  9 <= List.length (messages nine_of_ten) /\
  List.length (messages nine_of_ten) <= List.length (messages template_of_ten).
Proof.
  apply (count_translated_at_most_total template_of_ten nine_of_ten 9).
  - repeat constructor; simpl; intuition discriminate.
  - reflexivity.
Defined.

(** X13.  For a template of at most 200 messages, the gate leaves a locale
    out exactly when fewer than 89.5% of the template's messages are
    translated in it (200 nb < 179 total): at 89.5% and above, the fraction
    rounds to 0.90 or more and the locale is regenerated. *)
Theorem completion_gate_threshold :
  forall (template catalog : Catalog) (code : str) (nb : nat),
    let total := List.length (messages template) in
    let percent := round0 (float_of_nat nb / float_of_nat total * 100)%float in
    code <> "en_US" ->
    1 <= total <= 200 ->
    NoDup (map fst (messages catalog)) ->
    count_translated template (messages catalog) 0 = inr nb ->
    generate_locale template total code (Readable catalog) =
    if 200 * nb <? 179 * total
    then ([Print (Skipped code nb total percent)], None)
    else regenerated code nb total percent catalog.
Proof.
  intros template catalog code nb total percent Hcode Htotal Hnd Hcount.
  assert (Hnb : nb <= total).
  { destruct (count_translated_at_most_total_aux template catalog nb Hnd Hcount). lia. }
  rewrite <- (gate_excludes_below_895 nb total) by lia.
  apply generate_locale_counted; [exact Hcode|lia|exact Hcount].
Qed.

Lemma completion_gate_threshold_witness :
  generate_locale template_of_ten 10 "fr" (Readable eight_of_ten) =
  ([Print (Skipped "fr" 8 10 80)], None).
Proof.
  apply (completion_gate_threshold template_of_ten eight_of_ten "fr" 8).
  - discriminate.
  - simpl. lia.
  - repeat constructor; simpl; intuition discriminate.
  - reflexivity.
Defined.

(** ** [generate]: the source locale and the empty template *)

Lemma for_each_silent {X} (body : X -> list event * option exn) xs :
  (forall x, In x xs -> fst (body x) = []) ->
  fst (for_each body xs) = [] /\
  (snd (for_each body xs) = None <-> forall x, In x xs -> snd (body x) = None).
Proof.
  induction xs as [|x xs IH]; intros Hsilent; simpl.
  - split; [reflexivity|]. split; [intros _ ? []|reflexivity].
  - pose proof (Hsilent x (or_introl eq_refl)) as Hx.
    destruct IH as [IH1 IH2]; [intros; apply Hsilent; now right|].
    destruct (body x) as [evs [e|]] eqn:E; simpl in *.
    + split; [exact Hx|]. split; [discriminate|].
      intros H. specialize (H x (or_introl eq_refl)). now rewrite E in H.
    + destruct (for_each body xs) as [evs' r]. simpl in *. subst evs evs'.
      split; [reflexivity|]. rewrite IH2. split.
      * intros H y [<-|Hy]; [now rewrite E|auto].
      * intros H y Hy. apply H. now right.
Qed.

Lemma In_insert_by_name x d l : In x (insert_by_name d l) <-> x = d \/ In x l.
Proof.
  induction l as [|y l IH]; simpl; [intuition|].
  destruct (String.leb (ld_name d) (ld_name y)); simpl; [intuition|].
  rewrite IH. intuition.
Qed.

Lemma In_sorted_po_files d dirs :
  In d (sorted_po_files dirs) <-> In d dirs /\ ld_po d <> Absent.
Proof.
  unfold sorted_po_files.
  assert (H : forall l, In d (fold_right insert_by_name [] l) <-> In d l).
  { induction l as [|y l IH]; simpl; [tauto|].
    rewrite In_insert_by_name, IH. intuition. }
  rewrite H, filter_In. split; intros [H1 H2]; (split; [exact H1|]).
  - intros E. now rewrite E in H2.
  - destruct (ld_po d); congruence.
Qed.

Lemma generate_locale_empty_template template code po :
  messages template = [] ->
  fst (generate_locale template 0 code po) = [] /\
  (snd (generate_locale template 0 code po) = None <-> code = "en_US").
Proof.
  intros Hempty. unfold generate_locale.
  destruct (String.eqb_spec code "en_US") as [E|E]; [tauto|].
  destruct po as [|catalog|e]; simpl; try (split; [reflexivity|split; [discriminate|tauto]]).
  destruct (messages catalog) as [|[k m] items]; simpl.
  - split; [reflexivity|split; [discriminate|tauto]].
  - rewrite Hempty. simpl. split; [reflexivity|split; [discriminate|tauto]].
Qed.

(** X14.  With a template that has no message, [generate] writes and
    prints nothing: every catalog file other than that of [en_US] ends the
    run with an exception, the division by zero when the catalog has no
    message either, and the run goes to its end only when there is no
    such file. *)
Theorem generate_empty_template :
  forall (template : Catalog) (dirs : list locale_dir),
    messages template = [] ->
    fst (generate template dirs) = [] /\
    (snd (generate template dirs) = None <->
     forall d, In d dirs -> ld_po d <> Absent -> ld_name d = "en_US") /\
    forall code catalog,
      code <> "en_US" -> messages catalog = [] ->
      generate_locale template (List.length (messages template)) code
        (Readable catalog)
      = ([], Some ZeroDivisionError).
Proof.
  intros template dirs Hempty. unfold generate. rewrite Hempty. simpl.
  destruct (for_each_silent
              (fun d => generate_locale template 0 (ld_name d) (ld_po d))
              (sorted_po_files dirs)) as [Hfst Hsnd].
  { intros d _. now apply generate_locale_empty_template. }
  split; [exact Hfst|]. split.
  - rewrite Hsnd. split.
    + intros H d Hd Hpo.
      apply (generate_locale_empty_template template (ld_name d) (ld_po d) Hempty).
      apply H. now apply In_sorted_po_files.
    + intros H d Hd. apply In_sorted_po_files in Hd as [Hd Hpo].
      apply (generate_locale_empty_template template (ld_name d) (ld_po d) Hempty).
      now apply H.
  - intros code catalog Hcode Hc. unfold generate_locale.
    apply String.eqb_neq in Hcode. now rewrite Hcode, Hc.
Qed.

Lemma generate_empty_template_witness :
  fst (generate (new_catalog None 2)
         [mkDir "fr" (Readable (new_catalog (Some "fr") 2)) 2 None]) = [] /\
  generate_locale (new_catalog None 2) 0 "fr" (Readable (new_catalog (Some "fr") 2))
  = ([], Some ZeroDivisionError).
Proof.
  destruct (generate_empty_template (new_catalog None 2)
              [mkDir "fr" (Readable (new_catalog (Some "fr") 2)) 2 None] eq_refl)
    as (Hfst & _ & Hzero).
  split; [exact Hfst|].
  apply (Hzero "fr" (new_catalog (Some "fr") 2)); [discriminate|reflexivity].
Defined.

Lemma for_each_skips {X} (body : X -> list event * option exn) (keep : X -> bool) xs :
  (forall x, keep x = false -> body x = ([], None)) ->
  for_each body xs = for_each body (filter keep xs).
Proof.
  intros Hskip. induction xs as [|x xs IH]; simpl; [reflexivity|].
  destruct (keep x) eqn:E; simpl.
  - now rewrite IH.
  - rewrite (Hskip x E), IH. simpl.
    now destruct (for_each body (filter keep xs)).
Qed.

(** ** [generate]: the order of the locales *)

Lemma by_name_trans a b c : by_name a b -> by_name b c -> by_name a c.
Proof.
  unfold by_name, String.leb. intros H1 H2.
  pose proof (string_compare_trans (ld_name a) (ld_name b) (ld_name c)) as H.
  destruct (String.compare (ld_name a) (ld_name b)); try discriminate;
    destruct (String.compare (ld_name b) (ld_name c)); try discriminate;
    destruct (String.compare (ld_name a) (ld_name c)); try reflexivity;
    exfalso; apply H; congruence.
Qed.

Lemma insert_by_name_sorted d l :
  Sorted by_name l -> Sorted by_name (insert_by_name d l).
Proof.
  induction l as [|y l IH]; simpl; intros Hs; [repeat constructor|].
  destruct (String.leb (ld_name d) (ld_name y)) eqn:E.
  - constructor; [exact Hs|]. now constructor.
  - inversion Hs as [|? ? Hs' Hhd]; subst.
    constructor; [now apply IH|].
    assert (Hyd : by_name y d).
    { destruct (String.leb_total (ld_name d) (ld_name y)); [congruence|assumption]. }
    destruct l as [|z l]; simpl; [now constructor|].
    destruct (String.leb (ld_name d) (ld_name z)); constructor; [exact Hyd|].
    now inversion Hhd.
Qed.

Lemma sorted_po_files_sorted dirs : StronglySorted by_name (sorted_po_files dirs).
Proof.
  apply Sorted_StronglySorted; [intros a b c; apply by_name_trans|].
  unfold sorted_po_files.
  induction (filter _ dirs) as [|d l IH]; simpl; [constructor|].
  now apply insert_by_name_sorted.
Qed.

Lemma insert_by_name_Permutation d l : Permutation (d :: l) (insert_by_name d l).
Proof.
  induction l as [|y l IH]; simpl; [reflexivity|].
  destruct (String.leb (ld_name d) (ld_name y)); [reflexivity|].
  rewrite perm_swap. now constructor.
Qed.

Lemma sorted_po_files_Permutation dirs :
  Permutation
    (filter (fun d => match ld_po d with Absent => false | _ => true end) dirs)
    (sorted_po_files dirs).
Proof.
  unfold sorted_po_files.
  induction (filter _ dirs) as [|d l IH]; simpl; [constructor|].
  rewrite <- insert_by_name_Permutation. now constructor.
Qed.

Lemma Permutation_filter' {A} (p : A -> bool) l l' :
  Permutation l l' -> Permutation (filter p l) (filter p l').
Proof.
  induction 1 as [|x l l' _ IH|x y l|l l' l'' _ IH1 _ IH2]; simpl.
  - constructor.
  - destruct (p x); [now constructor|exact IH].
  - destruct (p x), (p y); try reflexivity. apply perm_swap.
  - now transitivity (filter p l').
Qed.

Lemma sorted_by_name_unique l :
  forall l',
    StronglySorted by_name l -> StronglySorted by_name l' ->
    Permutation l l' -> NoDup (map ld_name l) -> l = l'.
Proof.
  induction l as [|a l IH]; intros l' Hs Hs' Hperm Hnd.
  - apply Permutation_nil in Hperm. now subst.
  - destruct l' as [|b l'];
      [apply Permutation_sym, Permutation_nil in Hperm; discriminate|].
    inversion Hs as [|? ? Hsl Hal]; subst.
    inversion Hs' as [|? ? Hsl' Hbl']; subst.
    assert (Eab : a = b).
    { assert (Ha : In a (b :: l')) by (apply (Permutation_in a Hperm); now left).
      assert (Hb : In b (a :: l))
        by (apply (Permutation_in b (Permutation_sym Hperm)); now left).
      destruct Ha as [Ha|Ha]; [now subst|].
      destruct Hb as [Hb|Hb]; [now subst|].
      rewrite Forall_forall in Hal, Hbl'.
      assert (En : ld_name a = ld_name b)
        by (apply String.leb_antisym; [apply Hal|apply Hbl']; assumption).
      exfalso. simpl in Hnd. apply NoDup_cons_iff in Hnd as [Hnot _].
      apply Hnot. rewrite En. now apply in_map. }
    subst b. f_equal. apply IH; auto.
    + now apply Permutation_cons_inv in Hperm.
    + simpl in Hnd. now apply NoDup_cons_iff in Hnd.
Qed.

(** X15.  [generate] takes the catalog files in the order of the names of
    their directories: the order in which the file system lists the
    directories has no effect on what it writes, prints or raises. *)
Theorem generate_order_independent :
  forall (template : Catalog) (dirs dirs' : list locale_dir),
    NoDup (map ld_name dirs) ->
    Permutation dirs dirs' ->
    StronglySorted by_name (sorted_po_files dirs) /\
    generate template dirs = generate template dirs'.
Proof.
  intros template dirs dirs' Hnd Hperm.
  split; [apply sorted_po_files_sorted|].
  unfold generate. f_equal.
  apply sorted_by_name_unique; try apply sorted_po_files_sorted.
  - rewrite <- (sorted_po_files_Permutation dirs),
            <- (sorted_po_files_Permutation dirs').
    now apply Permutation_filter'.
  - apply (Permutation_NoDup (Permutation_map ld_name (sorted_po_files_Permutation dirs))).
    now apply NoDup_map_filter.
Qed.

Lemma generate_order_independent_witness :
  generate template_of_ten [broken_dir; sound_dir] =
  generate template_of_ten [sound_dir; broken_dir].
Proof.
  apply (generate_order_independent template_of_ten
           [broken_dir; sound_dir] [sound_dir; broken_dir]).
  - repeat constructor; simpl; intuition discriminate.
  - apply perm_swap.
Defined.

Lemma StronglySorted_filter {A} (R : A -> A -> Prop) (p : A -> bool) l :
  StronglySorted R l -> StronglySorted R (filter p l).
Proof.
  induction 1 as [|x l Hs IH Hall]; simpl; [constructor|].
  destruct (p x); [|exact IH]. constructor; [exact IH|].
  rewrite Forall_forall in *. intros y Hy. apply filter_In in Hy as [Hy _]. auto.
Qed.

Lemma filter_filter_comm {A} (p q : A -> bool) l :
  filter p (filter q l) = filter q (filter p l).
Proof.
  induction l as [|x l IH]; simpl; [reflexivity|].
  destruct (p x) eqn:Ep, (q x) eqn:Eq; simpl; rewrite ?Ep, ?Eq, IH; reflexivity.
Qed.

Lemma sorted_po_files_filter (keep : locale_dir -> bool) dirs :
  NoDup (map ld_name dirs) ->
  sorted_po_files (filter keep dirs) = filter keep (sorted_po_files dirs).
Proof.
  intros Hnd. symmetry. apply sorted_by_name_unique.
  - apply StronglySorted_filter, sorted_po_files_sorted.
  - apply sorted_po_files_sorted.
  - rewrite <- (sorted_po_files_Permutation (filter keep dirs)).
    rewrite filter_filter_comm. apply Permutation_filter'.
    apply Permutation_sym, sorted_po_files_Permutation.
  - apply NoDup_map_filter.
    apply (Permutation_NoDup (Permutation_map ld_name (sorted_po_files_Permutation dirs))).
    now apply NoDup_map_filter.
Qed.

(** X16.  [generate] takes no account of a directory named [en_US]: the run
    is what it would be without that directory, whatever its catalog file
    holds, readable or not. *)
Theorem generate_ignores_en_US :
  forall (template : Catalog) (dirs : list locale_dir),
    NoDup (map ld_name dirs) ->
    generate template dirs = generate template (filter not_en_US dirs).
Proof.
  intros template dirs Hnd. unfold generate.
  rewrite (sorted_po_files_filter not_en_US dirs Hnd).
  apply for_each_skips.
  intros d Hd. unfold not_en_US in Hd. apply negb_false_iff in Hd.
  unfold generate_locale. now rewrite Hd.
Qed.

Lemma generate_ignores_en_US_witness :
  generate template_of_ten
    [sound_dir; mkDir "en_US" (Unreadable UnicodeDecodeError) 2 None]
  = generate template_of_ten [sound_dir].
Proof.
  apply (generate_ignores_en_US template_of_ten
           [sound_dir; mkDir "en_US" (Unreadable UnicodeDecodeError) 2 None]).
  repeat constructor; simpl; intuition discriminate.
Defined.

(** ** What the synchronizer keeps *)

Lemma catalog_wf_keys (t : Catalog) :
  catalog_wf t -> map msg_key (map snd (messages t)) = map fst (messages t).
Proof.
  intros [_ Hwf]. rewrite map_map. apply map_ext_in. intros [k m] Hin. simpl.
  now destruct (Hwf k m Hin) as (-> & _).
Qed.

Lemma Catalog_update_sync babel self template :
  catalog_wf self ->
  catalog_wf template ->
  exists st,
    sync_inv babel self (map snd (messages template)) st /\
    update_loop babel (messages self) (fuzzy_candidates (messages self))
      (mkUpdate (with_messages self []) (messages self) [])
      (map snd (messages template)) = inr st /\
    Catalog_update babel self template = inr (mark_obsolete st).
Proof.
  intros Hself Htemplate.
  destruct (template_messages_keys template Htemplate) as (Hnd & Hid & _).
  assert (Hinit : sync_inv babel self []
            (mkUpdate (with_messages self []) (messages self) [])).
  { unfold sync_inv. simpl. repeat split; auto. }
  destruct (update_loop_spec babel self (map snd (messages template)) []
              (mkUpdate (with_messages self []) (messages self) [])
              Hinit Hnd Hid) as (st & Hloop & Hinv).
  { intros m _. now apply synced_entry_total. }
  exists st. split; [exact Hinv|]. split; [exact Hloop|].
  unfold Catalog_update. now rewrite Hloop.
Qed.

(** X17.  The synchronized catalog has the keys of the template, all of
    them and no other, in the order of the template, with the number of
    plural forms of the existing catalog: a message the template no longer
    has is no longer among the messages. *)
Theorem update_keeps_the_template_keys :
  forall (babel : release) (existing template : Catalog),
    catalog_wf existing ->
    catalog_wf template ->
    exists c',
      Catalog_update babel existing template = inr c' /\
      map fst (messages c') = map fst (messages template) /\
      num_plurals c' = num_plurals existing /\
      forall k,
        dict_get key_eqb (messages template) k = None ->
        dict_get key_eqb (messages c') k = None.
Proof.
  intros babel existing template Hself Htemplate.
  destruct (Catalog_update_sync babel existing template Hself Htemplate)
    as (st & (Hkeys & _ & _ & Hnp) & _ & Hupd).
  exists (mark_obsolete st). split; [exact Hupd|].
  rewrite (catalog_wf_keys template Htemplate) in Hkeys.
  split; [exact Hkeys|]. split; [exact Hnp|].
  intros k Hk. apply (dict_get_None _ key_eqb_spec).
  apply (dict_get_None _ key_eqb_spec) in Hk. simpl. now rewrite Hkeys.
Qed.

Lemma update_keeps_the_template_keys_witness :
  exists c',
    Catalog_update OldUserCommentsIfAny hello_catalog fresh_template = inr c' /\
    map fst (messages c') = [("Quit", None)] /\
    dict_get key_eqb (messages c') ("Hello world", None) = None.
Proof.
  destruct (update_keeps_the_template_keys OldUserCommentsIfAny hello_catalog fresh_template
              hello_catalog_wf (proj1 fresh_template_is_template))
    as (c' & Hupd & Hkeys & _ & Hgone).
  exists c'. split; [exact Hupd|]. split; [exact Hkeys|].
  apply Hgone. reflexivity.
Defined.

Lemma update_loop_new babel todo :
  forall st,
    NoDup (map fst (messages (u_self st)) ++ map msg_key todo) ->
    (forall m, In m todo -> msgid_truthy (m_id m) = true) ->
    update_loop babel [] [] st todo =
    inr (mkUpdate
           (with_messages (u_self st)
              (messages (u_self st) ++ map (fun m => (msg_key m, m)) todo))
           (u_remaining st) (u_fuzzy_matches st)).
Proof.
  induction todo as [|m todo IH]; intros st Hnd Hid; simpl.
  - rewrite app_nil_r. destruct st as [[ms obs np loc] rem fm]. reflexivity.
  - unfold update_step. rewrite (Hid m (or_introl eq_refl)). simpl.
    rewrite setitem_fresh.
    + rewrite IH; simpl.
      * rewrite <- app_assoc. reflexivity.
      * rewrite map_app, <- app_assoc. exact Hnd.
      * intros; apply Hid; now right.
    + apply (dict_get_None _ key_eqb_spec).
      apply NoDup_remove_2 in Hnd. intros H. apply Hnd, in_or_app. now left.
    + apply Hid. now left.
Qed.

Lemma Catalog_update_new babel template locale nplurals :
  catalog_wf template ->
  Catalog_update babel (new_catalog locale nplurals) template =
  inr (mkCatalog (messages template) [] nplurals locale).
Proof.
  intros Htemplate.
  destruct (template_messages_keys template Htemplate) as (Hnd & Hid & _).
  unfold Catalog_update. simpl.
  rewrite update_loop_new; simpl; auto.
  unfold mark_obsolete. simpl. do 2 f_equal.
  destruct Htemplate as [_ Hwf]. rewrite map_map.
  rewrite <- (map_id (messages template)) at 2.
  apply map_ext_in. intros [k m] Hin. simpl.
  now destruct (Hwf k m Hin) as (-> & _).
Qed.

(** X18.  A directory of [translations] that has no catalog file yet, and
    whose name Babel reads as a locale, gets one: the catalog [update]
    writes there holds the messages of the template as they are, in their
    order, and nothing obsolete. *)
Theorem update_creates_the_missing_catalog :
  forall (babel : release) (template : Catalog) (p : locale_dir),
    catalog_wf template ->
    ld_po p = Absent ->
    ld_write p = None ->
    update_locale babel template p =
    ([WritePo (ld_name p)
        (mkCatalog (messages template) [] (ld_plurals p) (Some (ld_name p)));
      Print (PoWritten (ld_name p))], None).
Proof.
  intros babel template p Htemplate Hpo Hwrite. unfold update_locale.
  now rewrite Hpo, Catalog_update_new, Hwrite.
Qed.

Lemma update_creates_the_missing_catalog_witness :
  update_locale OldUserCommentsIfAny fresh_template (mkDir "it" Absent 2 None) =
  ([WritePo "it" (mkCatalog (messages fresh_template) [] 2 (Some "it"));
    Print (PoWritten "it")], None).
Proof.
  apply (update_creates_the_missing_catalog OldUserCommentsIfAny fresh_template (mkDir "it" Absent 2 None)
           (proj1 fresh_template_is_template));
    reflexivity.
Defined.

Lemma Catalog_update_sync_when babel self template :
  catalog_wf template ->
  (forall m, In m (map snd (messages template)) ->
             exists e, synced_entry babel self m = inr e) ->
  exists st,
    sync_inv babel self (map snd (messages template)) st /\
    Catalog_update babel self template = inr (mark_obsolete st).
Proof.
  intros Htemplate Hok.
  destruct (template_messages_keys template Htemplate) as (Hnd & Hid & _).
  assert (Hinit : sync_inv babel self []
            (mkUpdate (with_messages self []) (messages self) [])).
  { unfold sync_inv. simpl. repeat split; auto. }
  destruct (update_loop_spec babel self (map snd (messages template)) []
              (mkUpdate (with_messages self []) (messages self) [])
              Hinit Hnd Hid Hok) as (st & Hloop & Hinv).
  exists st. split; [exact Hinv|].
  unfold Catalog_update. now rewrite Hloop.
Qed.

Lemma sync_inv_entries babel self T st :
  sync_inv babel self T st ->
  NoDup (map msg_key T) ->
  (forall k e, In (k, e) (messages (u_self st)) ->
     exists m, In m T /\ k = msg_key m /\ synced_entry babel self m = inr e) /\
  (forall m, In m T ->
     exists e, synced_entry babel self m = inr e /\
               dict_get key_eqb (messages (u_self st)) (msg_key m) = Some e).
Proof.
  intros (Hkeys & Hentries & _ & _). revert Hkeys Hentries.
  generalize (messages (u_self st)). intros stored Hkeys Hentries.
  revert Hkeys.
  induction Hentries as [|m0 [k0 e0] ms kms He Hrest IH]; simpl;
    intros Hkeys Hnd.
  - split; [intros ? ? []|intros ? []].
  - injection Hkeys as -> Hkeys. inversion Hnd as [|? ? Hnot Hnd']; subst.
    destruct (IH Hkeys Hnd') as [IH1 IH2]. split.
    + intros k e [[= <- <-]|Hin]; [exists m0; auto|].
      destruct (IH1 k e Hin) as (m & Hm & Hk & Hs). exists m. auto.
    + intros m [->|Hm].
      * exists e0. now rewrite key_eqb_refl.
      * destruct (IH2 m Hm) as (e & Hs & Hget). exists e. split; [exact Hs|].
        destruct (key_eqb_spec (msg_key m) (msg_key m0)) as [E|_]; [|exact Hget].
        exfalso. apply Hnot. rewrite <- E. now apply in_map.
Qed.

Lemma merge_shape_singular np s string r :
  merge_shape np (Singular s) string = inr r -> plain_string (fst r).
Proof.
  unfold merge_shape, plain_string.
  destruct string as [|t|[|[f|] forms]]; intros [= <-]; simpl; eauto.
Qed.

Lemma synced_entry_singular babel self m e s :
  m_id m = Singular s ->
  plain_string (m_string m) ->
  synced_entry babel self m = inr e ->
  m_id e = m_id m /\ m_context e = m_context m /\
  plain_string (m_string e) /\
  (m_fuzzy m = true -> m_fuzzy e = true) /\
  (NoDup (m_locations m) -> m_locations e = m_locations m).
Proof.
  intros Hid Hplain He.
  assert (Hmerge : forall oldmsg renamed,
    merge_message babel (num_plurals self) m oldmsg renamed = inr e ->
    m_id e = m_id m /\ m_context e = m_context m /\
    plain_string (m_string e) /\
    (m_fuzzy m = true -> m_fuzzy e = true) /\
    (NoDup (m_locations m) -> m_locations e = m_locations m)).
  { intros oldmsg renamed H.
    destruct (merge_message_fields babel _ _ _ _ _ H)
      as (Eid & Ectx & Eloc & _ & _ & reshaped & Hshape & Hfuzzy).
    repeat split; auto.
    - rewrite Hid in Hshape. now apply merge_shape_singular in Hshape.
    - intros Hf. now rewrite Hfuzzy, Hf.
    - intros Hnd. rewrite Eloc.
      now apply (distinct_NoDup_id _ location_eqb_spec). }
  unfold synced_entry in He.
  destruct (dict_get key_eqb (messages self) (msg_key m)) as [oldmsg|];
    [now apply (Hmerge oldmsg false)|].
  destruct (close_matches self (msg_key m)) as [|modified_key others].
  - injection He as <-. auto.
  - destruct (dict_get String.eqb _ modified_key) as [oldkey|]; [|discriminate].
    destruct (dict_get key_eqb (messages self) oldkey) as [oldmsg|];
      [|discriminate].
    now apply (Hmerge oldmsg true).
Qed.

Lemma merge_message_again babel np m e1 s :
  m_id m = Singular s ->
  plain_string (m_string e1) ->
  exists e2,
    merge_message babel np m e1 false = inr e2 /\
    m_id e2 = m_id m /\ m_string e2 = m_string e1 /\
    m_fuzzy e2 = m_fuzzy m || m_fuzzy e1 /\
    m_locations e2 = distinct location_eqb (m_locations m).
Proof.
  intros Hid Hplain. unfold merge_message. rewrite Hid. unfold merge_shape.
  destruct Hplain as [->|[t ->]]; eexists; (split; [reflexivity|]); simpl;
    rewrite !orb_false_r; auto.
Qed.

(** X19.  Applying [Catalog.update] again, with the same template, to the
    catalog it has made changes nothing, for a template of messages
    without plural forms: the second catalog has the keys of the first,
    and each entry has the id, the translation, the fuzzy mark and the
    locations it had. *)
Theorem update_twice_is_update_once :
  forall (babel : release) (existing template : Catalog),
    catalog_wf existing ->
    catalog_wf template ->
    singular_ids template ->
    exists c1 c2,
      Catalog_update babel existing template = inr c1 /\
      Catalog_update babel c1 template = inr c2 /\
      map fst (messages c2) = map fst (messages c1) /\
      forall k e1,
        dict_get key_eqb (messages c1) k = Some e1 ->
        exists e2,
          dict_get key_eqb (messages c2) k = Some e2 /\
          m_id e2 = m_id e1 /\ m_string e2 = m_string e1 /\
          m_fuzzy e2 = m_fuzzy e1 /\ m_locations e2 = m_locations e1.
Proof.
  intros babel existing template Hself Htemplate Hsing.
  destruct (template_messages_keys template Htemplate) as (Hnd & _ & _).
  assert (Hmsg : forall m, In m (map snd (messages template)) ->
            exists s, m_id m = Singular s /\ plain_string (m_string m) /\
                      NoDup (m_locations m)).
  { intros m Hm. apply in_map_iff in Hm as ([k m'] & <- & Hin). simpl.
    destruct (Hsing k m' Hin) as (s & Hs). exists s. split; [exact Hs|].
    destruct Htemplate as [_ Hwf].
    destruct (Hwf k m' Hin) as (_ & _ & Hshape & Hloc & _).
    split; [|exact Hloc].
    unfold well_shaped in Hshape. rewrite Hs in Hshape. unfold plain_string.
    destruct (m_string m'); try discriminate; eauto. }
  destruct (Catalog_update_sync_when babel existing template Htemplate)
    as (st1 & Hinv1 & Hupd1).
  { intros m _. now apply synced_entry_total. }
  destruct (sync_inv_entries babel _ _ _ Hinv1 Hnd) as [Hfrom1 Hto1].
  assert (Hsecond : forall m, In m (map snd (messages template)) ->
            exists e1 e2,
              synced_entry babel existing m = inr e1 /\
              synced_entry babel (mark_obsolete st1) m = inr e2 /\
              m_id e2 = m_id e1 /\ m_string e2 = m_string e1 /\
              m_fuzzy e2 = m_fuzzy e1 /\ m_locations e2 = m_locations e1).
  { intros m Hm. destruct (Hto1 m Hm) as (e1 & He1 & Hget1).
    destruct (Hmsg m Hm) as (s & Hs & Hplain & Hloc).
    destruct (synced_entry_singular babel existing m e1 s Hs Hplain He1)
      as (Eid & _ & Hplain1 & Hfuzzy & Eloc).
    destruct (merge_message_again babel (num_plurals (mark_obsolete st1)) m e1 s Hs Hplain1)
      as (e2 & He2 & Eid2 & Estr2 & Efz2 & Eloc2).
    exists e1, e2. split; [exact He1|]. split.
    - unfold synced_entry. simpl. now rewrite Hget1.
    - repeat split; try congruence.
      + rewrite Efz2. destruct (m_fuzzy m); [now rewrite Hfuzzy|reflexivity].
      + rewrite Eloc2, (Eloc Hloc).
        now apply (distinct_NoDup_id _ location_eqb_spec). }
  destruct (Catalog_update_sync_when babel (mark_obsolete st1) template Htemplate)
    as (st2 & Hinv2 & Hupd2).
  { intros m Hm. destruct (Hsecond m Hm) as (_ & e2 & _ & He2 & _). eauto. }
  destruct (sync_inv_entries babel _ _ _ Hinv2 Hnd) as [_ Hto2].
  exists (mark_obsolete st1), (mark_obsolete st2).
  split; [exact Hupd1|]. split; [exact Hupd2|]. split.
  - destruct Hinv1 as (Hk1 & _), Hinv2 as (Hk2 & _). simpl. congruence.
  - intros k e1 Hget. simpl in Hget.
    apply (dict_get_In _ key_eqb_spec) in Hget.
    destruct (Hfrom1 k e1 Hget) as (m & Hm & -> & He1).
    destruct (Hsecond m Hm) as (e1' & e2 & He1' & He2 & Hsame).
    assert (e1' = e1) by congruence. subst e1'.
    destruct (Hto2 m Hm) as (e2' & He2' & Hget2).
    assert (e2' = e2) by congruence. subst e2'.
    exists e2. split; [exact Hget2|exact Hsame].
Qed.

Lemma hello_template_wf : catalog_wf hello_template.
Proof. catalog_wf_by_cases. Qed.

Lemma update_twice_is_update_once_witness :
  exists c1 c2,
    Catalog_update OldUserCommentsIfAny hello_catalog hello_template = inr c1 /\
    Catalog_update OldUserCommentsIfAny c1 hello_template = inr c2 /\
    map fst (messages c2) = map fst (messages c1).
Proof.
  assert (Hsing : singular_ids hello_template).
  { intros k m [[= <- <-]|[]]. now exists "Hello world!". }
  destruct (update_twice_is_update_once OldUserCommentsIfAny hello_catalog hello_template
              hello_catalog_wf hello_template_wf Hsing)
    as (c1 & c2 & H1 & H2 & Hkeys & _).
  exists c1, c2. auto.
Defined.

Section DictDel.
Context {K V : Type} (eqb : K -> K -> bool).
Hypothesis eqb_spec : forall x y, reflect (x = y) (eqb x y).

Lemma dict_del_keys (d : list (K * V)) k x :
  In x (map fst (dict_del eqb d k)) -> In x (map fst d).
Proof.
  induction d as [|[k' v'] d IH]; simpl; [tauto|].
  destruct (eqb k k'); simpl; [tauto|]. intros [H|H]; auto.
Qed.

Lemma dict_del_NoDup (d : list (K * V)) k :
  NoDup (map fst d) -> NoDup (map fst (dict_del eqb d k)).
Proof.
  induction d as [|[k' v'] d IH]; simpl; intros Hnd; [constructor|].
  inversion Hnd as [|? ? Hnot Hnd']; subst.
  destruct (eqb k k'); simpl; [exact Hnd'|].
  constructor; [|auto]. intros H. now apply Hnot, (dict_del_keys d k).
Qed.
End DictDel.

Lemma setitem_obsolete c id message : obsolete (setitem c id message) = obsolete c.
Proof.
  unfold setitem.
  destruct (dict_get key_eqb (messages c) _); [reflexivity|].
  destruct id as [[|a s]|s p]; reflexivity.
Qed.

Lemma merge_books babel old st m oldkey newkey st' :
  merge babel old st m oldkey newkey = inr st' ->
  u_fuzzy_matches st' =
    (if key_eqb oldkey newkey then [] else [oldkey]) ++ u_fuzzy_matches st /\
  (NoDup (map fst (u_remaining st)) -> NoDup (map fst (u_remaining st'))) /\
  obsolete (u_self st') = obsolete (u_self st).
Proof.
  unfold merge.
  destruct (key_eqb oldkey newkey); simpl.
  - destruct (dict_get key_eqb (u_remaining st) oldkey); [|discriminate].
    destruct (merge_message babel _ _ _ _); [discriminate|].
    intros [= <-]. simpl. rewrite setitem_obsolete. repeat split.
    apply dict_del_NoDup.
  - destruct (dict_get key_eqb old oldkey); [|discriminate].
    destruct (merge_message babel _ _ _ _); [discriminate|].
    intros [= <-]. simpl. rewrite setitem_obsolete. repeat split. auto.
Qed.

Lemma update_step_books babel self st m st' :
  catalog_wf self ->
  msgid_truthy (m_id m) = true ->
  update_step babel (messages self) (fuzzy_candidates (messages self)) st m = inr st' ->
  u_fuzzy_matches st' = reused_by self m ++ u_fuzzy_matches st /\
  (NoDup (map fst (u_remaining st)) -> NoDup (map fst (u_remaining st'))) /\
  obsolete (u_self st') = obsolete (u_self st).
Proof.
  intros Hself Hid. unfold update_step, reused_by. rewrite Hid.
  fold (msg_key m). unfold dict_mem, close_matches.
  destruct (dict_get key_eqb (messages self) (msg_key m)) as [oldmsg|] eqn:Hold.
  - intros H. apply merge_books in H. now rewrite key_eqb_refl in H.
  - destruct (get_close_matches (to_fuzzy_match_key (fst (msg_key m)))
                (map fst (fuzzy_candidates (messages self))))
      as [|modified_key others] eqn:Hclose.
    + intros [= <-]. simpl. rewrite setitem_obsolete. auto.
    + assert (Hin : In modified_key (map fst (fuzzy_candidates (messages self)))).
      { apply (get_close_matches_In (to_fuzzy_match_key (fst (msg_key m)))).
        rewrite Hclose. now left. }
      destruct (fuzzy_candidate_found self modified_key Hself Hin)
        as (oldkey & oldmsg & -> & Hfound & _).
      intros H. apply merge_books in H.
      destruct (key_eqb_spec oldkey (msg_key m)) as [E|_]; [|exact H].
      rewrite E in Hfound. congruence.
Qed.

Lemma update_loop_books babel self todo :
  catalog_wf self ->
  (forall m, In m todo -> msgid_truthy (m_id m) = true) ->
  forall st st',
    update_loop babel (messages self) (fuzzy_candidates (messages self)) st todo = inr st' ->
    (forall k, In k (u_fuzzy_matches st') <->
               In k (flat_map (reused_by self) todo) \/ In k (u_fuzzy_matches st)) /\
    (NoDup (map fst (u_remaining st)) -> NoDup (map fst (u_remaining st'))) /\
    obsolete (u_self st') = obsolete (u_self st).
Proof.
  intros Hself. induction todo as [|m todo IH]; intros Hid st st'; simpl.
  - intros [= <-]. repeat split; auto. tauto.
  - destruct (update_step babel _ _ st m) as [e|st1] eqn:Hstep; [discriminate|].
    intros Hloop.
    destruct (update_step_books babel self st m st1 Hself (Hid m (or_introl eq_refl)) Hstep)
      as (Hfm & Hnd & Hobs).
    destruct (IH (fun m' H => Hid m' (or_intror H)) st1 st' Hloop)
      as (Hfm' & Hnd' & Hobs').
    split; [|split; [auto|congruence]].
    intros k. rewrite Hfm', Hfm, !in_app_iff. tauto.
Qed.

Lemma obsolete_fold fm rem :
  NoDup (map fst rem) ->
  forall obs k,
    dict_get key_eqb
      (fold_left
         (fun obs (km : key * Message) =>
            if existsb (key_eqb (fst km)) fm then obs
            else dict_set key_eqb obs (fst km) (snd km))
         rem obs) k =
    match dict_get key_eqb rem k with
    | Some v => if existsb (key_eqb k) fm then dict_get key_eqb obs k else Some v
    | None => dict_get key_eqb obs k
    end.
Proof.
  induction rem as [|[k0 v0] rem IH]; intros Hnd obs k; simpl; [reflexivity|].
  inversion Hnd as [|? ? Hnot Hnd']; subst.
  rewrite (IH Hnd').
  destruct (key_eqb_spec k k0) as [->|Hk].
  - assert (E : dict_get key_eqb rem k0 = None)
      by now apply (dict_get_None _ key_eqb_spec).
    rewrite E. destruct (existsb (key_eqb k0) fm); [reflexivity|].
    apply (dict_get_set_same _ key_eqb_spec).
  - assert (E : dict_get key_eqb
                  (if existsb (key_eqb k0) fm then obs
                   else dict_set key_eqb obs k0 v0) k
                = dict_get key_eqb obs k).
    { destruct (existsb (key_eqb k0) fm); [reflexivity|].
      now apply (dict_get_set_other _ key_eqb_spec). }
    now rewrite E.
Qed.

(** X20.  A message of the existing catalog whose key the template no
    longer has leaves the messages and is kept, with its translation, among
    the obsolete messages of the synchronized catalog; but when the fuzzy
    match has reused it for a new message, because its id is the closest
    of the ids that pass the tests of [get_close_matches] for the new id,
    it is not kept. *)
Theorem update_keeps_removed_as_obsolete :
  forall (babel : release) (existing template : Catalog) (k : key)
         (em : Message),
    catalog_wf existing ->
    catalog_wf template ->
    dict_get key_eqb (messages existing) k = Some em ->
    dict_get key_eqb (messages template) k = None ->
    exists c',
      Catalog_update babel existing template = inr c' /\
      dict_get key_eqb (messages c') k = None /\
      dict_get key_eqb (obsolete c') k =
        if existsb (key_eqb k) (fuzzy_reused existing template)
        then dict_get key_eqb (obsolete existing) k
        else Some em.
Proof.
  intros babel existing template k em Hself Htemplate Hold Hgone.
  destruct (template_messages_keys template Htemplate) as (_ & Hid & _).
  destruct (Catalog_update_sync babel existing template Hself Htemplate)
    as (st & (Hkeys & _ & Hrem & _) & Hloop & Hupd).
  destruct (update_loop_books babel existing (map snd (messages template)) Hself Hid _ _ Hloop)
    as (Hfm & Hnd & Hobs).
  simpl in Hfm, Hnd, Hobs.
  rewrite (catalog_wf_keys template Htemplate) in Hkeys, Hrem.
  assert (Hk : ~ In k (map fst (messages template)))
    by now apply (dict_get_None _ key_eqb_spec).
  exists (mark_obsolete st). split; [exact Hupd|]. split.
  - apply (dict_get_None _ key_eqb_spec). simpl. now rewrite Hkeys.
  - unfold mark_obsolete. simpl.
    rewrite obsolete_fold by (apply Hnd; apply Hself).
    rewrite (Hrem k Hk), Hold, Hobs.
    assert (E : existsb (key_eqb k) (u_fuzzy_matches st)
                = existsb (key_eqb k) (fuzzy_reused existing template)).
    { apply eq_true_iff_eq.
      rewrite !(existsb_eqb_In key_eqb key_eqb_spec), Hfm. unfold fuzzy_reused.
      tauto. }
    now rewrite E.
Qed.

Lemma update_keeps_removed_as_obsolete_witness :
  exists c',
    Catalog_update OldUserCommentsIfAny hello_catalog fresh_template = inr c' /\
    dict_get key_eqb (messages c') ("Hello world", None) = None /\
    dict_get key_eqb (obsolete c') ("Hello world", None) =
    Some (snd (translated_entry "Hello world" "Bonjour le monde"
                 [("en-US/index.md", 1)])).
Proof.
  exact (update_keeps_removed_as_obsolete OldUserCommentsIfAny hello_catalog fresh_template
           ("Hello world", None)
           (snd (translated_entry "Hello world" "Bonjour le monde"
                   [("en-US/index.md", 1)]))
           hello_catalog_wf (proj1 fresh_template_is_template)
           eq_refl eq_refl).
Defined.

Lemma new_catalog_wf locale nplurals : catalog_wf (new_catalog locale nplurals).
Proof. split; [constructor|intros k m []]. Qed.

Lemma update_locale_updatable babel template p :
  catalog_wf template ->
  updatable p ->
  exists c',
    Catalog_update babel (catalog_of p) template = inr c' /\
    map fst (messages c') = map fst (messages template) /\
    update_locale babel template p =
    ([WritePo (ld_name p) c'; Print (PoWritten (ld_name p))], None).
Proof.
  intros Htemplate [Hwrite Hpo].
  assert (Hwf : catalog_wf (catalog_of p)).
  { unfold catalog_of. destruct Hpo as [->|(catalog & -> & Hc)];
      [apply new_catalog_wf|exact Hc]. }
  destruct (Catalog_update_sync babel (catalog_of p) template Hwf Htemplate)
    as (st & (Hkeys & _) & _ & Hupd).
  rewrite (catalog_wf_keys template Htemplate) in Hkeys.
  exists (mark_obsolete st). split; [exact Hupd|]. split; [exact Hkeys|].
  unfold update_locale. unfold catalog_of in Hupd.
  destruct Hpo as [E|(catalog & E & _)]; rewrite E in *;
    now rewrite Hupd, Hwrite.
Qed.

(** X21.  When the template and the catalogs of the directories are well
    formed, the names of the directories are locales for Babel, and the
    catalog files can be written, [update] goes to its end without an
    exception, with the exit status 0.  What it leaves behind is, for each
    directory in the order of the directories, the catalog file it writes
    and then the line it prints, and nothing else; the catalog written for
    a directory is the catalog of the directory (a new one when it has no
    catalog file) synchronized with the template, and has the keys of the
    template, in the order of the template. *)
Theorem update_completes :
  forall (babel : release) (template : Catalog) (dirs : list locale_dir),
    catalog_wf template ->
    (forall p, In p dirs -> updatable p) ->
    exists catalogs,
      Forall2
        (fun p c' =>
           Catalog_update babel (catalog_of p) template = inr c' /\
           map fst (messages c') = map fst (messages template))
        dirs catalogs /\
      update babel template dirs =
        (flat_map
           (fun pc => [WritePo (ld_name (fst pc)) (snd pc);
                       Print (PoWritten (ld_name (fst pc)))])
           (combine dirs catalogs),
         None) /\
      exit_status (update babel template dirs) = 0.
Proof.
  intros babel template dirs Htemplate Hdirs.
  assert (H : exists catalogs,
    Forall2
      (fun p c' =>
         Catalog_update babel (catalog_of p) template = inr c' /\
         map fst (messages c') = map fst (messages template))
      dirs catalogs /\
    update babel template dirs =
      (flat_map
         (fun pc => [WritePo (ld_name (fst pc)) (snd pc);
                     Print (PoWritten (ld_name (fst pc)))])
         (combine dirs catalogs),
       None)).
  { unfold update. induction dirs as [|p dirs IH].
    - exists []. split; [constructor|reflexivity].
    - destruct IH as (catalogs & Hall & Hrun);
        [intros q Hq; apply Hdirs; now right|].
      destruct (update_locale_updatable babel template p Htemplate
                  (Hdirs p (or_introl eq_refl))) as (c' & Hupd & Hkeys & Hp).
      exists (c' :: catalogs). split; [constructor; auto|].
      cbn [for_each]. rewrite Hp, Hrun. reflexivity. }
  destruct H as (catalogs & Hall & Hrun).
  exists catalogs. split; [exact Hall|]. split; [exact Hrun|].
  now rewrite Hrun.
Qed.

Lemma update_completes_witness :
  exists c1 c2,
    update OldUserCommentsIfAny fresh_template
      [mkDir "fr" (Readable hello_catalog) 2 None; mkDir "it" Absent 2 None]
    = ([WritePo "fr" c1; Print (PoWritten "fr");
        WritePo "it" c2; Print (PoWritten "it")], None) /\
    map fst (messages c1) = [("Quit", None)] /\
    map fst (messages c2) = [("Quit", None)].
Proof.
  destruct (update_completes OldUserCommentsIfAny fresh_template
              [mkDir "fr" (Readable hello_catalog) 2 None; mkDir "it" Absent 2 None]
              (proj1 fresh_template_is_template))
    as (catalogs & Hall & Hrun & _).
  - intros p [<-|[<-|[]]]; (split; [reflexivity|]).
    + right. exists hello_catalog. split; [reflexivity|exact hello_catalog_wf].
    + now left.
  - inversion Hall as [|? c1 ? rest [_ Hk1] Hall1]; subst.
    inversion Hall1 as [|? c2 ? rest' [_ Hk2] Hall2]; subst.
    inversion Hall2; subst.
    exists c1, c2. split; [exact Hrun|]. split; [exact Hk1|exact Hk2].
Defined.

(** ** [check] *)

Lemma check_loop_spec checkers po_files :
  Forall (fun d => ld_name d = "en_US" \/ exists catalog, ld_po d = Readable catalog)
    po_files ->
  forall has_errors,
    exists lines,
      check_loop checkers po_files has_errors =
        (lines, inr (has_errors || existsb (has_findings checkers) po_files)) /\
      forall d catalog,
        In d po_files -> ld_name d <> "en_US" -> ld_po d = Readable catalog ->
        incl (check_report (ld_name d) (Catalog_check checkers catalog)) lines.
Proof.
  induction 1 as [|d rest Hd Hrest IH]; intros has_errors; simpl.
  - exists []. rewrite orb_false_r. split; [reflexivity|]. intros ? ? [].
  - unfold has_findings at 1.
    destruct (String.eqb_spec (ld_name d) "en_US") as [E|E]; simpl.
    + destruct (IH has_errors) as (lines & Hrun & Hlines).
      exists lines. split; [exact Hrun|].
      intros d' catalog [<-|Hin] Hname Hpo; [contradiction|eauto].
    + destruct Hd as [Hd|(catalog & Hd)]; [contradiction|]. rewrite Hd.
      destruct (IH match Catalog_check checkers catalog with
                   | [] => has_errors
                   | _ => true
                   end) as (lines & Hrun & Hlines).
      rewrite Hrun.
      exists (check_report (ld_name d) (Catalog_check checkers catalog) ++ lines).
      split.
      * f_equal. f_equal.
        destruct (Catalog_check checkers catalog); simpl;
          [reflexivity|now rewrite orb_true_r].
      * intros d' catalog' [<-|Hin] Hname Hpo.
        -- assert (catalog' = catalog) by congruence. subst catalog'.
           apply incl_appl, incl_refl.
        -- apply incl_appr. eauto.
Qed.

Lemma has_findings_present checkers dirs :
  existsb (has_findings checkers)
    (filter (fun d => match ld_po d with Absent => false | _ => true end) dirs)
  = existsb (has_findings checkers) dirs.
Proof.
  induction dirs as [|d dirs IH]; simpl; [reflexivity|].
  destruct (ld_po d) eqn:E; simpl; rewrite IH; try reflexivity.
  unfold has_findings. rewrite E. now rewrite andb_false_r.
Qed.

(** X22.  When the catalog files can be read, [check] reads them all, but
    for that of [en_US]: errors in one do not end the run.  Every locale
    gets its lines, [[OK]] or [[ERRORS]] with the messages and their
    errors, and the exit status is 1 exactly when some locale has
    errors. *)
Theorem check_reports_every_locale :
  forall (checkers : list checker) (dirs : list locale_dir),
    (forall d, In d dirs -> checkable d) ->
    exists lines,
      check checkers dirs =
        (lines, inr (if existsb (has_findings checkers) dirs then 1 else 0)) /\
      forall d catalog,
        In d dirs -> ld_name d <> "en_US" -> ld_po d = Readable catalog ->
        incl (check_report (ld_name d) (Catalog_check checkers catalog)) lines.
Proof.
  intros checkers dirs Hdirs. unfold check.
  destruct (check_loop_spec checkers
              (filter (fun d => match ld_po d with Absent => false | _ => true end) dirs))
    with (has_errors := false) as (lines & Hrun & Hlines).
  { apply Forall_forall. intros d Hd. apply filter_In in Hd as [Hd Hpo].
    destruct (Hdirs d Hd) as [H|[H|H]]; auto. now rewrite H in Hpo. }
  rewrite Hrun. exists lines. simpl. rewrite has_findings_present.
  split; [reflexivity|].
  intros d catalog Hd Hname Hpo. apply (Hlines d catalog); auto.
  apply filter_In. split; [exact Hd|]. now rewrite Hpo.
Qed.

Lemma check_reports_every_locale_witness :
  exists lines,
    check [sample_checker]
      [mkDir "en_US" (Unreadable UnicodeDecodeError) 2 None;
       mkDir "fr" (Readable nine_of_ten) 2 None;
       mkDir "de" (Readable xy_catalog) 2 None]
    = (lines, inr 1) /\
    incl [CheckOK "de"] lines /\
    incl [CheckErrors "fr"; CheckMessage (snd (entry_of (fun _ => "") "ten"));
          CheckError "no translation"] lines.
Proof.
  destruct (check_reports_every_locale [sample_checker]
              [mkDir "en_US" (Unreadable UnicodeDecodeError) 2 None;
               mkDir "fr" (Readable nine_of_ten) 2 None;
               mkDir "de" (Readable xy_catalog) 2 None])
    as (lines & Hrun & Hlines).
  - intros d [<-|[<-|[<-|[]]]]; unfold checkable; simpl; eauto.
  - exists lines. split; [exact Hrun|]. split.
    + apply (Hlines (mkDir "de" (Readable xy_catalog) 2 None) xy_catalog);
        [right; right; left; reflexivity|discriminate|reflexivity].
    + apply (Hlines (mkDir "fr" (Readable nine_of_ten) 2 None) nine_of_ten);
        [right; left; reflexivity|discriminate|reflexivity].
Defined.

(** ** [check]: a catalog that cannot be read *)

Lemma check_loop_unreadable checkers pre d post e :
  Forall (fun p => ld_name p = "en_US" \/ exists catalog, ld_po p = Readable catalog)
    pre ->
  ld_name d <> "en_US" ->
  ld_po d = Unreadable e ->
  forall has_errors,
    check_loop checkers (pre ++ d :: post) has_errors =
    (fst (check_loop checkers pre has_errors), inl e).
Proof.
  intros Hpre Hname Hpo. induction Hpre as [|p pre Hp _ IH]; intros has_errors; simpl.
  - apply String.eqb_neq in Hname. now rewrite Hname, Hpo.
  - destruct (String.eqb (ld_name p) "en_US") eqn:E; [apply IH|].
    destruct Hp as [Hp|(catalog & Hp)]; [apply String.eqb_eq in Hp; congruence|].
    rewrite Hp, IH.
    destruct (check_loop checkers pre _) as [lines r]. reflexivity.
Qed.

(** X23.  A catalog file that cannot be read ends [check] there, with the
    exception: the locales before it have been reported, those after it
    are not, and there is no exit status of [check]'s own. *)
Theorem check_stops_at_unreadable :
  forall (checkers : list checker) (pre post : list locale_dir)
         (d : locale_dir) (e : exn),
    (forall p, In p pre -> checkable p) ->
    ld_name d <> "en_US" ->
    ld_po d = Unreadable e ->
    check checkers (pre ++ d :: post) = (fst (check checkers pre), inl e).
Proof.
  intros checkers pre post d e Hpre Hname Hpo. unfold check.
  rewrite filter_app. simpl. rewrite Hpo.
  rewrite (check_loop_unreadable checkers _ d _ e); auto.
  - now destruct (check_loop checkers _ false).
  - apply Forall_forall. intros p Hp. apply filter_In in Hp as [Hp Hpres].
    destruct (Hpre p Hp) as [H|[H|H]]; auto. now rewrite H in Hpres.
Qed.

Lemma check_stops_at_unreadable_witness :
  check [sample_checker]
    ([mkDir "it" (Readable xy_catalog) 2 None] ++ broken_dir :: [sound_dir])
  = ([CheckOK "it"], inl UnicodeDecodeError).
Proof.
  apply (check_stops_at_unreadable [sample_checker]
           [mkDir "it" (Readable xy_catalog) 2 None] [sound_dir] broken_dir
           UnicodeDecodeError).
  - intros p [<-|[]]. unfold checkable. simpl. eauto.
  - discriminate.
  - reflexivity.
Defined.
